(** * Benford's-law analysis core: a shallow embedding and its properties

The repository holds two report emitters, [scripts/benford_analysis.py]
and [scripts/benford_excel_report.py].  Both carry their own copy of
[leading_digit], [expected_benford_distribution] and
[analyze_numeric_column]; the spreadsheet emitter additionally pools
every extracted digit into an overall distribution, and both rank the
column summaries by [mad].

Layout of the development:
- the Python run-time fragment the code relies on (exceptions, scalars,
  [float()], [str()] of a float, [int()] of a one-character string);
- the pandas fragment (Series with an index, [value_counts], [reindex],
  [sort_index], element-wise arithmetic, reductions, [sort_values]);
- the two source files, each in a module of its own;
- the properties. *)

From Stdlib Require Import ZArith Floats String Ascii DecimalString Reals Lra.
From stdpp Require Import base option list gmap strings sorting.

Local Open Scope Z_scope.

(** ** Python run-time fragment *)

(** The exceptions the modelled code can raise. *)
Inductive exn : Set :=
| ValueError
| TypeError
| OverflowError
| KeyError
| IndexError.

(** What running a piece of Python yields: a value, a raised exception, or
    [OutOfFuel] when the embedding of a [while] loop was cut short. *)
Inductive outcome (A : Type) : Type :=
| Ret (a : A)
| Raise (e : exn)
| OutOfFuel.
Arguments Ret {A} a.
Arguments Raise {A} e.
Arguments OutOfFuel {A}.

Global Instance outcome_ret : MRet outcome := fun _ a => Ret a.
Global Instance outcome_bind : MBind outcome := fun _ _ k m =>
  match m with
  | Ret a => k a
  | Raise e => Raise e
  | OutOfFuel => OutOfFuel
  end.
Global Instance outcome_fmap : FMap outcome := fun _ _ f m =>
  match m with
  | Ret a => Ret (f a)
  | Raise e => Raise e
  | OutOfFuel => OutOfFuel
  end.

(** The scalars a cell of a column can hold. *)
Inductive pyvalue : Set :=
| PyNone                  (* None, pd.NA, pd.NaT: the missing markers *)
| PyFloat (x : float)     (* a binary64 float; NaN is also a missing marker *)
| PyInt (n : Z)           (* an arbitrary-precision int (bool included) *)
| PyStr (s : string)
| PyObject.               (* any other scalar; float() rejects it *)

(** [pd.isna] on a scalar. *)
Definition pd_isna (value : pyvalue) : bool :=
  match value with
  | PyNone => true
  | PyFloat x => is_nan x
  | _ => false
  end.

(** [float(n)] for an int: the nearest binary64 value, ties to even;
    OverflowError when that is beyond the largest finite float. *)
Definition float_of_int (n : Z) : outcome float :=
  let x := SF2Prim (binary_normalize prec emax n 0 false) in
  if is_infinity x then Raise OverflowError else Ret x.

Section PyFloat.

(** [float(s)] for a string is the interpreter's own parser: [None] stands
    for the ValueError it raises on text that is not a float literal. *)
Variable float_of_str : string -> option float.

(** The built-in [float(value)]. *)
Definition py_float (value : pyvalue) : outcome float :=
  match value with
  | PyNone => Raise TypeError
  | PyFloat x => Ret x
  | PyInt n => float_of_int n
  | PyStr s =>
      match float_of_str s with
      | Some x => Ret x
      | None => Raise ValueError
      end
  | PyObject => Raise TypeError
  end.

End PyFloat.

(** *** [str] of a float

    CPython prints the shortest decimal string that reads back as the same
    float (the one nearest to the float when several have that length), in
    fixed notation when the decimal point position lies in (-4, 16] and in
    exponent notation otherwise. *)
Module FloatRepr.

(** A positive finite float is [m * 2^e].  All quantities below are
    integers scaled by [scale e = 2^(2 + max 0 (-e))], so that the float
    and the midpoints to its two neighbours are integers. *)
Definition shift (e : Z) : Z := Z.max 0 (- e).
Definition scale (e : Z) : Z := 2 ^ (2 + shift e).
Definition value (m e : Z) : Z := m * 2 ^ (e + 2 + shift e).
Definition upper (m e : Z) : Z := value m e + 2 ^ (e + 1 + shift e).
Definition lower (m e : Z) : Z :=
  if (m =? 2 ^ 52) && (-1074 <? e)
  then value m e - 2 ^ (e + shift e)
  else value m e - 2 ^ (e + 1 + shift e).

(** [decimal_exponent]: the [p] with [10^p <= m * 2^e < 10^(p+1)],
    searched upwards from the exponent of the smallest float. *)
Fixpoint find_exponent (fuel : nat) (m e p : Z) : Z :=
  match fuel with
  | O => p
  | S fuel =>
      let q := p + 1 in
      if 10 ^ Z.max 0 q * scale e <=? value m e * 10 ^ Z.max 0 (- q)
      then find_exponent fuel m e q
      else p
  end.
Definition decimal_exponent (m e : Z) : Z := find_exponent 640 m e (-324).

(** The shortest decimal [c * 10^k] that rounds to [m * 2^e], trying
    1, 2, ... significant digits.  The midpoints themselves round to the
    float exactly when its mantissa is even. *)
Fixpoint shortest_from (fuel : nat) (m e p n : Z) : Z * Z :=
  let k := p - n + 1 in
  let A := 10 ^ Z.max 0 k * scale e in
  let B := 10 ^ Z.max 0 (- k) in
  let c_down := (value m e * B) / A in
  let c_up := c_down + 1 in
  let within (a b : Z) := if Z.even m then a <=? b else a <? b in
  let down_ok := within (lower m e * B) (c_down * A) in
  let up_ok := within (c_up * A) (upper m e * B) in
  let d_down := value m e * B - c_down * A in
  let d_up := c_up * A - value m e * B in
  let nearest :=
    if d_down <? d_up then c_down
    else if d_up <? d_down then c_up
    else if Z.even c_down then c_down else c_up in
  match fuel with
  | O => (nearest, k)
  | S fuel =>
      if down_ok && up_ok then (nearest, k)
      else if down_ok then (c_down, k)
      else if up_ok then (c_up, k)
      else shortest_from fuel m e p (n + 1)
  end.
Definition shortest (m e : Z) : Z * Z :=
  shortest_from 16 m e (decimal_exponent m e) 1.

(** Digits without trailing zeros, and the position of the decimal
    point counted from the first digit. *)
Fixpoint strip_zeros (fuel : nat) (c k : Z) : Z * Z :=
  match fuel with
  | O => (c, k)
  | S fuel => if c mod 10 =? 0 then strip_zeros fuel (c / 10) (k + 1) else (c, k)
  end.

Definition string_of_nat_Z (n : Z) : string :=
  NilZero.string_of_uint (N.to_uint (Z.to_N n)).

Definition digits_decpt (m e : Z) : string * Z :=
  let '(c, k) := shortest m e in
  let '(c, k) := strip_zeros 20 c k in
  let ds := string_of_nat_Z c in
  (ds, Z.of_nat (String.length ds) + k).

Definition zeros (n : Z) : string := string_of_list_ascii (replicate (Z.to_nat n) "0"%char).

Definition exponent_suffix (x : Z) : string :=
  let a := string_of_nat_Z (Z.abs x) in
  (if x <? 0 then "e-" else "e+") +:+ (if Z.abs x <? 10 then "0" else "") +:+ a.

Definition format_positive (m e : Z) : string :=
  let '(ds, decpt) := digits_decpt m e in
  let nd := Z.of_nat (String.length ds) in
  if (-4 <? decpt) && (decpt <=? 16) then
    if decpt <=? 0 then "0." +:+ zeros (- decpt) +:+ ds
    else if decpt <? nd then
      substring 0 (Z.to_nat decpt) ds +:+ "." +:+
      substring (Z.to_nat decpt) (Z.to_nat (nd - decpt)) ds
    else ds +:+ zeros (decpt - nd) +:+ ".0"
  else
    substring 0 1 ds +:+
    (if 1 <? nd then "." +:+ substring 1 (Z.to_nat (nd - 1)) ds else "") +:+
    exponent_suffix (decpt - 1).

(** [str(x)] (equally [repr(x)]) for a float [x]. *)
Definition float_str (x : float) : string :=
  match Prim2SF x with
  | S754_nan => "nan"
  | S754_infinity s => if s then "-inf" else "inf"
  | S754_zero s => if s then "-0.0" else "0.0"
  | S754_finite s m e =>
      (if s then "-" else "") +:+ format_positive (Z.pos m) e
  end.

End FloatRepr.

(** [s[0]] on a string. *)
Definition str_first (s : string) : outcome ascii :=
  match s with
  | EmptyString => Raise IndexError
  | String c _ => Ret c
  end.

(** [int(c)] on a one-character string: a decimal digit, else ValueError. *)
Definition int_of_char (c : ascii) : outcome Z :=
  let n := Z.of_nat (nat_of_ascii c) in
  if (48 <=? n) && (n <=? 57) then Ret (n - 48) else Raise ValueError.

(** *** Float arithmetic

    The analysis only combines floats through the operations below.  They
    are kept behind an interface with two instances: binary64 arithmetic as
    the interpreter performs it, and the real numbers the formulas of the
    report are written in.  [fsum] is the reduction NumPy applies to an
    array of floats (its order of additions is NumPy's own), [log10] is
    [math.log10] of the platform's C library. *)
Class Arith (F : Type) : Type := {
  of_int : Z -> F;             (* float(n): also the literals 0.0 and 1 *)
  fadd : F -> F -> F;
  fsub : F -> F -> F;
  fmul : F -> F -> F;
  fdiv : F -> F -> F;
  fneg : F -> F;
  fabs : F -> F;
  flt : F -> F -> bool;        (* x < y *)
  fisnan : F -> bool;
  fsum : list F -> F;
  log10 : F -> F;
}.

(** Binary64, for a given [math.log10].  [fsum] adds from left to right;
    NumPy groups the terms of a longer sum differently, so that a sum of
    eight or more binary64 values is that of pandas up to rounding only. *)
Definition float_arith (libm_log10 : float -> float) : Arith float := {|
  of_int n := SF2Prim (binary_normalize prec emax n 0 false);
  fadd := PrimFloat.add;
  fsub := PrimFloat.sub;
  fmul := PrimFloat.mul;
  fdiv := PrimFloat.div;
  fneg := PrimFloat.opp;
  fabs := PrimFloat.abs;
  flt := PrimFloat.ltb;
  fisnan := PrimFloat.is_nan;
  fsum l := foldl PrimFloat.add 0%float l;
  log10 := libm_log10;
|}.

(** The real numbers: exact arithmetic, no NaN, the true logarithm. *)
Definition real_log10 (x : R) : R := (ln x / ln 10)%R.

Definition real_arith : Arith R := {|
  of_int := IZR;
  fadd := Rplus;
  fsub := Rminus;
  fmul := Rmult;
  fdiv := Rdiv;
  fneg := Ropp;
  fabs := Rabs;
  flt x y := if Rlt_dec x y then true else false;
  fisnan _ := false;
  fsum l := foldr Rplus 0%R l;
  log10 := real_log10;
|}.

(** ** pandas fragment *)

(** A Series: (index label, value) pairs in row order. *)
Abbreviation Series A := (list (Z * A)%type).

(** A dict with int keys, in insertion order. *)
Abbreviation dict A := (list (Z * A)%type).

(** [range(a, b)]. *)
Definition range (a b : Z) : list Z := seqZ a (b - a).

Section Pandas.
  Context {A B C : Type}.

(** [d[k]] on a dict and [s[label]] on a Series with unique labels. *)
Fixpoint lookup_label (s : list (Z * A)) (k : Z) : outcome A :=
  match s with
  | [] => Raise KeyError
  | (l, a) :: s => if decide (l = k) then Ret a else lookup_label s k
  end.

(** [s.reindex(labels, fill_value=fill)] for a Series held as a map from
    its labels (the row order of the old Series plays no role). *)
Definition reindex (labels : list Z) (fill : A) (m : gmap Z A) : Series A :=
  (fun l => (l, default fill (m !! l))) <$> labels.

(** [s.sort_index()]: a stable insertion sort on the labels. *)
Fixpoint insert_by_label (x : Z * A) (s : Series A) : Series A :=
  match s with
  | [] => [x]
  | y :: s' => if x.1 <? y.1 then x :: s else y :: insert_by_label x s'
  end.
Definition sort_index (s : Series A) : Series A :=
  foldr insert_by_label [] s.

(** Apply [f] to every value, keeping the index
    ([s / total], [s.astype(float)], [s ** 2], [s.abs()]). *)
Definition series_map (f : A -> B) (s : Series A) : Series B :=
  (fun x => (x.1, f x.2)) <$> s.

(** Element-wise [s1 op s2].  pandas first compares the two indexes and,
    when they are equal, combines the values row by row; that is the only
    case embedded.  Operands with different indexes (which pandas would
    align on the union of the labels) are outside the fragment and
    reported as a KeyError. *)
Definition series_binop (f : A -> B -> C) (s1 : Series A) (s2 : Series B)
  : outcome (Series C) :=
  if decide (s1.*1 = s2.*1)
  then Ret (zip_with (fun x y => (x.1, f x.2 y.2)) s1 s2)
  else Raise KeyError.

(** [df.take(indexer)]: rows by position, IndexError out of bounds. *)
Definition take_rows (indexer : list nat) (rows : list A) : outcome (list A) :=
  mapM (fun i => match rows !! i with
                 | Some r => Ret r
                 | None => Raise IndexError
                 end) indexer.
End Pandas.

(** [s.value_counts()]: how often each value occurs, as a map from the
    value (the order of the resulting rows is immaterial to [reindex]). *)
Definition value_counts (digits : list Z) : gmap Z Z :=
  foldr (fun d m => <[d := default 0 (m !! d) + 1]> m) ∅ digits.

Section Reductions.
  Context `{Arith F}.

Definition notnan (x : F) : bool := negb (fisnan x).

(** [s.sum()] with the default skipna=True: NaN entries are left out. *)
Definition series_sum (s : Series F) : F :=
  fsum (filter (fun x => notnan x = true) s.*2).

(** [s.mean()] with skipna=True: the sum over the number of non-NaN
    entries. *)
Definition series_mean (s : Series F) : F :=
  let vs := filter (fun x => notnan x = true) s.*2 in
  fdiv (fsum vs) (of_int (Z.of_nat (length vs))).
End Reductions.

(** *** [DataFrame.sort_values(by, ascending=False)]

    pandas sorts on one column through [nargsort]: missing keys are set
    aside, the remaining keys are reversed, arg-sorted in ascending order by
    NumPy with the default kind="quicksort", the resulting positions are
    mapped back and reversed, and the rows with a missing key go last. *)
Section SortValues.
  Context `{Arith F} {A : Type}.

(** [ndarray.argsort(kind="quicksort")] of NumPy. *)
Variable argsort : list F -> outcome (list nat).

Definition nargsort_desc (items : list F) : outcome (list nat) :=
  let idx := seq 0 (length items) in
  let keyed := zip idx items in
  let non_nans := reverse (filter (fun x => notnan x = true) items) in
  let non_nan_idx := reverse (filter (fun p => notnan p.2 = true) keyed).*1 in
  let nan_idx := (filter (fun p => fisnan p.2 = true) keyed).*1 in
  order ← argsort non_nans;
  indexer ← take_rows order non_nan_idx;
  Ret (reverse indexer ++ nan_idx).

Definition sort_values_desc (key : A -> F) (df : list A) : outcome (list A) :=
  indexer ← nargsort_desc (key <$> df);
  take_rows indexer df.

(** [df.head(n)]. *)
Definition head (n : nat) (df : list A) : list A := take n df.
End SortValues.

(** *** NumPy's [argsort], kind="quicksort"

    The scalar code path of NumPy's arg-quicksort: an introsort over an
    array of positions [tosort], ordering them by the keys [v].  Ranges
    longer than 17 are split around the median of their first, middle and
    last key; shorter ones are finished by insertion sort; heapsort takes
    over when the recursion budget [cdepth] is used up.  Pointers into
    [tosort] are positions in [Z]. *)
Module numpy.
Section ArgQuicksort.
Context `{Arith F}.
Variable v : list F.

(** [Tag::less] on floats: [a < b], a NaN counting as larger than any
    number. *)
Definition less (a b : F) : bool :=
  flt a b || (fisnan b && negb (fisnan a)).

(** [*p] and [v[*p]] for a pointer [p] into [tosort]. *)
Definition at_ (tosort : list nat) (p : Z) : nat :=
  default O (tosort !! Z.to_nat p).
Definition less_idx (i j : nat) : bool :=
  match v !! i, v !! j with
  | Some a, Some b => less a b
  | _, _ => false
  end.
Definition store (tosort : list nat) (p : Z) (i : nat) : list nat :=
  <[Z.to_nat p := i]> tosort.
Definition swap (tosort : list nat) (p q : Z) : list nat :=
  store (store tosort p (at_ tosort q)) q (at_ tosort p).

(** [do ++pi; while (less(v[*pi], vp))] with [vp = v[ip]]. *)
Fixpoint scan_up (fuel : nat) (tosort : list nat) (ip : nat) (pi : Z) : Z :=
  let pi := pi + 1 in
  match fuel with
  | O => pi
  | S fuel => if less_idx (at_ tosort pi) ip then scan_up fuel tosort ip pi else pi
  end.

(** [do --pj; while (less(vp, v[*pj]))]. *)
Fixpoint scan_down (fuel : nat) (tosort : list nat) (ip : nat) (pj : Z) : Z :=
  let pj := pj - 1 in
  match fuel with
  | O => pj
  | S fuel => if less_idx ip (at_ tosort pj) then scan_down fuel tosort ip pj else pj
  end.

(** The [for (;;)] loop of the partition. *)
Fixpoint partition_loop (fuel : nat) (tosort : list nat) (ip : nat) (pi pj : Z)
  : list nat * Z :=
  let pi := scan_up (length tosort) tosort ip pi in
  let pj := scan_down (length tosort) tosort ip pj in
  match fuel with
  | O => (tosort, pi)
  | S fuel =>
      if pj <=? pi then (tosort, pi)
      else partition_loop fuel (swap tosort pi pj) ip pi pj
  end.

(** One pass of the body of [while ((pr - pl) > SMALL_QUICKSORT)]: the
    partitioned array and the final place [pi] of the pivot. *)
Definition partition (tosort : list nat) (pl pr : Z) : list nat * Z :=
  let pm := pl + Z.shiftr (pr - pl) 1 in
  let tosort :=
    if less_idx (at_ tosort pm) (at_ tosort pl) then swap tosort pm pl else tosort in
  let tosort :=
    if less_idx (at_ tosort pr) (at_ tosort pm) then swap tosort pr pm else tosort in
  let tosort :=
    if less_idx (at_ tosort pm) (at_ tosort pl) then swap tosort pm pl else tosort in
  let ip := at_ tosort pm in
  let pj := pr - 1 in
  let tosort := swap tosort pm pj in
  let '(tosort, pi) := partition_loop (length tosort) tosort ip pl pj in
  (swap tosort pi (pr - 1), pi).

(** The inner [while] of the insertion sort: shift larger entries up. *)
Fixpoint insert_down (fuel : nat) (tosort : list nat) (pl : Z) (vi : nat) (pj : Z)
  : list nat :=
  match fuel with
  | O => store tosort pj vi
  | S fuel =>
      if (pl <? pj) && less_idx vi (at_ tosort (pj - 1))
      then insert_down fuel (store tosort pj (at_ tosort (pj - 1))) pl vi (pj - 1)
      else store tosort pj vi
  end.

(** [for (pi = pl + 1; pi <= pr; ++pi)]. *)
Definition insertion_sort (tosort : list nat) (pl pr : Z) : list nat :=
  foldl (fun tosort pi =>
           insert_down (length tosort) tosort pl (at_ tosort pi) pi)
        tosort (seqZ (pl + 1) (pr - pl)).

(** Heapsort of the [n] positions from [pl] on; [a[i]] is
    [tosort[pl + i - 1]]. *)
Fixpoint sift (fuel : nat) (tosort : list nat) (pl n : Z) (tmp : nat) (i j : Z)
  : list nat :=
  match fuel with
  | O => store tosort (pl + i - 1) tmp
  | S fuel =>
      if j <=? n then
        let j :=
          if (j <? n) &&
             less_idx (at_ tosort (pl + j - 1)) (at_ tosort (pl + j))
          then j + 1 else j in
        if less_idx tmp (at_ tosort (pl + j - 1))
        then sift fuel (store tosort (pl + i - 1) (at_ tosort (pl + j - 1)))
                  pl n tmp j (j + j)
        else store tosort (pl + i - 1) tmp
      else store tosort (pl + i - 1) tmp
  end.

Definition heapsort (tosort : list nat) (pl n : Z) : list nat :=
  let fuel := length tosort in
  let tosort :=
    foldl (fun tosort l => sift fuel tosort pl n (at_ tosort (pl + l - 1)) l (l + l))
          tosort (reverse (seqZ 1 (Z.shiftr n 1))) in
  foldl (fun tosort n =>
           let tmp := at_ tosort (pl + n - 1) in
           let tosort := store tosort (pl + n - 1) (at_ tosort pl) in
           sift fuel tosort pl (n - 1) tmp 1 2)
        tosort (reverse (seqZ 2 (n - 1))).

(** The driver: [stack] holds the ranges still to sort, each with the
    recursion budget it was pushed with. *)
Fixpoint run (fuel : nat) (tosort : list nat) (pl pr : Z)
    (stack : list (Z * Z * Z)) (cdepth : Z) (partitioning : bool)
  : outcome (list nat) :=
  let pop (fuel : nat) (tosort : list nat) :=
    match stack with
    | [] => Ret tosort
    | (pl, pr, cdepth) :: stack =>
        match fuel with
        | O => OutOfFuel
        | S fuel => run fuel tosort pl pr stack cdepth false
        end
    end in
  match fuel with
  | O => OutOfFuel
  | S fuel =>
      if negb partitioning && (cdepth <? 0) then
        pop fuel (heapsort tosort pl (pr - pl + 1))
      else if 16 <? pr - pl then
        let '(tosort, pi) := partition tosort pl pr in
        if pi - pl <? pr - pi
        then run fuel tosort pl (pi - 1)
                 ((pi + 1, pr, cdepth - 1) :: stack) (cdepth - 1) true
        else run fuel tosort (pi + 1) pr
                 ((pl, pi - 1, cdepth - 1) :: stack) (cdepth - 1) true
      else pop fuel (insertion_sort tosort pl pr)
  end.

(** [npy_get_msb]. *)
Definition get_msb (n : Z) : Z := Z.log2 n.

Definition aquicksort : outcome (list nat) :=
  let num := Z.of_nat (length v) in
  run (4 * length v + 4) (seq 0 (length v)) 0 (num - 1) [] (get_msb num * 2) false.
End ArgQuicksort.

(** [v.argsort(kind="quicksort")]. *)
Definition argsort `{Arith F} (v : list F) : outcome (list nat) := aquicksort v.
End numpy.

(** The rows both report emitters exchange. *)
Record detail_row (F : Type) : Type := {
  sheet : string;
  column : string;
  digit : Z;
  count : Z;
  proportion : F;
  expected_proportion : F;
  difference : F;
}.
Arguments sheet {F}. Arguments column {F}. Arguments digit {F}.
Arguments count {F}. Arguments proportion {F}.
Arguments expected_proportion {F}. Arguments difference {F}.

Record summary (F : Type) : Type := {
  s_sheet : string;
  s_column : string;
  total_values : Z;
  chi_square : F;
  mad : F;
}.
Arguments s_sheet {F}. Arguments s_column {F}. Arguments total_values {F}.
Arguments chi_square {F}. Arguments mad {F}.

(** A workbook after ingestion: per sheet, the columns
    [select_dtypes(include="number")] kept, each with its cells. *)
Definition numeric_frame : Type := list (string * list pyvalue).
Definition workbook : Type := list (string * numeric_frame).

(** [df.empty]: no column, or no row (the columns of a frame share one
    length). *)
Definition frame_empty (df : numeric_frame) : bool :=
  match df with
  | [] => true
  | (_, cells) :: _ => bool_decide (cells = [])
  end.

(** ** scripts/benford_analysis.py *)
Module benford_analysis.

Section Source.
  Variable float_of_str : string -> option float.
  Context `{Arith F}.

(** [while number < 1: number *= 10]; 400 rounds of fuel are more than
    the loop can use (the smallest positive float is about 4.9e-324). *)
Fixpoint scale_up (fuel : nat) (number : float) : outcome float :=
  if (number <? 1)%float then
    match fuel with
    | O => OutOfFuel
    | S fuel => scale_up fuel (number * 10)%float
    end
  else Ret number.

Definition leading_digit (value : pyvalue) : outcome (option Z) :=
  if pd_isna value then Ret None
  else
    match py_float float_of_str value with
    | Raise TypeError | Raise ValueError => Ret None
    | Raise e => Raise e
    | OutOfFuel => OutOfFuel
    | Ret number =>
        if (number =? 0)%float then Ret None
        else
          let number := abs number in
          number ← scale_up 400 number;
          c ← str_first (FloatRepr.float_str number);
          digit ← int_of_char c;
          if digit =? 0 then Ret None else Ret (Some digit)
    end.

Definition expected_benford_distribution : dict F :=
  (fun digit =>
     (digit, log10 (fadd (of_int 1) (fdiv (of_int 1) (of_int digit)))))
    <$> range 1 10.

(** [series.map(leading_digit).dropna().astype(int)] *)
Definition extract_digits (series : list pyvalue) : outcome (list Z) :=
  omap (fun digit => digit) <$> mapM leading_digit series.

(** One iteration of the loop that fills [detail_rows]. *)
Definition detail_row_for (sheet_name column_name : string) (total : Z)
    (counts : Series Z) (proportions : Series F) (expected : dict F)
    (digit : Z) : outcome (detail_row F) :=
  c ← lookup_label counts digit;
  p ← (if 0 <? total then lookup_label proportions digit
       else Ret (of_int 0));
  e ← lookup_label expected digit;
  d ← (if 0 <? total
       then p' ← lookup_label proportions digit;
            e' ← lookup_label expected digit;
            Ret (fsub p' e')
       else e' ← lookup_label expected digit;
            Ret (fneg e'));
  Ret {| sheet := sheet_name; column := column_name; digit := digit;
         count := c; proportion := p; expected_proportion := e;
         difference := d |}.

Definition analyze_numeric_column (series : list pyvalue)
    (sheet_name column_name : string)
  : outcome (list (detail_row F) * summary F) :=
  digits ← extract_digits series;
  let total := Z.of_nat (length digits) in
  let expected := expected_benford_distribution in
  let counts := sort_index (reindex (range 1 10) 0 (value_counts digits)) in
  let proportions :=
    if 0 <? total
    then series_map (fun c => fdiv (of_int c) (of_int total)) counts
    else series_map of_int counts in
  detail_rows ← mapM (detail_row_for sheet_name column_name total
                        counts proportions expected) (range 1 10);
  scores ← (if 0 <? total then
              expected_counts ←
                mapM (fun digit => e ← lookup_label expected digit;
                                   Ret (digit, fmul e (of_int total)))
                     (range 1 10);
              deviation ← series_binop (fun c e => fsub (of_int c) e)
                            counts expected_counts;
              terms ← series_binop fdiv
                        (series_map (fun x => fmul x x) deviation)
                        expected_counts;
              let chi_square := series_sum terms in
              gaps ← series_binop fsub proportions expected;
              let mad := series_mean (series_map fabs gaps) in
              Ret (chi_square, mad)
            else Ret (of_int 0, of_int 0));
  Ret (detail_rows,
       {| s_sheet := sheet_name; s_column := column_name;
          total_values := total;
          chi_square := scores.1; mad := scores.2 |}).

(** [main], from the loaded workbook to the tables the report prints. *)
Variable argsort : list F -> outcome (list nat).

Definition tables : Type := list (list (detail_row F)) * list (summary F).

Fixpoint analyze_columns (sheet_name : string) (numeric_cols : numeric_frame)
    (acc : tables) : outcome tables :=
  match numeric_cols with
  | [] => Ret acc
  | (column_name, series) :: numeric_cols =>
      r ← analyze_numeric_column series sheet_name column_name;
      analyze_columns sheet_name numeric_cols
                      (acc.1 ++ [r.1], acc.2 ++ [r.2])
  end.

Fixpoint analyze_sheets (excel : workbook) (acc : tables) : outcome tables :=
  match excel with
  | [] => Ret acc
  | (sheet_name, numeric_cols) :: excel =>
      if frame_empty numeric_cols then analyze_sheets excel acc
      else acc ← analyze_columns sheet_name numeric_cols acc;
           analyze_sheets excel acc
  end.

(** [summary_df.sort_values("mad", ascending=False).head(10)] *)
Definition top_deviations (summary_df : list (summary F))
  : outcome (list (summary F)) :=
  head 10 <$> sort_values_desc argsort mad summary_df.

(** The tables of the report: detail, summary, top deviations. *)
Definition main (excel : workbook)
  : outcome (list (detail_row F) * list (summary F) * list (summary F)) :=
  acc ← analyze_sheets excel ([], []);
  let detail_df := concat acc.1 in
  let summary_df := acc.2 in
  top ← top_deviations summary_df;
  Ret (detail_df, summary_df, top).

End Source.

(** [markdown_table(df)], on the strings of the frame: [headers] is
    [[str(col) for col in df.columns]] and [rows] is
    [df.astype(str).values.tolist()].  [String.concat sep items] is
    Python's [sep.join(items)]. *)
Definition markdown_table (headers : list string) (rows : list (list string))
  : string :=
  let header_line := "| " +:+ String.concat " | " headers +:+ " |" in
  let separator_line :=
    "| " +:+ String.concat " | " (replicate (length headers) "---") +:+ " |" in
  let row_lines :=
    (fun row => "| " +:+ String.concat " | " row +:+ " |") <$> rows in
  String.concat (String "010" "") (header_line :: separator_line :: row_lines).

End benford_analysis.

(** ** scripts/benford_excel_report.py *)
Module benford_excel_report.

Section Source.
  Variable float_of_str : string -> option float.
  Context `{Arith F}.

(** [while number < 1: number *= 10]; 400 rounds of fuel are more than
    the loop can use (the smallest positive float is about 4.9e-324). *)
Fixpoint scale_up (fuel : nat) (number : float) : outcome float :=
  if (number <? 1)%float then
    match fuel with
    | O => OutOfFuel
    | S fuel => scale_up fuel (number * 10)%float
    end
  else Ret number.

Definition leading_digit (value : pyvalue) : outcome (option Z) :=
  if pd_isna value then Ret None
  else
    match py_float float_of_str value with
    | Raise TypeError | Raise ValueError => Ret None
    | Raise e => Raise e
    | OutOfFuel => OutOfFuel
    | Ret number =>
        if (number =? 0)%float then Ret None
        else
          let number := abs number in
          number ← scale_up 400 number;
          c ← str_first (FloatRepr.float_str number);
          digit ← int_of_char c;
          if digit =? 0 then Ret None else Ret (Some digit)
    end.

Definition expected_benford_distribution : dict F :=
  (fun digit =>
     (digit, log10 (fadd (of_int 1) (fdiv (of_int 1) (of_int digit)))))
    <$> range 1 10.

(** [series.map(leading_digit).dropna().astype(int)] *)
Definition extract_digits (series : list pyvalue) : outcome (list Z) :=
  omap (fun digit => digit) <$> mapM leading_digit series.

(** One iteration of the loop that fills [detail_rows]. *)
Definition detail_row_for (sheet_name column_name : string) (total : Z)
    (counts : Series Z) (proportions : Series F) (expected : dict F)
    (digit : Z) : outcome (detail_row F) :=
  c ← lookup_label counts digit;
  p ← (if 0 <? total then lookup_label proportions digit
       else Ret (of_int 0));
  e ← lookup_label expected digit;
  d ← (if 0 <? total
       then p' ← lookup_label proportions digit;
            e' ← lookup_label expected digit;
            Ret (fsub p' e')
       else e' ← lookup_label expected digit;
            Ret (fneg e'));
  Ret {| sheet := sheet_name; column := column_name; digit := digit;
         count := c; proportion := p; expected_proportion := e;
         difference := d |}.

Definition analyze_numeric_column (series : list pyvalue)
    (sheet_name column_name : string)
  : outcome (list (detail_row F) * summary F) :=
  digits ← extract_digits series;
  let total := Z.of_nat (length digits) in
  let expected := expected_benford_distribution in
  let counts := sort_index (reindex (range 1 10) 0 (value_counts digits)) in
  let proportions :=
    if 0 <? total
    then series_map (fun c => fdiv (of_int c) (of_int total)) counts
    else series_map of_int counts in
  detail_rows ← mapM (detail_row_for sheet_name column_name total
                        counts proportions expected) (range 1 10);
  scores ← (if 0 <? total then
              expected_counts ←
                mapM (fun digit => e ← lookup_label expected digit;
                                   Ret (digit, fmul e (of_int total)))
                     (range 1 10);
              deviation ← series_binop (fun c e => fsub (of_int c) e)
                            counts expected_counts;
              terms ← series_binop fdiv
                        (series_map (fun x => fmul x x) deviation)
                        expected_counts;
              let chi_square := series_sum terms in
              gaps ← series_binop fsub proportions expected;
              let mad := series_mean (series_map fabs gaps) in
              Ret (chi_square, mad)
            else Ret (of_int 0, of_int 0));
  Ret (detail_rows,
       {| s_sheet := sheet_name; s_column := column_name;
          total_values := total;
          chi_square := scores.1; mad := scores.2 |}).

(** [main], from the loaded workbook to the tables written to the
    spreadsheet. *)
Variable argsort : list F -> outcome (list nat).

Record tables : Type := {
  detail_frames : list (list (detail_row F));
  summary_rows : list (summary F);
  all_digits : list Z;
}.

Fixpoint analyze_columns (sheet_name : string) (numeric_cols : numeric_frame)
    (acc : tables) : outcome tables :=
  match numeric_cols with
  | [] => Ret acc
  | (column_name, series) :: numeric_cols =>
      digits ← extract_digits series;
      let all_digits' :=
        if bool_decide (digits = []) then all_digits acc
        else all_digits acc ++ digits in
      r ← analyze_numeric_column series sheet_name column_name;
      analyze_columns sheet_name numeric_cols
        {| detail_frames := detail_frames acc ++ [r.1];
           summary_rows := summary_rows acc ++ [r.2];
           all_digits := all_digits' |}
  end.

Fixpoint analyze_sheets (excel : workbook) (acc : tables) : outcome tables :=
  match excel with
  | [] => Ret acc
  | (sheet_name, numeric_cols) :: excel =>
      if frame_empty numeric_cols then analyze_sheets excel acc
      else acc ← analyze_columns sheet_name numeric_cols acc;
           analyze_sheets excel acc
  end.

Record overall_row : Type := {
  o_digit : Z;
  actual_count : Z;
  actual_percent : F;
  expected_percent : F;
}.

(** The pooled distribution over every extracted digit. *)
Definition overall_distribution (all_digits : list Z)
  : outcome (list overall_row) :=
  let expected := expected_benford_distribution in
  let overall_counts :=
    sort_index (reindex (range 1 10) 0 (value_counts all_digits)) in
  let overall_total := foldr Z.add 0 overall_counts.*2 in
  let overall_proportions :=
    if 0 <? overall_total
    then series_map (fun c => fdiv (of_int c) (of_int overall_total))
                    overall_counts
    else series_map of_int overall_counts in
  counts ← mapM (lookup_label overall_counts) (range 1 10);
  percents ← mapM (lookup_label overall_proportions) (range 1 10);
  expecteds ← mapM (lookup_label expected) (range 1 10);
  Ret (zip_with (fun d r => {| o_digit := d; actual_count := r.1.1;
                               actual_percent := r.1.2;
                               expected_percent := r.2 |})
                (range 1 10) (zip (zip counts percents) expecteds)).

(** [summary_df.sort_values("mad", ascending=False).head(10)] *)
Definition top_deviations (summary_df : list (summary F))
  : outcome (list (summary F)) :=
  head 10 <$> sort_values_desc argsort mad summary_df.

(** The tables of the report: detail, summary, overall distribution,
    top deviations. *)
Definition main (excel : workbook)
  : outcome (list (detail_row F) * list (summary F)
             * list overall_row * list (summary F)) :=
  acc ← analyze_sheets excel
          {| detail_frames := []; summary_rows := []; all_digits := [] |};
  let detail_df := concat (detail_frames acc) in
  let summary_df := summary_rows acc in
  overall_table ← overall_distribution (all_digits acc);
  top ← top_deviations summary_df;
  Ret (detail_df, summary_df, overall_table, top).

End Source.

End benford_excel_report.

(** ** The vocabulary of the specification

    The quantities the specification names, written over a list of
    extracted digits rather than as pandas pipelines. *)
Section Vocabulary.
Context `{Arith F}.

(** count_d: how many of the extracted digits are [d]. *)
Definition count_digit (d : Z) (digits : list Z) : Z :=
  Z.of_nat (length (filter (fun x => x = d) digits)).

(** expected_d = log10(1 + 1/d). *)
Definition benford (d : Z) : F :=
  log10 (fadd (of_int 1) (fdiv (of_int 1) (of_int d))).

(** proportion_d = count_d / total. *)
Definition observed (digits : list Z) (d : Z) : F :=
  fdiv (of_int (count_digit d digits)) (of_int (Z.of_nat (length digits))).

(** (count_d - expected_d * total)^2 / (expected_d * total). *)
Definition chi_term (digits : list Z) (d : Z) : F :=
  let expected_count := fmul (benford d) (of_int (Z.of_nat (length digits))) in
  let deviation := fsub (of_int (count_digit d digits)) expected_count in
  fdiv (fmul deviation deviation) expected_count.

(** |proportion_d - expected_d|. *)
Definition mad_term (digits : list Z) (d : Z) : F :=
  fabs (fsub (observed digits d) (benford d)).

(** The sum over the digits 1..9 of the chi-square terms. *)
Definition chi_square_formula (digits : list Z) : F :=
  fsum (chi_term digits <$> range 1 10).

(** The mean over the digits 1..9 of the absolute deviations. *)
Definition mad_formula (digits : list Z) : F :=
  fdiv (fsum (mad_term digits <$> range 1 10)) (of_int 9).

(** A detail row and the summary as section 4.3 of the specification
    describes them, for a column whose extracted digits are [digits]. *)
Definition detail_of (sheet_name column_name : string) (digits : list Z)
    (d : Z) : detail_row F :=
  let total := Z.of_nat (length digits) in
  {| sheet := sheet_name; column := column_name; digit := d;
     count := count_digit d digits;
     proportion := if 0 <? total then observed digits d else of_int 0;
     expected_proportion := benford d;
     difference := if 0 <? total then fsub (observed digits d) (benford d)
                   else fneg (benford d) |}.

Definition summary_of (sheet_name column_name : string) (digits : list Z)
  : summary F :=
  let total := Z.of_nat (length digits) in
  {| s_sheet := sheet_name; s_column := column_name; total_values := total;
     chi_square :=
       if 0 <? total
       then series_sum ((fun d => (d, chi_term digits d)) <$> range 1 10)
       else of_int 0;
     mad :=
       if 0 <? total
       then series_mean ((fun d => (d, mad_term digits d)) <$> range 1 10)
       else of_int 0 |}.
End Vocabulary.

(** The columns a run analyses, in order: every column of every sheet
    that has numeric columns and rows, tagged with its sheet. *)
Definition analysed_columns (excel : workbook)
  : list (string * string * list pyvalue) :=
  concat ((fun sheet =>
             if frame_empty sheet.2 then []
             else (fun col => (sheet.1, col.1, col.2)) <$> sheet.2) <$> excel).

(** A row of the pooled distribution as section 4.4 of the specification
    describes it, for the pooled digits [pooled]. *)
Definition overall_of `{Arith F} (pooled : list Z) (d : Z)
  : benford_excel_report.overall_row (F := F) :=
  let overall_total :=
    foldr Z.add 0 ((fun d => count_digit d pooled) <$> range 1 10) in
  {| benford_excel_report.o_digit := d;
     benford_excel_report.actual_count := count_digit d pooled;
     benford_excel_report.actual_percent :=
       if 0 <? overall_total
       then fdiv (of_int (count_digit d pooled)) (of_int overall_total)
       else of_int 0;
     benford_excel_report.expected_percent := benford d |}.

(** Ranked by [mad], largest first, missing values last: of two keys in
    this order, the later one is missing, or both are numbers and the
    earlier one is not smaller. *)
Definition by_mad_desc `{Arith F} (x y : F) : Prop :=
  fisnan y = true \/ (fisnan x = false /\ flt x y = false).

(** What NumPy promises of [argsort]: positions [order] that rearrange
    [keys] into ascending order. *)
Definition sorting_order `{Arith F} (keys : list F) (order : list nat) : Prop :=
  order ≡ₚ seq 0 (length keys) /\
  exists sorted_keys,
    take_rows order keys = Ret sorted_keys /\
    StronglySorted (fun x y => flt y x = false) sorted_keys.

(** Ties keep the input order: two ranked rows with the same [mad] stand
    in [top] as they stand in [df]. *)
Definition keeps_input_order `{Arith F} (df top : list (summary F)) : Prop :=
  forall i j r r',
    (i < j)%nat -> top !! i = Some r -> top !! j = Some r' ->
    flt (mad r) (mad r') = false -> flt (mad r') (mad r) = false ->
    exists a b, (a < b)%nat /\ df !! a = Some r /\ df !! b = Some r'.

(** Binary64 for the ranking examples: ranking only compares keys and
    tests them for NaN, so [log10] is left without a value. *)
Definition float_order : Arith float := float_arith (fun _ => nan).

(** The summaries of eighteen columns of one sheet in which no cell has a
    leading digit (blank or zero cells only): every [mad] is 0.0. *)
Definition blank_columns : list string :=
  ["c00"; "c01"; "c02"; "c03"; "c04"; "c05"; "c06"; "c07"; "c08";
   "c09"; "c10"; "c11"; "c12"; "c13"; "c14"; "c15"; "c16"; "c17"].
Definition blank_summaries : list (summary float) :=
  (fun column_name => summary_of (H := float_order) "Sheet1" column_name [])
    <$> blank_columns.

(** Python's [s.count(c)] for a character [c]. *)
Fixpoint str_count (c : ascii) (s : string) : nat :=
  match s with
  | EmptyString => 0
  | String c' s => (if Ascii.eqb c' c then 1 else 0) + str_count c s
  end.

(** Python's [s.split("\n")]. *)
Fixpoint split_lines (s : string) : list string :=
  match s with
  | EmptyString => [EmptyString]
  | String c s =>
      if Ascii.eqb c "010" then EmptyString :: split_lines s
      else match split_lines s with
           | line :: lines => String c line :: lines
           | [] => [String c EmptyString]
           end
  end.

(** The real number a binary64 value stands for: [(-1)^s * m * 2^e] for a
    finite value, and 0 for the zeros (infinities and NaN stand for no
    real number; they are given 0 and told apart by [is_finite]). *)
Definition SF2R (x : spec_float) : R :=
  match x with
  | S754_finite s m e =>
      let magnitude :=
        match e with
        | Z0 => IZR (Zpos m)
        | Zpos p => (IZR (Zpos m) * IZR (Z.pow_pos 2 p))%R
        | Zneg p => (IZR (Zpos m) / IZR (Z.pow_pos 2 p))%R
        end in
      if s then (- magnitude)%R else magnitude
  | _ => 0%R
  end.
Definition float_to_R (x : float) : R := SF2R (Prim2SF x).
Definition is_finite (x : float) : bool :=
  match Prim2SF x with
  | S754_finite _ _ _ | S754_zero _ => true
  | _ => false
  end.

(** [1 + 1 / digit], the argument of [math.log10] in the table. *)
Definition benford_argument `{Arith F} (d : Z) : F :=
  fadd (of_int 1) (fdiv (of_int 1) (of_int d)).

(** What [math.log10] of CPython (the C library's [log10], here glibc's)
    returns on the nine arguments [1 + 1 / d] the table is built from. *)
Definition glibc_log10 (x : float) : float :=
  if (x =? 2)%float then 0x1.34413509f79ffp-2%float
  else if (x =? 1.5)%float then 0x1.68a288b60b7fcp-3%float
  else if (x =? 0x1.5555555555555p+0)%float then 0x1.ffbfc2bbc7801p-4%float
  else if (x =? 1.25)%float then 0x1.8cf183886480dp-4%float
  else if (x =? 0x1.3333333333333p+0)%float then 0x1.44538de3b27ebp-4%float
  else if (x =? 0x1.2aaaaaaaaaaabp+0)%float then 0x1.1236cc009220bp-4%float
  else if (x =? 0x1.2492492492492p+0)%float then 0x1.db11ed766abf1p-5%float
  else if (x =? 1.125)%float then 0x1.a30a9d609efeap-5%float
  else if (x =? 0x1.1c71c71c71c72p+0)%float then 0x1.76d869b02a032p-5%float
  else nan.

(** A lower bound of [exp] on rationals, in fixed point with denominator
    [scale]: [exp (x / scale) >= (1 + x / (scale * 2^k))^(2^k)], the power
    taken by [k] squarings, each rounded down. *)
Fixpoint square_down (k : nat) (scale n : Z) : Z :=
  match k with
  | O => n
  | S k => square_down k scale (n * n / scale)
  end.
Definition exp_lower (k : nat) (scale x : Z) : Z :=
  square_down k scale (scale + x / 2 ^ Z.of_nat k).

(** *** Vocabulary for the sorting argument *)

(** [tosort'] is [tosort] after exchanges of entries at positions between
    [pl] and [pr]. *)
Inductive rearranged (pl pr : Z) : list nat -> list nat -> Prop :=
  | rearranged_refl (tosort : list nat) : rearranged pl pr tosort tosort
  | rearranged_swap (tosort tosort' : list nat) (p q : Z) :
      pl <= p <= pr -> pl <= q <= pr ->
      0 <= p < Z.of_nat (length tosort) -> 0 <= q < Z.of_nat (length tosort) ->
      rearranged pl pr (numpy.swap tosort p q) tosort' ->
      rearranged pl pr tosort tosort'.

(** The positions [pl..pr] of [tosort] are in ascending order of key: no
    later key is less than an earlier one. *)
Definition ordered `{Arith F} (v : list F) (pl pr : Z) (tosort : list nat)
  : Prop :=
  forall p q, pl <= p -> p < q -> q <= pr ->
    numpy.less_idx v (numpy.at_ tosort q) (numpy.at_ tosort p) = false.

(** The heap of [n] entries stored from position [pl] on, node [k] at
    position [pl + k - 1]: every node from [l] on is not less than its
    children. *)
Definition heap_from `{Arith F} (v : list F) (pl l n : Z) (tosort : list nat)
  : Prop :=
  forall k c, l <= k -> 2 * k <= c <= 2 * k + 1 -> c <= n ->
    numpy.less_idx v (numpy.at_ tosort (pl + k - 1))
                     (numpy.at_ tosort (pl + c - 1)) = false.

(** The ranges the driver still has to sort (the current one and those on
    its stack): they lie inside the array, no two overlap, and two
    positions that are not in a common range hold keys in order. *)
Fixpoint disjoint_ranges (pending : list (Z * Z)) : Prop :=
  match pending with
  | [] => True
  | r :: rest =>
      Forall (fun r' => r.2 < r'.1 \/ r'.2 < r.1) rest /\ disjoint_ranges rest
  end.

Definition pending_ranges `{Arith F} (v : list F) (tosort : list nat)
    (pending : list (Z * Z)) : Prop :=
  Forall (fun r => 0 <= r.1 /\ r.1 - 1 <= r.2 /\
                   r.2 < Z.of_nat (length tosort)) pending /\
  disjoint_ranges pending /\
  forall p q, 0 <= p -> p < q -> q < Z.of_nat (length tosort) ->
    numpy.less_idx v (numpy.at_ tosort q) (numpy.at_ tosort p) = false \/
    Exists (fun r => r.1 <= p /\ q <= r.2) pending.

(** Rounds of the driver that sorting the pending ranges takes at most:
    three per position and two per range. *)
Definition rounds_needed (pending : list (Z * Z)) : Z :=
  foldr (fun r rounds => 3 * (r.2 - r.1 + 1) + 2 + rounds) 0 pending.

(** A key under which binary64 values other than NaN compare as integers
    do, lexicographically: the class (negative infinity, negative, zero,
    positive, positive infinity), then exponent and mantissa (negated for
    negative values). *)
Definition order_key (x : spec_float) : Z * Z * Z :=
  match x with
  | S754_zero _ | S754_nan => (0, 0, 0)
  | S754_infinity false => (2, 0, 0)
  | S754_infinity true => (-2, 0, 0)
  | S754_finite false m e => (1, e, Zpos m)
  | S754_finite true m e => (-1, - e, Zneg m)
  end.
Definition key_lt (a b : Z * Z * Z) : Prop :=
  a.1.1 < b.1.1 \/
  (a.1.1 = b.1.1 /\ (a.1.2 < b.1.2 \/ (a.1.2 = b.1.2 /\ a.2 < b.2))).

(** * Properties *)

(** ** The monad of outcomes *)

(** Run the binds whose first computation is already a value. *)
Ltac run_outcome :=
  cbn [mbind mret fmap outcome_bind outcome_ret outcome_fmap fst snd].

Lemma mapM_Ret_length {A B} (f : A -> outcome B) (l : list A) (k : list B) :
  mapM f l = Ret k -> length k = length l.
Proof.
  revert k; induction l as [|x l IH]; intros k; simpl.
  - by intros [= <-].
  - destruct (f x) as [y| |]; simpl; try done.
    destruct (mapM f l) as [k'| |]; simpl; try done.
    intros [= <-]; simpl. by rewrite (IH k').
Qed.

Lemma mapM_Ret_Forall2 {A B} (f : A -> outcome B) (l : list A) (k : list B) :
  mapM f l = Ret k <-> Forall2 (fun x y => f x = Ret y) l k.
Proof.
  revert k; induction l as [|x l IH]; intros k; simpl.
  - split; [intros [= <-]; constructor | by inversion 1].
  - split.
    + destruct (f x) as [y| |] eqn:Hx; simpl; try done.
      destruct (mapM f l) as [k'| |]; simpl; try done.
      intros [= <-]. constructor; [done | by apply IH].
    + inversion 1 as [|? y ? k' Hx Hl]; subst.
      rewrite Hx; simpl. apply IH in Hl. by rewrite Hl.
Qed.

Lemma mapM_Ret_total {A B} (f : A -> outcome B) (g : A -> B) (l : list A) :
  Forall (fun x => f x = Ret (g x)) l -> mapM f l = Ret (g <$> l).
Proof.
  intros Hl. apply mapM_Ret_Forall2.
  induction Hl; simpl; by constructor.
Qed.

(** ** [leading_digit] *)

Section LeadingDigitFacts.
  Variable float_of_str : string -> option float.
  Abbreviation leading_digit := (benford_analysis.leading_digit float_of_str).

Lemma int_of_char_range (c : ascii) (d : Z) :
  int_of_char c = Ret d -> 0 <= d <= 9.
Proof.
  unfold int_of_char.
  destruct (_ && _) eqn:Hc; [|done].
  intros [= <-]. apply andb_prop in Hc as [?%Z.leb_le ?%Z.leb_le]. lia.
Qed.

Lemma leading_digit_range (value : pyvalue) (d : Z) :
  leading_digit value = Ret (Some d) -> 1 <= d <= 9.
Proof.
  unfold benford_analysis.leading_digit.
  destruct (pd_isna value); [done|].
  destruct (py_float float_of_str value) as [number|[]|]; try done.
  destruct (number =? 0)%float; [done|].
  destruct (benford_analysis.scale_up _ _) as [scaled| |]; simpl; try done.
  destruct (str_first _) as [c| |]; simpl; try done.
  destruct (int_of_char c) as [digit| |] eqn:Hc; simpl; try done.
  apply int_of_char_range in Hc.
  destruct (digit =? 0) eqn:Hz; [done|].
  intros [= <-]. apply Z.eqb_neq in Hz. lia.
Qed.
End LeadingDigitFacts.

#[local] Set Warnings "-inexact-float".

(** C8.  [leading_digit] is absent on zero and on the missing markers, is 4
    on -45, 3 on 0.0032 and 7 on 7 (given as an int or as a float alike);
    and a digit it returns always lies in 1..9. *)
Theorem leading_digit_examples_and_range (float_of_str : string -> option float) :
  let leading_digit := benford_analysis.leading_digit float_of_str in
  (leading_digit (PyInt 0) = Ret None /\
   leading_digit (PyFloat 0%float) = Ret None /\
   leading_digit (PyFloat (-0)%float) = Ret None) /\
  (leading_digit PyNone = Ret None /\
   leading_digit (PyFloat nan) = Ret None) /\
  (leading_digit (PyInt (-45)) = Ret (Some 4) /\
   leading_digit (PyFloat (-45)%float) = Ret (Some 4)) /\
  leading_digit (PyFloat 0.0032%float) = Ret (Some 3) /\
  (leading_digit (PyInt 7) = Ret (Some 7) /\
   leading_digit (PyFloat 7%float) = Ret (Some 7)) /\
  (forall value d, leading_digit value = Ret (Some d) -> 1 <= d <= 9 /\ d <> 0).
Proof.
  cbv zeta.
  do 3 (split; [repeat split; vm_compute; reflexivity|]).
  split; [vm_compute; reflexivity|].
  split; [split; vm_compute; reflexivity|].
  intros value d Hd%leading_digit_range. lia.
Qed.

Lemma leading_digit_examples_and_range_witness :
  1 <= 4 <= 9 /\ 4 <> 0.
Proof.
  apply (leading_digit_examples_and_range (fun _ => None)) with (value := PyInt (-45)).
  vm_compute. reflexivity.
Defined.

(** C3 (the code departs from it).  [leading_digit] is not total: on an
    infinite float the loop is skipped, [str] yields "inf" (or "-inf" before
    [abs]), and [int("i")] raises ValueError outside the [try]; an int too
    large for a float raises OverflowError, which the [except] clause does
    not list. *)
Theorem leading_digit_raises (float_of_str : string -> option float) :
  benford_analysis.leading_digit float_of_str (PyFloat infinity) = Raise ValueError /\
  benford_analysis.leading_digit float_of_str (PyFloat neg_infinity) = Raise ValueError /\
  benford_analysis.leading_digit float_of_str (PyInt (10 ^ 400)) = Raise OverflowError.
Proof. repeat split; vm_compute; reflexivity. Qed.

(** ** The pandas fragment *)

Section PandasFacts.
Context {A B C : Type}.

Lemma lookup_label_fmap (f : Z -> A) (l : list Z) (k : Z) :
  k ∈ l -> lookup_label ((fun d => (d, f d)) <$> l) k = Ret (f k).
Proof.
  induction l as [|d l IH]; simpl.
  - by intros ?%elem_of_nil.
  - intros Hk. destruct (decide (d = k)) as [->|Hne]; [done|].
    apply IH. apply elem_of_cons in Hk as [->|]; done.
Qed.

Lemma series_map_fmap (g : A -> B) (f : Z -> A) (l : list Z) :
  series_map g ((fun d => (d, f d)) <$> l) = (fun d => (d, g (f d))) <$> l.
Proof. unfold series_map. by rewrite <- list_fmap_compose. Qed.

Lemma series_binop_fmap (g : A -> B -> C) (f1 : Z -> A) (f2 : Z -> B) (l : list Z) :
  series_binop g ((fun d => (d, f1 d)) <$> l) ((fun d => (d, f2 d)) <$> l)
  = Ret ((fun d => (d, g (f1 d) (f2 d))) <$> l).
Proof.
  unfold series_binop. rewrite decide_True.
  - f_equal. induction l as [|d l IH]; csimpl; [done|]. by rewrite IH.
  - by rewrite <- !list_fmap_compose.
Qed.

Lemma sort_index_range (f : Z -> A) :
  sort_index ((fun d => (d, f d)) <$> range 1 10) = (fun d => (d, f d)) <$> range 1 10.
Proof. reflexivity. Qed.
End PandasFacts.

Lemma count_digit_cons (d x : Z) (digits : list Z) :
  count_digit d (x :: digits)
  = (if decide (x = d) then 1 else 0) + count_digit d digits.
Proof.
  unfold count_digit. rewrite filter_cons.
  destruct (decide (x = d)); simpl; lia.
Qed.

Lemma value_counts_lookup (digits : list Z) (d : Z) :
  default 0 (value_counts digits !! d) = count_digit d digits.
Proof.
  induction digits as [|x digits IH]; [done|].
  rewrite count_digit_cons. simpl.
  destruct (decide (x = d)) as [->|Hne].
  - rewrite lookup_insert_eq. simpl. lia.
  - rewrite lookup_insert_ne by done. by rewrite IH.
Qed.

Lemma counts_series (digits : list Z) :
  sort_index (reindex (range 1 10) 0 (value_counts digits))
  = (fun d => (d, count_digit d digits)) <$> range 1 10.
Proof.
  unfold reindex.
  rewrite (list_fmap_ext _ (fun d => (d, count_digit d digits)) (range 1 10)).
  - apply sort_index_range.
  - intros _ d _. by rewrite value_counts_lookup.
Qed.

Global Instance count_digit_perm (d : Z) : Proper ((≡ₚ) ==> (=)) (count_digit d).
Proof. intros l1 l2 Hl. unfold count_digit. by rewrite Hl. Qed.

Lemma sum_count_digit (digits : list Z) :
  Forall (fun d => 1 <= d <= 9) digits ->
  foldr Z.add 0 ((fun d => count_digit d digits) <$> range 1 10)
  = Z.of_nat (length digits).
Proof.
  induction 1 as [|x digits Hx _ IH]; [done|].
  change (range 1 10) with [1; 2; 3; 4; 5; 6; 7; 8; 9] in *.
  simpl in *. rewrite !count_digit_cons.
  repeat case_decide; lia.
Qed.

(** ** [analyze_numeric_column] *)

Section AnalysisFacts.
Variable float_of_str : string -> option float.
Context `{Arith F}.
Abbreviation leading_digit := (benford_analysis.leading_digit float_of_str).
Abbreviation extract_digits := (benford_analysis.extract_digits float_of_str).
Abbreviation analyze_numeric_column :=
  (benford_analysis.analyze_numeric_column float_of_str).

Lemma expected_lookup (d : Z) :
  d ∈ range 1 10 ->
  lookup_label benford_analysis.expected_benford_distribution d = Ret (benford d).
Proof. apply (lookup_label_fmap benford). Qed.

Lemma detail_rows_unfold (sheet_name column_name : string) (digits : list Z) :
  let total := Z.of_nat (length digits) in
  let counts := (fun d => (d, count_digit d digits)) <$> range 1 10 in
  let proportions :=
    if 0 <? total
    then series_map (fun c => fdiv (of_int c) (of_int total)) counts
    else series_map of_int counts in
  mapM (benford_analysis.detail_row_for sheet_name column_name total counts
          proportions benford_analysis.expected_benford_distribution)
       (range 1 10)
  = Ret (detail_of sheet_name column_name digits <$> range 1 10).
Proof.
  intros total counts proportions. apply mapM_Ret_total, Forall_forall.
  intros d Hd. unfold benford_analysis.detail_row_for, detail_of.
  subst counts proportions. fold total.
  rewrite (lookup_label_fmap (fun d => count_digit d digits)) by done.
  rewrite !expected_lookup by done.
  destruct (0 <? total); run_outcome; [|done].
  rewrite series_map_fmap.
  by rewrite !(lookup_label_fmap
                 (fun d => fdiv (of_int (count_digit d digits)) (of_int total)))
    by done.
Qed.

Lemma expected_counts_unfold (total : Z) :
  mapM (fun digit =>
          e ← lookup_label benford_analysis.expected_benford_distribution digit;
          Ret (digit, fmul e (of_int total))) (range 1 10)
  = Ret ((fun d => (d, fmul (benford d) (of_int total))) <$> range 1 10).
Proof.
  apply (mapM_Ret_total _ (fun d => (d, fmul (benford d) (of_int total)))).
  apply Forall_forall. intros d Hd. by rewrite expected_lookup.
Qed.

(** What [analyze_numeric_column] returns once the digits are extracted. *)
Lemma analyze_numeric_column_unfold (series : list pyvalue)
    (sheet_name column_name : string) (digits : list Z) :
  extract_digits series = Ret digits ->
  analyze_numeric_column series sheet_name column_name
  = Ret (detail_of sheet_name column_name digits <$> range 1 10,
         summary_of sheet_name column_name digits).
Proof.
  intros Hdigits. unfold benford_analysis.analyze_numeric_column.
  rewrite Hdigits. run_outcome. rewrite counts_series.
  rewrite detail_rows_unfold. run_outcome.
  unfold summary_of.
  destruct (0 <? Z.of_nat (length digits)); run_outcome; [|done].
  rewrite expected_counts_unfold. run_outcome.
  rewrite (series_binop_fmap (fun c e => fsub (of_int c) e)). run_outcome.
  rewrite !series_map_fmap.
  rewrite (series_binop_fmap fdiv). run_outcome.
  change benford_analysis.expected_benford_distribution
    with ((fun d => (d, benford d)) <$> range 1 10).
  rewrite (series_binop_fmap fsub _ benford). run_outcome.
  by rewrite series_map_fmap.
Qed.

(** A failure of the extraction is the failure of the whole analysis. *)
Lemma analyze_numeric_column_Ret (series : list pyvalue)
    (sheet_name column_name : string) r :
  analyze_numeric_column series sheet_name column_name = Ret r ->
  exists digits, extract_digits series = Ret digits.
Proof.
  unfold benford_analysis.analyze_numeric_column.
  destruct (extract_digits series) as [digits| |]; [eauto|done..].
Qed.

Lemma extract_digits_range (series : list pyvalue) (digits : list Z) :
  extract_digits series = Ret digits -> Forall (fun d => 1 <= d <= 9) digits.
Proof.
  unfold benford_analysis.extract_digits.
  destruct (mapM _ series) as [results| |] eqn:Hres; simpl; try done.
  intros [= <-]. apply mapM_Ret_Forall2 in Hres.
  induction Hres as [|value r series results Hr _ IH]; simpl; [constructor|].
  destruct r as [d|]; simpl; [|done].
  constructor; [|done]. by apply leading_digit_range in Hr.
Qed.
End AnalysisFacts.

(** ** The two instances of the arithmetic *)

(** In binary64, [0.0 - x] is [-x] for every [x] but positive zero (where
    the two differ in the sign of the zero they return). *)
Lemma float_sub_0_l (x : float) :
  x <> 0%float -> (0 - x)%float = (- x)%float.
Proof.
  intros Hx. apply Prim2SF_inj. rewrite sub_spec, opp_spec.
  change (Prim2SF 0) with (S754_zero false).
  destruct (Prim2SF x) as [s| | |] eqn:Hsf; try reflexivity.
  destruct s; [reflexivity|].
  destruct Hx. apply Prim2SF_inj. by rewrite Hsf.
Qed.

Lemma float_arith_sub_0_l (libm_log10 : float -> float) (x : float) :
  x <> @of_int _ (float_arith libm_log10) 0 ->
  @fsub _ (float_arith libm_log10) (@of_int _ (float_arith libm_log10) 0) x
  = @fneg _ (float_arith libm_log10) x.
Proof. apply float_sub_0_l. Qed.

Lemma real_arith_sub_0_l (x : R) :
  @fsub _ real_arith (@of_int _ real_arith 0) x = @fneg _ real_arith x.
Proof. simpl. lra. Qed.

Lemma ln_10_pos : (0 < ln 10)%R.
Proof. rewrite <- ln_1. apply ln_increasing; lra. Qed.

Lemma real_log10_pos (x : R) : (1 < x)%R -> (0 < real_log10 x)%R.
Proof.
  intros Hx. unfold real_log10. apply Rdiv_lt_0_compat; [|apply ln_10_pos].
  rewrite <- ln_1. apply ln_increasing; lra.
Qed.

Lemma real_benford_pos (d : Z) : 1 <= d -> (0 < @benford _ real_arith d)%R.
Proof.
  intros Hd. unfold benford. simpl. apply real_log10_pos.
  assert (1 <= IZR d)%R by (by apply IZR_le).
  assert (0 < 1 / IZR d)%R by (apply Rdiv_lt_0_compat; lra).
  lra.
Qed.

Lemma real_log10_step (d : R) :
  (0 < d)%R -> real_log10 (1 + 1 / d) = ((ln (d + 1) - ln d) / ln 10)%R.
Proof.
  intros Hd. unfold real_log10. f_equal.
  replace (1 + 1 / d)%R with ((d + 1) * / d)%R by (field; lra).
  rewrite ln_mult, ln_Rinv; try lra. by apply Rinv_0_lt_compat.
Qed.

(** The nine Benford probabilities add up to one: the sum telescopes to
    [log10 10 - log10 1]. *)
Lemma real_benford_sum :
  foldr Rplus 0%R (@benford _ real_arith <$> range 1 10) = 1%R.
Proof.
  change (range 1 10) with [1; 2; 3; 4; 5; 6; 7; 8; 9].
  unfold benford. simpl. rewrite !real_log10_step by lra.
  replace (1 + 1)%R with 2%R by lra. replace (2 + 1)%R with 3%R by lra.
  replace (3 + 1)%R with 4%R by lra. replace (4 + 1)%R with 5%R by lra.
  replace (5 + 1)%R with 6%R by lra. replace (6 + 1)%R with 7%R by lra.
  replace (7 + 1)%R with 8%R by lra. replace (8 + 1)%R with 9%R by lra.
  replace (9 + 1)%R with 10%R by lra.
  rewrite ln_1. pose proof ln_10_pos. field. lra.
Qed.

Lemma elem_of_range (a b d : Z) : d ∈ range a b <-> a <= d < b.
Proof. unfold range. rewrite elem_of_seqZ. lia. Qed.

(** ** The claims about [analyze_numeric_column] *)

Section AnalysisTheorems.
Variable float_of_str : string -> option float.
Context `{Arith F}.
Abbreviation leading_digit := (benford_analysis.leading_digit float_of_str).
Abbreviation extract_digits := (benford_analysis.extract_digits float_of_str).
Abbreviation analyze_numeric_column :=
  (benford_analysis.analyze_numeric_column float_of_str).

Lemma extract_digits_results (series : list pyvalue) (results : list (option Z)) :
  mapM leading_digit series = Ret results ->
  extract_digits series = Ret (omap (fun digit => digit) results).
Proof. unfold benford_analysis.extract_digits. by intros ->. Qed.

Lemma extract_digits_absent (series : list pyvalue) :
  Forall (fun value => leading_digit value = Ret None) series ->
  extract_digits series = Ret [].
Proof.
  intros Hall. rewrite (extract_digits_results _ ((fun _ => None) <$> series)).
  - f_equal. clear Hall. induction series as [|value series IH]; [done|].
    csimpl. by rewrite IH.
  - by apply mapM_Ret_total.
Qed.

Lemma extract_digits_perm (series series' : list pyvalue) (digits : list Z) :
  series ≡ₚ series' ->
  extract_digits series = Ret digits ->
  exists digits', extract_digits series' = Ret digits' /\ digits ≡ₚ digits'.
Proof.
  intros Hperm. unfold benford_analysis.extract_digits.
  destruct (mapM _ series) as [results| |] eqn:Hres; [|done..].
  intros [= <-]. apply mapM_Ret_Forall2 in Hres.
  destruct (Permutation_Forall2 Hperm Hres) as (results' & Hperm' & Hres').
  apply mapM_Ret_Forall2 in Hres'. rewrite Hres'.
  eexists; split; [done|]. by rewrite Hperm'.
Qed.

Lemma length_omap_is_Some (results : list (option Z)) :
  length (omap (fun digit => digit) results)
  = length (filter (fun r => is_Some r) results).
Proof.
  induction results as [|[d|] results IH]; [done|..].
  - rewrite filter_cons_True by eauto. csimpl. by rewrite IH.
  - rewrite filter_cons_False by (by intros []). by csimpl.
Qed.

Lemma series_sum_no_nan (f : Z -> F) (l : list Z) :
  Forall (fun x => fisnan x = false) (f <$> l) ->
  series_sum ((fun d => (d, f d)) <$> l) = fsum (f <$> l).
Proof.
  intros Hnan. unfold series_sum. rewrite <- list_fmap_compose.
  change (snd ∘ _) with f. f_equal.
  induction Hnan as [|x xs Hx _ IH]; [done|].
  rewrite filter_cons_True; [by rewrite IH|].
  unfold notnan. by rewrite Hx.
Qed.

Lemma series_mean_no_nan (f : Z -> F) (l : list Z) :
  Forall (fun x => fisnan x = false) (f <$> l) ->
  series_mean ((fun d => (d, f d)) <$> l)
  = fdiv (fsum (f <$> l)) (of_int (Z.of_nat (length l))).
Proof.
  intros Hnan. unfold series_mean. rewrite <- list_fmap_compose.
  change (snd ∘ _) with f.
  assert (filter (fun x => notnan x = true) (f <$> l) = f <$> l) as ->.
  { induction Hnan as [|x xs Hx _ IH]; [done|].
    rewrite filter_cons_True; [by rewrite IH|].
    unfold notnan. by rewrite Hx. }
  by rewrite length_fmap.
Qed.

(** C1.  A column none of whose values has a leading digit is analysed
    without error: the summary has total 0, chi-square 0.0 and MAD 0.0, and
    each of the nine detail rows has proportion 0.0 and difference
    [0.0 - expected] for its digit.  The code writes the difference as
    [-expected]; that is [0.0 - expected] in real arithmetic and, in
    binary64, for every expected value other than zero, which the two
    hypotheses on the arithmetic record. *)
Theorem zero_total_column (series : list pyvalue) (sheet_name column_name : string) :
  (forall x : F, x <> of_int 0 -> fsub (of_int 0) x = fneg x) ->
  (forall d, 1 <= d <= 9 -> benford d <> of_int 0) ->
  Forall (fun value => leading_digit value = Ret None) series ->
  exists rows s,
    analyze_numeric_column series sheet_name column_name = Ret (rows, s) /\
    total_values s = 0 /\ chi_square s = of_int 0 /\ mad s = of_int 0 /\
    digit <$> rows = [1; 2; 3; 4; 5; 6; 7; 8; 9] /\
    Forall (fun r => expected_proportion r = benford (digit r) /\
                     proportion r = of_int 0 /\
                     difference r = fsub (of_int 0) (expected_proportion r))
           rows.
Proof.
  intros Hsub Hexp Habsent.
  eexists _, _. split.
  { apply analyze_numeric_column_unfold. by apply extract_digits_absent. }
  do 4 (split; [done|]).
  apply Forall_fmap, Forall_forall. intros d Hd%elem_of_range. cbn.
  split; [done|]. split; [done|].
  symmetry. apply Hsub, Hexp. lia.
Qed.

(** C4.  For a column with at least one extracted digit, chi-square is the
    sum over the digits 1..9 of (count - expected * total)^2 /
    (expected * total), and MAD is the mean over the nine digits of
    |proportion - expected|, with proportion = count / total and
    expected = log10(1 + 1/d).  pandas leaves NaN entries out of a sum and
    of a mean, so the formulas are those of the code when no term is NaN
    (none is when [log10] returns positive finite values). *)
Theorem chi_square_and_mad_formulas (series : list pyvalue)
    (sheet_name column_name : string) (digits : list Z) :
  extract_digits series = Ret digits ->
  digits <> [] ->
  Forall (fun x => fisnan x = false) (chi_term digits <$> range 1 10) ->
  Forall (fun x => fisnan x = false) (mad_term digits <$> range 1 10) ->
  exists rows s,
    analyze_numeric_column series sheet_name column_name = Ret (rows, s) /\
    total_values s = Z.of_nat (length digits) /\ 0 < total_values s /\
    chi_square s = chi_square_formula digits /\
    mad s = mad_formula digits /\
    Forall (fun r => count r = count_digit (digit r) digits /\
                     proportion r = observed digits (digit r) /\
                     expected_proportion r = benford (digit r))
           rows.
Proof.
  intros Hdigits Hne Hchi Hmad.
  assert (0 < Z.of_nat (length digits)) as Htotal.
  { destruct digits; [done|]. simpl. lia. }
  eexists _, _. split; [by apply analyze_numeric_column_unfold|].
  apply Z.ltb_lt in Htotal as Hb. cbn. rewrite Hb.
  split; [done|]. split; [done|].
  split; [by apply series_sum_no_nan|].
  split; [by rewrite series_mean_no_nan|].
  apply Forall_fmap, Forall_forall. intros d _. cbn. by rewrite Hb.
Qed.

(** C5.  Whenever the digits of a column can be extracted, the analysis
    returns exactly nine detail rows, for the digits 1, ..., 9 in this
    order, each carrying the number of extracted digits equal to its
    digit; the nine counts add up to [total_values], the number of values
    whose extraction is not absent. *)
Theorem nine_rows_counts_total (series : list pyvalue)
    (sheet_name column_name : string) (results : list (option Z)) :
  mapM leading_digit series = Ret results ->
  exists rows s,
    analyze_numeric_column series sheet_name column_name = Ret (rows, s) /\
    length rows = 9%nat /\
    digit <$> rows = [1; 2; 3; 4; 5; 6; 7; 8; 9] /\
    Forall (fun r => sheet r = sheet_name /\ column r = column_name /\
              count r = Z.of_nat (length (filter (fun x => x = Some (digit r)) results)))
           rows /\
    foldr Z.add 0 (count <$> rows) = total_values s /\
    total_values s = Z.of_nat (length (filter (fun r => is_Some r) results)).
Proof.
  intros Hres. pose proof (extract_digits_results _ _ Hres) as Hdigits.
  eexists _, _. split; [by apply analyze_numeric_column_unfold|].
  split; [by rewrite length_fmap|].
  split; [by rewrite <- list_fmap_compose|].
  split; [|split].
  - apply Forall_fmap, Forall_forall. intros d _. cbn.
    split; [done|]. split; [done|].
    unfold count_digit. f_equal. clear.
    induction results as [|[x|] results IH]; [done|..]; csimpl.
    + destruct (decide (x = d)) as [->|Hne].
      * rewrite !filter_cons_True by done. simpl. by rewrite IH.
      * rewrite !filter_cons_False by congruence. done.
    + by rewrite filter_cons_False by done.
  - rewrite <- list_fmap_compose. cbn.
    apply (sum_count_digit _ (extract_digits_range _ _ _ Hdigits)).
  - cbn. by rewrite length_omap_is_Some.
Qed.

Lemma detail_of_perm (sheet_name column_name : string) (digits digits' : list Z) (d : Z) :
  digits ≡ₚ digits' ->
  detail_of sheet_name column_name digits d = detail_of sheet_name column_name digits' d.
Proof.
  intros Hd. unfold detail_of, observed.
  by rewrite (Permutation_length Hd), (count_digit_perm d _ _ Hd).
Qed.

Lemma summary_of_perm (sheet_name column_name : string) (digits digits' : list Z) :
  digits ≡ₚ digits' ->
  summary_of sheet_name column_name digits = summary_of sheet_name column_name digits'.
Proof.
  intros Hd. unfold summary_of. rewrite (Permutation_length Hd).
  assert ((fun d => (d, chi_term digits d)) <$> range 1 10
          = (fun d => (d, chi_term digits' d)) <$> range 1 10) as ->.
  { apply list_fmap_ext. intros _ d _. unfold chi_term.
    by rewrite (Permutation_length Hd), (count_digit_perm d _ _ Hd). }
  assert ((fun d => (d, mad_term digits d)) <$> range 1 10
          = (fun d => (d, mad_term digits' d)) <$> range 1 10) as ->.
  { apply list_fmap_ext. intros _ d _. unfold mad_term, observed.
    by rewrite (Permutation_length Hd), (count_digit_perm d _ _ Hd). }
  done.
Qed.

(** C9.  The analysis does not depend on the order of the values: what it
    returns for a column it returns for every rearrangement of the
    column.  (When a value makes [leading_digit] raise, every arrangement
    raises, though not necessarily the same exception.) *)
Theorem analysis_order_independent (series series' : list pyvalue)
    (sheet_name column_name : string) (r : list (detail_row F) * summary F) :
  series ≡ₚ series' ->
  analyze_numeric_column series sheet_name column_name = Ret r ->
  analyze_numeric_column series' sheet_name column_name = Ret r.
Proof.
  intros Hperm Hret.
  destruct (analyze_numeric_column_Ret _ _ _ _ _ Hret) as [digits Hdigits].
  destruct (extract_digits_perm _ _ _ Hperm Hdigits) as (digits' & Hdigits' & Hd).
  rewrite (analyze_numeric_column_unfold _ _ _ _ _ Hdigits) in Hret.
  rewrite (analyze_numeric_column_unfold _ _ _ _ _ Hdigits').
  rewrite <- Hret. f_equal. f_equal.
  - apply list_fmap_ext. intros _ d _. symmetry. by apply detail_of_perm.
  - symmetry. by apply summary_of_perm.
Qed.
End AnalysisTheorems.

Lemma zero_total_column_witness :
  let series := [PyNone; PyInt 0; PyFloat nan; PyStr "n/a"; PyObject] in
  Forall (fun value => benford_analysis.leading_digit (fun _ => None) value = Ret None)
         series /\
  exists rows s,
    benford_analysis.analyze_numeric_column (H := real_arith) (fun _ => None)
      series "Sheet1" "amount" = Ret (rows, s) /\
    total_values s = 0 /\ chi_square s = 0%R /\ mad s = 0%R /\
    digit <$> rows = [1; 2; 3; 4; 5; 6; 7; 8; 9] /\
    Forall (fun r => expected_proportion r = benford (H := real_arith) (digit r) /\
                     proportion r = 0%R /\
                     difference r = (0 - expected_proportion r)%R)
           rows.
Proof.
  assert (Forall (fun value =>
            benford_analysis.leading_digit (fun _ => None) value = Ret None)
            [PyNone; PyInt 0; PyFloat nan; PyStr "n/a"; PyObject]) as Habsent.
  { repeat constructor. }
  split; [exact Habsent|].
  apply (zero_total_column (H := real_arith) (fun _ => None)).
  - intros x _. apply real_arith_sub_0_l.
  - intros d Hd. apply Rgt_not_eq, Rlt_gt, real_benford_pos. lia.
  - exact Habsent.
Defined.

Lemma chi_square_and_mad_formulas_witness :
  let series := [PyInt 1; PyInt 1; PyInt 1; PyInt 2; PyInt 2; PyInt 3] in
  let digits := [1; 1; 1; 2; 2; 3] in
  benford_analysis.extract_digits (fun _ => None) series = Ret digits /\
  exists rows s,
    benford_analysis.analyze_numeric_column (H := real_arith) (fun _ => None)
      series "S1" "C1" = Ret (rows, s) /\
    total_values s = 6 /\ 0 < total_values s /\
    chi_square s = chi_square_formula (H := real_arith) digits /\
    mad s = mad_formula (H := real_arith) digits /\
    Forall (fun r => count r = count_digit (digit r) digits /\
                     proportion r = observed (H := real_arith) digits (digit r) /\
                     expected_proportion r = benford (H := real_arith) (digit r))
           rows.
Proof.
  assert (benford_analysis.extract_digits (fun _ => None)
            [PyInt 1; PyInt 1; PyInt 1; PyInt 2; PyInt 2; PyInt 3]
          = Ret [1; 1; 1; 2; 2; 3]) as Hdigits by (vm_compute; reflexivity).
  split; [exact Hdigits|].
  apply (chi_square_and_mad_formulas (H := real_arith) (fun _ => None)
           _ "S1" "C1" [1; 1; 1; 2; 2; 3]).
  - exact Hdigits.
  - discriminate.
  - apply Forall_forall. reflexivity.
  - apply Forall_forall. reflexivity.
Defined.

Lemma nine_rows_counts_total_witness :
  let series := [PyFloat 0.25; PyNone; PyInt 30; PyInt 0; PyInt (-2)] in
  let results := [Some 2; None; Some 3; None; Some 2] in
  mapM (benford_analysis.leading_digit (fun _ => None)) series = Ret results /\
  exists rows s,
    benford_analysis.analyze_numeric_column (H := real_arith) (fun _ => None)
      series "S1" "C1" = Ret (rows, s) /\
    length rows = 9%nat /\
    digit <$> rows = [1; 2; 3; 4; 5; 6; 7; 8; 9] /\
    Forall (fun r => sheet r = "S1" /\ column r = "C1" /\
              count r = Z.of_nat (length (filter (fun x => x = Some (digit r)) results)))
           rows /\
    foldr Z.add 0 (count <$> rows) = total_values s /\
    total_values s = Z.of_nat (length (filter (fun r => is_Some r) results)).
Proof.
  assert (mapM (benford_analysis.leading_digit (fun _ => None))
            [PyFloat 0.25; PyNone; PyInt 30; PyInt 0; PyInt (-2)]
          = Ret [Some 2; None; Some 3; None; Some 2]) as Hres
    by (vm_compute; reflexivity).
  split; [exact Hres|].
  apply (nine_rows_counts_total (H := real_arith) (fun _ => None)), Hres.
Defined.

Lemma analysis_order_independent_witness :
  let series := [PyInt 30; PyNone; PyFloat 0.25] in
  let series' := [PyFloat 0.25; PyInt 30; PyNone] in
  let r : list (detail_row R) * summary R :=
    (detail_of (H := real_arith) "S1" "C1" [3; 2] <$> range 1 10,
     summary_of (H := real_arith) "S1" "C1" [3; 2]) in
  series ≡ₚ series' /\
  benford_analysis.analyze_numeric_column (H := real_arith) (fun _ => None)
    series "S1" "C1" = Ret r /\
  benford_analysis.analyze_numeric_column (H := real_arith) (fun _ => None)
    series' "S1" "C1" = Ret r.
Proof.
  assert ([PyInt 30; PyNone; PyFloat 0.25] ≡ₚ [PyFloat 0.25; PyInt 30; PyNone])
    as Hperm.
  { apply (Permutation_app_comm [PyInt 30; PyNone] [PyFloat 0.25]). }
  assert (benford_analysis.analyze_numeric_column (H := real_arith) (fun _ => None)
            [PyInt 30; PyNone; PyFloat 0.25] "S1" "C1"
          = Ret (detail_of (H := real_arith) "S1" "C1" [3; 2] <$> range 1 10,
                 summary_of (H := real_arith) "S1" "C1" [3; 2])) as Hret.
  { apply analyze_numeric_column_unfold. vm_compute. reflexivity. }
  split; [exact Hperm|]. split; [exact Hret|].
  exact (analysis_order_independent (H := real_arith) (fun _ => None)
           _ _ _ _ _ Hperm Hret).
Defined.

(** ** The two copies of the analysis core *)

(** C10.  The analysis core of [benford_excel_report.py] is that of
    [benford_analysis.py]: the two copies of [leading_digit], of
    [expected_benford_distribution] and of [analyze_numeric_column] return
    the same result on every input, under every arithmetic. *)
Theorem emitters_share_the_analysis_core
    (float_of_str : string -> option float) `{Arith F} :
  (forall value,
     benford_excel_report.leading_digit float_of_str value
     = benford_analysis.leading_digit float_of_str value) /\
  benford_excel_report.expected_benford_distribution
  = benford_analysis.expected_benford_distribution /\
  (forall series sheet_name column_name,
     benford_excel_report.analyze_numeric_column float_of_str series
       sheet_name column_name
     = benford_analysis.analyze_numeric_column float_of_str series
         sheet_name column_name).
Proof.
  (* The two files define the three functions by the same text: each pair
     of constants unfolds to the same term. *)
  split; [|split].
  - intros value.
    unfold benford_excel_report.leading_digit, benford_analysis.leading_digit.
    reflexivity.
  - unfold benford_excel_report.expected_benford_distribution,
      benford_analysis.expected_benford_distribution.
    reflexivity.
  - intros series sheet_name column_name.
    unfold benford_excel_report.analyze_numeric_column,
      benford_analysis.analyze_numeric_column.
    reflexivity.
Qed.

(** ** [expected_benford_distribution] *)

(** Sums of two lists that agree entry by entry up to [delta] differ by at
    most [delta] per entry. *)
Lemma sum_close (delta : R) (es ts : list R) :
  Forall2 (fun e t => (Rabs (e - t) <= delta)%R) es ts ->
  (Rabs (foldr Rplus 0 es - foldr Rplus 0 ts) <= INR (length es) * delta)%R.
Proof.
  induction 1 as [|e t es ts He _ IH].
  - simpl. rewrite Rminus_diag, Rabs_R0. lra.
  - cbn [foldr length]. rewrite S_INR.
    replace (e + foldr Rplus 0 es - (t + foldr Rplus 0 ts))%R
      with ((e - t) + (foldr Rplus 0 es - foldr Rplus 0 ts))%R by lra.
    eapply Rle_trans; [apply Rabs_triang|]. lra.
Qed.

(** ** Binary64 values as real numbers, and bounds on logarithms *)

Lemma square_down_sound (k : nat) (scale n : Z) (y : R) :
  0 < scale -> 0 <= n ->
  (IZR n / IZR scale <= exp y)%R ->
  (IZR (square_down k scale n) / IZR scale <= exp (2 ^ k * y))%R.
Proof.
  intros Hscale. revert n y.
  induction k as [|k IH]; intros n y Hn Hle.
  - simpl. by rewrite Rmult_1_l.
  - cbn [square_down].
    replace (2 ^ S k * y)%R with (2 ^ k * (2 * y))%R by (simpl; lra).
    assert (0 < IZR scale)%R as Hs by (by apply IZR_lt).
    apply IH.
    + apply Z.div_pos; [nia|done].
    + replace (2 * y)%R with (y + y)%R by lra. rewrite exp_plus.
      assert (0 <= IZR n / IZR scale)%R as Hq.
      { apply Rmult_le_pos; [by apply IZR_le|]. left. by apply Rinv_0_lt_compat. }
      apply Rle_trans with (IZR n / IZR scale * (IZR n / IZR scale))%R.
      * pose proof (Z.mul_div_le (n * n) scale Hscale) as Hdiv.
        apply IZR_le in Hdiv. rewrite !mult_IZR in Hdiv.
        apply (Rmult_le_reg_r (IZR scale * IZR scale)); [nra|].
        replace (IZR (n * n / scale) / IZR scale * (IZR scale * IZR scale))%R
          with (IZR scale * IZR (n * n / scale))%R by (field; lra).
        replace (IZR n / IZR scale * (IZR n / IZR scale) * (IZR scale * IZR scale))%R
          with (IZR n * IZR n)%R by (field; lra).
        exact Hdiv.
      * apply Rmult_le_compat; done.
Qed.

Lemma exp_lower_sound (k : nat) (scale x : Z) :
  0 < scale -> 0 <= scale + x / 2 ^ Z.of_nat k ->
  (IZR (exp_lower k scale x) / IZR scale <= exp (IZR x / IZR scale))%R.
Proof.
  intros Hscale Hpos. unfold exp_lower.
  assert (0 < IZR scale)%R as Hs by (by apply IZR_lt).
  assert (0 < 2 ^ Z.of_nat k) as Hpow by (apply Z.pow_pos_nonneg; lia).
  assert (IZR (2 ^ Z.of_nat k) = 2 ^ k)%R as Hpow_R.
  { rewrite <- pow_IZR. done. }
  assert (0 < 2 ^ k)%R as Hk by (apply pow_lt; lra).
  replace (IZR x / IZR scale)%R
    with (2 ^ k * (IZR x / IZR scale / 2 ^ k))%R by (field; lra).
  apply square_down_sound; [done..|].
  eapply Rle_trans; [|apply exp_ineq1_le].
  rewrite plus_IZR.
  replace ((IZR scale + IZR (x / 2 ^ Z.of_nat k)) / IZR scale)%R
    with (1 + IZR (x / 2 ^ Z.of_nat k) / IZR scale)%R by (field; lra).
  apply Rplus_le_compat_l.
  pose proof (Z.mul_div_le x _ Hpow) as Hdiv.
  apply IZR_le in Hdiv. rewrite mult_IZR, Hpow_R in Hdiv.
  apply (Rmult_le_reg_r (IZR scale * 2 ^ k)); [nra|].
  replace (IZR (x / 2 ^ Z.of_nat k) / IZR scale * (IZR scale * 2 ^ k))%R
    with (2 ^ k * IZR (x / 2 ^ Z.of_nat k))%R by (field; lra).
  replace (IZR x / IZR scale / 2 ^ k * (IZR scale * 2 ^ k))%R
    with (IZR x) by (field; lra).
  exact Hdiv.
Qed.

Lemma ln_le_mono (x y : R) : (0 < x)%R -> (x <= y)%R -> (ln x <= ln y)%R.
Proof.
  intros Hx [Hlt| ->]; [|lra]. left. by apply ln_increasing.
Qed.

(** Bounds on the logarithm of a rational [p / q], checked by computing
    [exp_lower]. *)
Lemma ln_upper_bound (k : nat) (scale b p q : Z) :
  0 < scale -> 0 < p -> 0 < q ->
  0 <= scale + b / 2 ^ Z.of_nat k ->
  p * scale <= q * exp_lower k scale b ->
  (ln (IZR p / IZR q) <= IZR b / IZR scale)%R.
Proof.
  intros Hscale Hp Hq Hpos Hcheck.
  assert (0 < IZR scale)%R as Hs by (by apply IZR_lt).
  assert (0 < IZR p)%R as Hp' by (by apply IZR_lt).
  assert (0 < IZR q)%R as Hq' by (by apply IZR_lt).
  rewrite <- (ln_exp (IZR b / IZR scale)).
  assert (0 < IZR p / IZR q)%R as Hy by (by apply Rdiv_lt_0_compat).
  apply ln_le_mono; [done|].
  eapply Rle_trans; [|by apply exp_lower_sound].
  apply IZR_le in Hcheck. rewrite !mult_IZR in Hcheck.
  apply (Rmult_le_reg_r (IZR q * IZR scale)); [nra|].
  replace (IZR p / IZR q * (IZR q * IZR scale))%R
    with (IZR p * IZR scale)%R by (field; lra).
  replace (IZR (exp_lower k scale b) / IZR scale * (IZR q * IZR scale))%R
    with (IZR q * IZR (exp_lower k scale b))%R by (field; lra).
  exact Hcheck.
Qed.

Lemma ln_lower_bound (k : nat) (scale a p q : Z) :
  0 < scale -> 0 < p -> 0 < q ->
  0 <= scale + (- a) / 2 ^ Z.of_nat k ->
  q * scale <= p * exp_lower k scale (- a) ->
  (IZR a / IZR scale <= ln (IZR p / IZR q))%R.
Proof.
  intros Hscale Hp Hq Hpos Hcheck.
  pose proof (ln_upper_bound k scale (- a) q p Hscale Hq Hp Hpos Hcheck) as Hup.
  assert (0 < IZR scale)%R as Hs by (by apply IZR_lt).
  assert (0 < IZR p)%R as Hp' by (by apply IZR_lt).
  assert (0 < IZR q)%R as Hq' by (by apply IZR_lt).
  replace (IZR q / IZR p)%R with (/ (IZR p / IZR q))%R in Hup by (field; lra).
  rewrite ln_Rinv in Hup by (by apply Rdiv_lt_0_compat).
  rewrite opp_IZR in Hup.
  replace (- IZR a / IZR scale)%R with (- (IZR a / IZR scale))%R in Hup
    by (field; lra).
  lra.
Qed.

Lemma ln_10_enclosure :
  (IZR 3060660568283490553888738818885635112 / IZR (2 ^ 120) <= ln 10
   <= IZR 3060660568285908405527968077235047465 / IZR (2 ^ 120))%R.
Proof.
  replace 10%R with (IZR 10 / IZR 1)%R by lra. split.
  - apply (ln_lower_bound 50); [done..| |];
      apply Z.leb_le; vm_compute; reflexivity.
  - apply (ln_upper_bound 50); [done..| |];
      apply Z.leb_le; vm_compute; reflexivity.
Qed.

Lemma ln_10_ge_1 : (1 <= ln 10)%R.
Proof.
  rewrite <- (ln_exp 1). apply ln_le_mono; [apply exp_pos|].
  pose proof exp_le_3. lra.
Qed.

(** [log10] moves by no more than its argument does, at arguments from 1
    on. *)
Lemma real_log10_lipschitz (a b : R) :
  (1 <= a)%R -> (1 <= b)%R ->
  (Rabs (real_log10 a - real_log10 b) <= Rabs (a - b))%R.
Proof.
  assert (forall x y : R, (1 <= y <= x)%R -> (0 <= ln x - ln y <= x - y)%R) as Hstep.
  { intros x y [Hy Hxy]. split.
    - pose proof (ln_le_mono y x). lra.
    - replace x with (y * (1 + (x - y) / y))%R at 1 by (field; lra).
      assert (0 <= (x - y) / y)%R as Hq
        by (apply Rmult_le_pos; [lra|left; apply Rinv_0_lt_compat; lra]).
      rewrite ln_mult by lra.
      assert (ln (1 + (x - y) / y) <= (x - y) / y)%R as Hln.
      { rewrite <- (ln_exp ((x - y) / y)) at 2.
        apply ln_le_mono; [lra|apply exp_ineq1_le]. }
      assert ((x - y) / y <= x - y)%R.
      { apply (Rmult_le_reg_r y); [lra|].
        replace ((x - y) / y * y)%R with (x - y)%R by (field; lra). nra. }
      lra. }
  intros Ha Hb. pose proof ln_10_ge_1 as H10. unfold real_log10.
  replace (ln a / ln 10 - ln b / ln 10)%R with ((ln a - ln b) / ln 10)%R
    by (field; lra).
  assert (forall t u : R, (0 <= t <= u)%R -> (0 <= t / ln 10 <= u)%R) as Hdiv.
  { intros t u [Ht Htu].
    assert (0 < / ln 10 <= 1)%R as [Hi1 Hi2].
    { split; [apply Rinv_0_lt_compat; lra|].
      rewrite <- Rinv_1. apply Rinv_le_contravar; lra. }
    unfold Rdiv. split; nra. }
  destruct (Rle_dec b a) as [Hle|Hnle].
  - specialize (Hstep a b ltac:(lra)). specialize (Hdiv _ _ Hstep).
    rewrite !Rabs_pos_eq; lra.
  - specialize (Hstep b a ltac:(lra)). specialize (Hdiv _ _ Hstep).
    rewrite <- (Rabs_Ropp ((ln a - ln b) / ln 10)), <- (Rabs_Ropp (a - b)).
    replace (- ((ln a - ln b) / ln 10))%R with ((ln b - ln a) / ln 10)%R
      by (field; lra).
    rewrite !Rabs_pos_eq; lra.
Qed.

Lemma float_to_R_finite (x : float) (m e : positive) :
  Prim2SF x = S754_finite false m (Zneg e) ->
  float_to_R x = (IZR (Zpos m) / IZR (Z.pow_pos 2 e))%R.
Proof. unfold float_to_R. by intros ->. Qed.

(** A binary64 value [vn / vd] is within 1e-10 of [log10 (p / q)] when the
    logarithm of [p / q] is enclosed closely enough. *)
Lemma log10_value_accurate (p q vn vd a b : Z) :
  0 < p -> 0 < q -> 0 <= vn -> 0 < vd -> 0 <= a ->
  (IZR a / IZR (2 ^ 120) <= ln (IZR p / IZR q) <= IZR b / IZR (2 ^ 120))%R ->
  (vn * 10 ^ 10 - vd) * 3060660568285908405527968077235047465
    <= a * (vd * 10 ^ 10) ->
  b * (vd * 10 ^ 10)
    <= (vn * 10 ^ 10 + vd) * 3060660568283490553888738818885635112 ->
  (Rabs (IZR vn / IZR vd - real_log10 (IZR p / IZR q)) <= 1 / 10 ^ 10)%R.
Proof.
  intros Hp Hq Hvn Hvd Ha [Hlo Hhi] Hcheck_lo Hcheck_hi.
  pose proof ln_10_enclosure as [H10lo H10hi].
  pose proof ln_10_ge_1 as H10.
  set (scale := IZR (2 ^ 120)) in *.
  assert (0 < scale)%R as Hs by (apply IZR_lt; done).
  set (L := ln 10) in *. set (X := ln (IZR p / IZR q)) in *.
  set (A10 := IZR 3060660568283490553888738818885635112) in *.
  set (B10 := IZR 3060660568285908405527968077235047465) in *.
  apply IZR_le in Hcheck_lo, Hcheck_hi, Hvn, Ha. apply IZR_lt in Hvd.
  rewrite !mult_IZR, minus_IZR, !mult_IZR in Hcheck_lo.
  rewrite !mult_IZR, plus_IZR, !mult_IZR in Hcheck_hi.
  replace (IZR (10 ^ 10)) with (10 ^ 10)%R in Hcheck_lo, Hcheck_hi
    by exact (pow_IZR 10 10).
  fold A10 in Hcheck_hi. fold B10 in Hcheck_lo.
  set (V := (IZR vn / IZR vd)%R).
  set (delta := (1 / 10 ^ 10)%R).
  assert (0 < delta)%R as Hdelta by (unfold delta; lra).
  assert (0 <= V)%R as HV.
  { unfold V. apply Rmult_le_pos; [done|]. left. by apply Rinv_0_lt_compat. }
  assert ((V - delta) * B10 <= IZR a)%R as Hlo'.
  { apply (Rmult_le_reg_r (IZR vd * 10 ^ 10)); [nra|].
    replace ((V - delta) * B10 * (IZR vd * 10 ^ 10))%R
      with ((IZR vn * 10 ^ 10 - IZR vd) * B10)%R
      by (unfold V, delta; field; lra).
    exact Hcheck_lo. }
  assert (IZR b <= (V + delta) * A10)%R as Hhi'.
  { apply (Rmult_le_reg_r (IZR vd * 10 ^ 10)); [nra|].
    replace ((V + delta) * A10 * (IZR vd * 10 ^ 10))%R
      with ((IZR vn * 10 ^ 10 + IZR vd) * A10)%R
      by (unfold V, delta; field; lra).
    exact Hcheck_hi. }
  assert (A10 <= L * scale)%R as HA.
  { apply (Rmult_le_compat_r scale) in H10lo; [|lra].
    replace (A10 / scale * scale)%R with A10 in H10lo by (field; lra). done. }
  assert (L * scale <= B10)%R as HB.
  { apply (Rmult_le_compat_r scale) in H10hi; [|lra].
    replace (B10 / scale * scale)%R with B10 in H10hi by (field; lra). done. }
  assert (IZR a <= X * scale)%R as HXa.
  { apply (Rmult_le_compat_r scale) in Hlo; [|lra].
    replace (IZR a / scale * scale)%R with (IZR a) in Hlo by (field; lra). done. }
  assert (X * scale <= IZR b)%R as HXb.
  { apply (Rmult_le_compat_r scale) in Hhi; [|lra].
    replace (IZR b / scale * scale)%R with (IZR b) in Hhi by (field; lra). done. }
  assert (0 <= L * scale)%R as HLs by nra.
  assert ((V - delta) * L <= X <= (V + delta) * L)%R as [Hl Hu].
  { split.
    - apply (Rmult_le_reg_r scale); [done|]. rewrite Rmult_assoc.
      destruct (Rle_dec (V - delta) 0) as [Hneg|Hpos].
      + assert ((V - delta) * (L * scale) <= 0)%R by nra. lra.
      + apply Rle_trans with ((V - delta) * B10)%R; [|lra].
        apply Rmult_le_compat_l; lra.
    - apply (Rmult_le_reg_r scale); [done|]. rewrite (Rmult_assoc _ L).
      apply Rle_trans with ((V + delta) * A10)%R; [lra|].
      apply Rmult_le_compat_l; lra. }
  unfold real_log10. fold X L.
  assert (X / L * L = X)%R as HXL by (field; lra).
  assert (V - delta <= X / L <= V + delta)%R as [Hl' Hu'].
  { split; (apply (Rmult_le_reg_r L); [lra|]); rewrite HXL; done. }
  apply Rabs_le. lra.
Qed.

Lemma Rabs_le_bounds (x y : R) : (Rabs x <= y)%R -> (- y <= x <= y)%R.
Proof. unfold Rabs. destruct (Rcase_abs x); lra. Qed.

Lemma float_to_R_is_finite (x : float) :
  float_to_R x <> 0%R -> is_finite x = true.
Proof. unfold float_to_R, is_finite. by destruct (Prim2SF x). Qed.

(** No Benford probability is below 1/30. *)
Lemma real_benford_lower (d : Z) :
  1 <= d <= 9 -> (1 / 30 <= benford (H := real_arith) d)%R.
Proof.
  intros [Hd1 Hd9]. apply IZR_le in Hd1, Hd9.
  pose proof ln_10_enclosure as [_ H10]. pose proof ln_10_ge_1 as H10'.
  assert (ln 10 <= 3)%R as H3.
  { eapply Rle_trans; [exact H10|].
    apply (Rmult_le_reg_r (IZR (2 ^ 120))); [by apply IZR_lt|].
    replace (IZR 3060660568285908405527968077235047465 / IZR (2 ^ 120)
             * IZR (2 ^ 120))%R
      with (IZR 3060660568285908405527968077235047465)
      by (field; apply not_0_IZR; done).
    rewrite <- mult_IZR. apply IZR_le. apply Z.leb_le. vm_compute. reflexivity. }
  unfold benford. cbn [log10 fadd fdiv of_int real_arith]. unfold real_log10.
  set (y := (1 + 1 / IZR d)%R).
  assert (1 < y)%R as Hy.
  { unfold y. assert (0 < 1 / IZR d)%R by (apply Rdiv_lt_0_compat; lra). lra. }
  assert (1 / 10 <= ln y)%R as Hln.
  { pose proof (exp_ineq1_le (- ln y)) as Hexp.
    rewrite exp_Ropp, exp_ln in Hexp by lra.
    assert (/ y <= 9 / 10)%R; [|lra].
    apply (Rmult_le_reg_r y); [lra|]. rewrite Rinv_l by lra.
    unfold y. replace (9 / 10 * (1 + 1 / IZR d))%R
      with (9 / 10 + 9 / 10 * / IZR d)%R by (field; lra).
    assert (/ 9 <= / IZR d)%R by (apply Rinv_le_contravar; lra). lra. }
  apply (Rmult_le_reg_r (ln 10)); [lra|].
  replace (ln y / ln 10 * ln 10)%R with (ln y) by (field; lra). nra.
Qed.

Ltac float_value m e :=
  rewrite (float_to_R_finite _ m e) by (vm_compute; reflexivity).

(** The argument [1 + 1 / d] as binary64 computes it: at least 1, and
    within 1e-11 of the exact value. *)
Lemma benford_argument_exact (libm_log10 : float -> float) (d : Z) :
  1 <= d <= 9 ->
  let x := benford_argument (H := float_arith libm_log10) d in
  (1 <= float_to_R x)%R /\
  (Rabs (float_to_R x - (1 + 1 / IZR d)) <= 1 / 10 ^ 11)%R.
Proof.
  intros Hd. cbv zeta. unfold benford_argument.
  cbn [fadd fdiv of_int float_arith].
  assert (d = 1 \/ d = 2 \/ d = 3 \/ d = 4 \/ d = 5 \/ d = 6 \/ d = 7 \/
          d = 8 \/ d = 9) as Hcases by lia.
  destruct Hcases as [->|[->|[->|[->|[->|[->|[->|[->| ->]]]]]]]].
  - float_value 4503599627370496%positive 51%positive.
    change (Z.pow_pos 2 51) with 2251799813685248. split; [|apply Rabs_le]; lra.
  - float_value 6755399441055744%positive 52%positive.
    change (Z.pow_pos 2 52) with 4503599627370496. split; [|apply Rabs_le]; lra.
  - float_value 6004799503160661%positive 52%positive.
    change (Z.pow_pos 2 52) with 4503599627370496. split; [|apply Rabs_le]; lra.
  - float_value 5629499534213120%positive 52%positive.
    change (Z.pow_pos 2 52) with 4503599627370496. split; [|apply Rabs_le]; lra.
  - float_value 5404319552844595%positive 52%positive.
    change (Z.pow_pos 2 52) with 4503599627370496. split; [|apply Rabs_le]; lra.
  - float_value 5254199565265579%positive 52%positive.
    change (Z.pow_pos 2 52) with 4503599627370496. split; [|apply Rabs_le]; lra.
  - float_value 5146971002709138%positive 52%positive.
    change (Z.pow_pos 2 52) with 4503599627370496. split; [|apply Rabs_le]; lra.
  - float_value 5066549580791808%positive 52%positive.
    change (Z.pow_pos 2 52) with 4503599627370496. split; [|apply Rabs_le]; lra.
  - float_value 5003999585967218%positive 52%positive.
    change (Z.pow_pos 2 52) with 4503599627370496. split; [|apply Rabs_le]; lra.
Qed.

(** C7.  [expected_benford_distribution] is the constant table with the
    keys 1, ..., 9 in this order and log10(1 + 1/d) at key d; it takes no
    argument and cannot fail.  The nine probabilities add up to 1 within
    1e-9: exactly 1 over the reals; and in binary64, for every [math.log10]
    that is within 1e-10 of the true logarithm at the nine arguments
    [1 + 1 / d] as binary64 computes them, the nine values returned are
    positive finite numbers whose sum is within 1e-9 of 1. *)
Theorem expected_benford_distribution_spec :
  (forall F (A : Arith F),
     (benford_analysis.expected_benford_distribution (H := A)).*1
     = [1; 2; 3; 4; 5; 6; 7; 8; 9] /\
     (forall d, 1 <= d <= 9 ->
        lookup_label (benford_analysis.expected_benford_distribution (H := A)) d
        = Ret (log10 (fadd (of_int 1) (fdiv (of_int 1) (of_int d))))) /\
     (forall d, ~ 1 <= d <= 9 ->
        lookup_label (benford_analysis.expected_benford_distribution (H := A)) d
        = Raise KeyError)) /\
  (fsum (Arith := real_arith)
     (benford_analysis.expected_benford_distribution (H := real_arith)).*2 = 1)%R /\
  (forall libm_log10 : float -> float,
     (forall d : Z, 1 <= d <= 9 ->
        let x := benford_argument (H := float_arith libm_log10) d in
        (Rabs (float_to_R (libm_log10 x) - real_log10 (float_to_R x))
         <= 1 / 10 ^ 10)%R) ->
     let table :=
       benford_analysis.expected_benford_distribution
         (H := float_arith libm_log10) in
     Forall (fun v => is_finite v = true /\ (0 < float_to_R v)%R) table.*2 /\
     (Rabs (foldr Rplus 0 (float_to_R <$> table.*2) - 1) <= 1 / 10 ^ 9)%R).
Proof.
  split; [|split].
  - intros F A. split; [reflexivity|]. split.
    + intros d Hd. apply (expected_lookup (H := A)), elem_of_range. lia.
    + intros d Hd.
      change (benford_analysis.expected_benford_distribution (H := A))
        with ((fun d => (d, benford (H := A) d)) <$> [1; 2; 3; 4; 5; 6; 7; 8; 9]).
      cbn [fmap list_fmap lookup_label].
      repeat (case_decide; [lia|]). done.
  - change (benford_analysis.expected_benford_distribution (H := real_arith)).*2
      with (benford (H := real_arith) <$> range 1 10).
    apply real_benford_sum.
  - intros libm_log10 Haccurate table.
    set (value := fun d => float_to_R (benford (H := float_arith libm_log10) d)).
    assert (forall d, 1 <= d <= 9 ->
              (Rabs (value d - benford (H := real_arith) d)
               <= 11 / 10 ^ 11)%R) as Hclose.
    { intros d Hd. specialize (Haccurate d Hd). cbv zeta in Haccurate.
      destruct (benford_argument_exact libm_log10 d Hd) as [Hge Harg].
      set (x := benford_argument (H := float_arith libm_log10) d) in *.
      change (value d) with (float_to_R (libm_log10 x)).
      change (benford (H := real_arith) d) with (real_log10 (1 + 1 / IZR d)).
      assert (1 <= 1 + 1 / IZR d)%R as Hge'.
      { assert (0 < 1 / IZR d)%R; [|lra].
        apply Rdiv_lt_0_compat; [lra|]. apply IZR_lt. lia. }
      pose proof (real_log10_lipschitz _ _ Hge Hge') as Hlip.
      replace (float_to_R (libm_log10 x) - real_log10 (1 + 1 / IZR d))%R
        with ((float_to_R (libm_log10 x) - real_log10 (float_to_R x))
              + (real_log10 (float_to_R x) - real_log10 (1 + 1 / IZR d)))%R
        by lra.
      eapply Rle_trans; [apply Rabs_triang|]. lra. }
    assert (table.*2 = benford (H := float_arith libm_log10) <$> range 1 10)
      as -> by reflexivity.
    rewrite <- list_fmap_compose. change (float_to_R ∘ _) with value.
    split.
    + apply Forall_fmap, Forall_forall. intros d Hd%elem_of_range.
      assert (1 <= d <= 9) as Hd' by lia.
      specialize (Hclose d Hd'). apply Rabs_le_bounds in Hclose.
      pose proof (real_benford_lower d Hd') as Hlow.
      assert (0 < value d)%R as Hpos by lra.
      split; [|exact Hpos]. apply float_to_R_is_finite.
      unfold value in Hpos. lra.
    + assert (Forall2 (fun e t => (Rabs (e - t) <= 11 / 10 ^ 11)%R)
                (value <$> range 1 10)
                (benford (H := real_arith) <$> range 1 10)) as Hall.
      { apply Forall2_fmap, Forall_Forall2_diag, Forall_forall.
        intros d Hd%elem_of_range. apply Hclose. lia. }
      apply sum_close in Hall. rewrite real_benford_sum in Hall.
      rewrite length_fmap in Hall.
      change (INR (length (range 1 10))) with (INR 9) in Hall.
      replace (INR 9) with 9%R in Hall by (simpl; lra).
      eapply Rle_trans; [exact Hall|]. lra.
Qed.

Ltac log10_at_argument x v mx ex mv ev a b :=
  replace (benford_argument _) with x by (vm_compute; reflexivity);
  replace (glibc_log10 x) with v by (vm_compute; reflexivity);
  rewrite (float_to_R_finite x mx ex) by (vm_compute; reflexivity);
  rewrite (float_to_R_finite v mv ev) by (vm_compute; reflexivity);
  apply (log10_value_accurate _ _ _ _ a b);
    [done|done|done|done|done|split| |];
    [apply (ln_lower_bound 50); [done..| |]
    |apply (ln_upper_bound 50); [done..| |]
    | |];
    apply Z.leb_le; vm_compute; reflexivity.

(** The values of CPython's [math.log10] meet the accuracy asked for. *)
Lemma glibc_log10_accurate (d : Z) :
  1 <= d <= 9 ->
  let x := benford_argument (H := float_arith glibc_log10) d in
  (Rabs (float_to_R (glibc_log10 x) - real_log10 (float_to_R x))
   <= 1 / 10 ^ 10)%R.
Proof.
  intros Hd. cbv zeta.
  assert (d = 1 \/ d = 2 \/ d = 3 \/ d = 4 \/ d = 5 \/ d = 6 \/ d = 7 \/
          d = 8 \/ d = 9) as Hcases by lia.
  destruct Hcases as [->|[->|[->|[->|[->|[->|[->|[->| ->]]]]]]]].
  - log10_at_argument 2%float 0x1.34413509f79ffp-2%float
      4503599627370496%positive 51%positive
      5422874305198591%positive 54%positive
      921350637598452379406729678497772278
      921350637600870231045958936847184631.
  - log10_at_argument 1.5%float 0x1.68a288b60b7fcp-3%float
      6755399441055744%positive 52%positive
      6344356229330940%positive 55%positive
      538955573010120658030190221982779526
      538955573012538509669419480332191879.
  - log10_at_argument 0x1.5555555555555p+0%float 0x1.ffbfc2bbc7801p-4%float
      6004799503160661%positive 52%positive
      9002784762132481%positive 56%positive
      382395064587122721769948532502078064
      382395064589540573409177790851490417.
  - log10_at_argument 1.25%float 0x1.8cf183886480dp-4%float
      5629499534213120%positive 52%positive
      6983102375544845%positive 56%positive
      296608655484506638209705895868199748
      296608655486924489848935154217612101.
  - log10_at_argument 0x1.3333333333333p+0%float 0x1.44538de3b27ebp-4%float
      5404319552844595%positive 52%positive
      5705610083117035%positive 56%positive
      242346917524405044809552167047735048
      242346917526822896448781425397147401.
  - log10_at_argument 0x1.2aaaaaaaaaaabp+0%float 0x1.1236cc009220bp-4%float
      5254199565265579%positive 52%positive
      4824024589345291%positive 56%positive
      204901399194459976086004654141437251
      204901399196877827725233912490849604.
  - log10_at_argument 0x1.2492492492492p+0%float 0x1.db11ed766abf1p-5%float
      5146971002709138%positive 52%positive
      8357520345574385%positive 57%positive
      177493665391453904192302157572453635
      177493665393871755831531415921865988.
  - log10_at_argument 1.125%float 0x1.a30a9d609efeap-5%float
      5066549580791808%positive 52%positive
      7371855393058794%positive 57%positive
      156560508421788936653650765467786773
      156560508424206788292880023817199126.
  - log10_at_argument 0x1.1c71c71c71c72p+0%float 0x1.76d869b02a032p-5%float
      5003999585967218%positive 52%positive
      6594349358030898%positive 57%positive
      140048147061508834766021537096270659
      140048147063926686405250795445683012.
Qed.

Lemma expected_benford_distribution_spec_witness :
  let table :=
    benford_analysis.expected_benford_distribution
      (H := float_arith glibc_log10) in
  table.*2
  = [0x1.34413509f79ffp-2; 0x1.68a288b60b7fcp-3; 0x1.ffbfc2bbc7801p-4;
     0x1.8cf183886480dp-4; 0x1.44538de3b27ebp-4; 0x1.1236cc009220bp-4;
     0x1.db11ed766abf1p-5; 0x1.a30a9d609efeap-5; 0x1.76d869b02a032p-5]%float /\
  foldl PrimFloat.add 0%float table.*2 = 1%float /\
  Forall (fun v => is_finite v = true /\ (0 < float_to_R v)%R) table.*2 /\
  (Rabs (foldr Rplus 0 (float_to_R <$> table.*2) - 1) <= 1 / 10 ^ 9)%R.
Proof.
  split; [vm_compute; reflexivity|].
  split; [vm_compute; reflexivity|].
  apply (proj2 (proj2 expected_benford_distribution_spec) glibc_log10).
  exact glibc_log10_accurate.
Defined.

(** ** The pooled distribution of the spreadsheet emitter *)

Lemma mapM_app_Ret {A B} (f : A -> outcome B) (l1 l2 : list A) (k : list B) :
  mapM f (l1 ++ l2) = Ret k ->
  exists k1 k2, k = k1 ++ k2 /\ mapM f l1 = Ret k1 /\ mapM f l2 = Ret k2.
Proof.
  intros Hk%mapM_Ret_Forall2.
  apply Forall2_app_inv_l in Hk as (k1 & k2 & H1 & H2 & ->).
  exists k1, k2. by rewrite !mapM_Ret_Forall2.
Qed.

Lemma mapM_cons_Ret {A B} (f : A -> outcome B) (x : A) (l : list A) (k : list B) :
  mapM f (x :: l) = Ret k ->
  exists y k', k = y :: k' /\ f x = Ret y /\ mapM f l = Ret k'.
Proof.
  intros Hk%mapM_Ret_Forall2.
  apply Forall2_cons_inv_l in Hk as (y & k' & Hx & Hl & ->).
  exists y, k'. by rewrite mapM_Ret_Forall2.
Qed.

Lemma count_digit_nonneg (d : Z) (digits : list Z) : 0 <= count_digit d digits.
Proof. unfold count_digit. lia. Qed.

Lemma count_digit_app (d : Z) (l1 l2 : list Z) :
  count_digit d (l1 ++ l2) = count_digit d l1 + count_digit d l2.
Proof. unfold count_digit. rewrite filter_app, length_app. lia. Qed.

Section AggregatorFacts.
Variable float_of_str : string -> option float.
Context `{Arith F}.
Abbreviation extract_digits := (benford_excel_report.extract_digits float_of_str).
Abbreviation columns_digits :=
  (mapM (fun c : string * string * list pyvalue => extract_digits c.2)).

Lemma analyze_columns_unfold (sheet_name : string) (numeric_cols : numeric_frame)
    (acc : benford_excel_report.tables) (dss : list (list Z)) :
  columns_digits ((fun col => (sheet_name, col.1, col.2)) <$> numeric_cols) = Ret dss ->
  exists acc',
    benford_excel_report.analyze_columns float_of_str sheet_name numeric_cols acc
    = Ret acc' /\
    benford_excel_report.all_digits acc'
    = benford_excel_report.all_digits acc ++ concat dss /\
    total_values <$> benford_excel_report.summary_rows acc'
    = (total_values <$> benford_excel_report.summary_rows acc)
      ++ ((fun ds => Z.of_nat (length ds)) <$> dss).
Proof.
  revert acc dss.
  induction numeric_cols as [|[column_name series] numeric_cols IH];
    intros acc dss Hdss.
  - injection Hdss as <-. exists acc. simpl. rewrite !app_nil_r. auto.
  - apply mapM_cons_Ret in Hdss as (digits & dss' & -> & Hdigits & Hrest).
    cbn [snd] in Hdigits.
    cbn [benford_excel_report.analyze_columns]. rewrite Hdigits. run_outcome.
    change (benford_excel_report.analyze_numeric_column float_of_str series
              sheet_name column_name)
      with (benford_analysis.analyze_numeric_column float_of_str series
              sheet_name column_name).
    rewrite (analyze_numeric_column_unfold _ _ _ _ _ Hdigits). run_outcome.
    edestruct IH as (acc' & Hacc & Hall & Htot); [exact Hrest|].
    rewrite Hacc.
    exists acc'. split; [done|]. split.
    + rewrite Hall. cbn. case_bool_decide as Hnil.
      * by rewrite Hnil.
      * by rewrite <- app_assoc.
    + rewrite Htot. cbn. rewrite fmap_app. by rewrite <- app_assoc.
Qed.

Lemma analyze_sheets_unfold (excel : workbook)
    (acc : benford_excel_report.tables) (dss : list (list Z)) :
  columns_digits (analysed_columns excel) = Ret dss ->
  exists acc',
    benford_excel_report.analyze_sheets float_of_str excel acc = Ret acc' /\
    benford_excel_report.all_digits acc'
    = benford_excel_report.all_digits acc ++ concat dss /\
    total_values <$> benford_excel_report.summary_rows acc'
    = (total_values <$> benford_excel_report.summary_rows acc)
      ++ ((fun ds => Z.of_nat (length ds)) <$> dss).
Proof.
  revert acc dss.
  induction excel as [|[sheet_name numeric_cols] excel IH]; intros acc dss Hdss.
  - injection Hdss as <-. exists acc. simpl. rewrite !app_nil_r. auto.
  - unfold analysed_columns in Hdss. cbn [fmap list_fmap concat fst snd] in Hdss.
    apply mapM_app_Ret in Hdss as (dss1 & dss2 & -> & Hone & Hrest).
    cbn [benford_excel_report.analyze_sheets].
    destruct (frame_empty numeric_cols).
    + injection Hone as <-. by apply IH.
    + destruct (analyze_columns_unfold _ _ acc _ Hone) as (acc1 & -> & Hall1 & Htot1).
      run_outcome.
      destruct (IH acc1 _ Hrest) as (acc' & -> & Hall & Htot).
      exists acc'. split; [done|].
      rewrite Hall, Hall1, Htot, Htot1, concat_app, fmap_app.
      by rewrite <- !app_assoc.
Qed.

Lemma columns_digits_range (cs : list (string * string * list pyvalue))
    (dss : list (list Z)) :
  columns_digits cs = Ret dss -> Forall (fun d => 1 <= d <= 9) (concat dss).
Proof.
  intros Hdss%mapM_Ret_Forall2. apply Forall_concat.
  induction Hdss as [|c ds cs dss Hc _ IH]; constructor; [|done].
  by apply (extract_digits_range float_of_str) in Hc.
Qed.

Lemma overall_distribution_unfold (pooled : list Z) :
  benford_excel_report.overall_distribution pooled
  = Ret (overall_of pooled <$> range 1 10).
Proof.
  unfold benford_excel_report.overall_distribution.
  rewrite counts_series.
  rewrite <- list_fmap_compose.
  change (snd ∘ _) with (fun d => count_digit d pooled).
  set (overall_total := foldr Z.add 0 _).
  set (counts := (fun d => (d, count_digit d pooled)) <$> range 1 10).
  assert (mapM (lookup_label counts) (range 1 10)
          = Ret ((fun d => count_digit d pooled) <$> range 1 10)) as ->.
  { apply mapM_Ret_total, Forall_forall. intros d Hd.
    by apply (lookup_label_fmap (fun d => count_digit d pooled)). }
  run_outcome.
  assert (mapM (lookup_label
                  (if 0 <? overall_total
                   then series_map (fun c => fdiv (of_int c) (of_int overall_total))
                          counts
                   else series_map of_int counts)) (range 1 10)
          = Ret ((fun d => if 0 <? overall_total
                           then fdiv (of_int (count_digit d pooled))
                                  (of_int overall_total)
                           else of_int (count_digit d pooled)) <$> range 1 10))
    as ->.
  { apply mapM_Ret_total, Forall_forall. intros d Hd. subst counts.
    destruct (0 <? overall_total); rewrite series_map_fmap.
    - by apply (lookup_label_fmap
                  (fun d => fdiv (of_int (count_digit d pooled)) (of_int overall_total))).
    - by apply (lookup_label_fmap (fun d => of_int (count_digit d pooled))). }
  run_outcome.
  assert (mapM (lookup_label benford_excel_report.expected_benford_distribution)
            (range 1 10) = Ret (benford <$> range 1 10)) as ->.
  { apply mapM_Ret_total, Forall_forall. intros d Hd.
    change benford_excel_report.expected_benford_distribution
      with (benford_analysis.expected_benford_distribution).
    by apply expected_lookup. }
  run_outcome. f_equal.
  assert (forall d, d ∈ range 1 10 -> (0 <? overall_total) = false ->
                    count_digit d pooled = 0) as Hzero.
  { intros d Hd Hle%Z.ltb_ge. subst overall_total.
    change (range 1 10) with [1; 2; 3; 4; 5; 6; 7; 8; 9] in *.
    cbn [fmap list_fmap foldr] in Hle.
    pose proof (fun d => count_digit_nonneg d pooled) as Hnn.
    pose proof (Hnn 1). pose proof (Hnn 2). pose proof (Hnn 3).
    pose proof (Hnn 4). pose proof (Hnn 5). pose proof (Hnn 6).
    pose proof (Hnn 7). pose proof (Hnn 8). pose proof (Hnn 9).
    repeat (apply elem_of_cons in Hd as [->|Hd]; [lia|]).
    by apply elem_of_nil in Hd. }
  unfold overall_of. fold overall_total.
  change (range 1 10) with [1; 2; 3; 4; 5; 6; 7; 8; 9] in *.
  cbn [fmap list_fmap zip zip_with fst snd].
  destruct (0 <? overall_total) eqn:Hpos; [done|].
  rewrite !Hzero by (done || set_solver). done.
Qed.
End AggregatorFacts.

Section AggregatorTheorem.
Variable float_of_str : string -> option float.
Context `{Arith F}.
Variable argsort : list F -> outcome (list nat).

(** C6.  Whenever the digits of every analysed column can be extracted
    ([dss]: one list of digits per analysed column, in order), the run
    pools exactly these digits; the overall table has one row per digit
    1, ..., 9 whose [actual_count] is the number of occurrences of the digit
    in the pool; the nine counts add up to the sum of [total_values] over
    the column summaries; [actual_percent] is [actual_count /
    overall_total] when the overall total is positive and 0.0 for every
    digit otherwise; [expected_percent] is log10(1 + 1/d).  This table is
    the one [main] hands to the report. *)
Theorem overall_distribution_pooled (excel : workbook) (dss : list (list Z)) :
  mapM (fun c : string * string * list pyvalue =>
          benford_excel_report.extract_digits float_of_str c.2)
       (analysed_columns excel) = Ret dss ->
  exists acc rows,
    benford_excel_report.analyze_sheets float_of_str excel
      {| benford_excel_report.detail_frames := [];
         benford_excel_report.summary_rows := [];
         benford_excel_report.all_digits := [] |} = Ret acc /\
    benford_excel_report.all_digits acc = concat dss /\
    benford_excel_report.overall_distribution
      (benford_excel_report.all_digits acc) = Ret rows /\
    benford_excel_report.o_digit <$> rows = [1; 2; 3; 4; 5; 6; 7; 8; 9] /\
    let overall_total :=
      foldr Z.add 0 (benford_excel_report.actual_count <$> rows) in
    overall_total
    = foldr Z.add 0 (total_values <$> benford_excel_report.summary_rows acc) /\
    Forall (fun r =>
              benford_excel_report.actual_count r
              = count_digit (benford_excel_report.o_digit r) (concat dss) /\
              benford_excel_report.actual_percent r
              = (if 0 <? overall_total
                 then fdiv (of_int (benford_excel_report.actual_count r))
                        (of_int overall_total)
                 else of_int 0) /\
              benford_excel_report.expected_percent r
              = log10 (fadd (of_int 1)
                         (fdiv (of_int 1) (of_int (benford_excel_report.o_digit r)))))
           rows /\
    (forall top,
       benford_excel_report.top_deviations argsort
         (benford_excel_report.summary_rows acc) = Ret top ->
       benford_excel_report.main float_of_str argsort excel
       = Ret (concat (benford_excel_report.detail_frames acc),
              benford_excel_report.summary_rows acc, rows, top)).
Proof.
  intros Hdss.
  destruct (analyze_sheets_unfold float_of_str excel
              {| benford_excel_report.detail_frames := [];
                 benford_excel_report.summary_rows := [];
                 benford_excel_report.all_digits := [] |} dss Hdss)
    as (acc & Hacc & Hall & Htot).
  simpl in Hall, Htot.
  exists acc, (overall_of (concat dss) <$> range 1 10).
  split; [exact Hacc|]. split; [exact Hall|].
  split; [rewrite Hall; apply overall_distribution_unfold|].
  split; [by rewrite <- list_fmap_compose|].
  assert (foldr Z.add 0 (benford_excel_report.actual_count
                           <$> (overall_of (concat dss) <$> range 1 10))
          = foldr Z.add 0 ((fun d => count_digit d (concat dss)) <$> range 1 10))
    as Htotal by (by rewrite <- list_fmap_compose).
  cbv zeta. rewrite Htotal. split; [|split].
  - rewrite sum_count_digit by (by eapply columns_digits_range).
    rewrite Htot. clear. induction dss as [|ds dss IH]; [done|].
    cbn [concat fmap list_fmap foldr]. rewrite length_app, <- IH. lia.
  - apply Forall_fmap, Forall_forall. intros d _. cbn. done.
  - intros top Htop. unfold benford_excel_report.main.
    rewrite Hacc. run_outcome.
    rewrite Hall, overall_distribution_unfold. run_outcome.
    rewrite Htop. run_outcome. done.
Qed.
End AggregatorTheorem.

Lemma overall_distribution_pooled_witness :
  let excel : workbook :=
    [("Empty", []);
     ("S1", [("C1", [PyInt 1; PyInt 1; PyInt 2]); ("C2", [PyNone; PyInt 0; PyInt 90])])] in
  let dss := [[1; 1; 2]; [9]] in
  mapM (fun c : string * string * list pyvalue =>
          benford_excel_report.extract_digits (fun _ => None) c.2)
       (analysed_columns excel) = Ret dss /\
  exists acc rows,
    benford_excel_report.analyze_sheets (H := real_arith) (fun _ => None) excel
      {| benford_excel_report.detail_frames := [];
         benford_excel_report.summary_rows := [];
         benford_excel_report.all_digits := [] |} = Ret acc /\
    benford_excel_report.all_digits acc = [1; 1; 2; 9] /\
    benford_excel_report.overall_distribution (H := real_arith)
      (benford_excel_report.all_digits acc) = Ret rows /\
    benford_excel_report.actual_count <$> rows = [2; 1; 0; 0; 0; 0; 0; 0; 1] /\
    foldr Z.add 0 (total_values <$> benford_excel_report.summary_rows acc) = 4.
Proof.
  assert (mapM (fun c : string * string * list pyvalue =>
                  benford_excel_report.extract_digits (fun _ => None) c.2)
            (analysed_columns
               [("Empty", []);
                ("S1", [("C1", [PyInt 1; PyInt 1; PyInt 2]);
                        ("C2", [PyNone; PyInt 0; PyInt 90])])])
          = Ret [[1; 1; 2]; [9]]) as Hdss by (vm_compute; reflexivity).
  split; [exact Hdss|].
  destruct (overall_distribution_pooled (H := real_arith) (fun _ => None)
              (fun _ => Ret []) _ _ Hdss)
    as (acc & rows & Hacc & Hall & Hrows & Hdigit & Htotal & Hall_rows & _).
  exists acc, rows. split; [exact Hacc|]. split; [exact Hall|].
  split; [exact Hrows|]. split.
  - rewrite Hall in Hrows. rewrite overall_distribution_unfold in Hrows.
    injection Hrows as <-. reflexivity.
  - rewrite <- Htotal.
    rewrite Hall in Hrows. rewrite overall_distribution_unfold in Hrows.
    injection Hrows as <-. reflexivity.
Defined.

(** ** Ranking *)

Section TakeRows.
Context {A : Type}.

Lemma take_rows_Forall2 (order : list nat) (rows k : list A) :
  take_rows order rows = Ret k <-> Forall2 (fun i x => rows !! i = Some x) order k.
Proof.
  unfold take_rows. rewrite mapM_Ret_Forall2.
  split; intros Hk; (eapply Forall2_impl; [exact Hk|]);
    intros i x; cbn; destruct (rows !! i); congruence.
Qed.

Lemma Forall2_lookup_seq (rows k : list A) :
  Forall2 (fun i x => rows !! i = Some x) (seq 0 (length rows)) k -> k = rows.
Proof.
  intros Hk. apply list_eq. intros i.
  pose proof (proj1 (Forall2_lookup _ _ _) Hk i) as Hi.
  destruct (decide (i < length rows)%nat) as [Hlt|Hge].
  - rewrite lookup_seq_lt in Hi by done. by inversion Hi.
  - rewrite lookup_seq_ge in Hi by lia. inversion Hi.
    symmetry. apply lookup_ge_None. lia.
Qed.

Lemma take_rows_total (order : list nat) (rows : list A) :
  Forall (fun i => (i < length rows)%nat) order ->
  exists k, take_rows order rows = Ret k.
Proof.
  induction 1 as [|i order Hi _ [k Hk]].
  - by exists [].
  - apply lookup_lt_is_Some in Hi as [x Hx]. exists (x :: k).
    apply take_rows_Forall2. constructor; [done|]. by apply take_rows_Forall2.
Qed.

(** Taking the rows at a rearrangement of all positions rearranges the
    rows. *)
Lemma take_rows_perm (order : list nat) (rows : list A) :
  order ≡ₚ seq 0 (length rows) ->
  exists k, take_rows order rows = Ret k /\ k ≡ₚ rows.
Proof.
  intros Hperm.
  destruct (take_rows_total order rows) as [k Hk].
  { apply Forall_forall. intros i Hi. rewrite Hperm in Hi.
    apply elem_of_seq in Hi. lia. }
  exists k. split; [done|]. apply take_rows_Forall2 in Hk.
  destruct (Permutation_Forall2 Hperm Hk) as (k' & Hkk' & Hk').
  apply Forall2_lookup_seq in Hk'. by subst k'.
Qed.

End TakeRows.

Lemma take_rows_fmap {A B} (f : A -> B) (order : list nat) (rows k : list A) :
  take_rows order rows = Ret k -> take_rows order (f <$> rows) = Ret (f <$> k).
Proof.
  intros Hk%take_rows_Forall2. apply take_rows_Forall2, Forall2_fmap_r.
  eapply Forall2_impl; [exact Hk|]. intros i x Hx. cbn.
  by rewrite list_lookup_fmap, Hx.
Qed.


Section SortedFacts.
Context {A : Type} (R : relation A).

Lemma StronglySorted_reverse (l : list A) :
  StronglySorted R l -> StronglySorted (flip R) (reverse l).
Proof.
  induction 1 as [|x l _ IH Hx]; [constructor|].
  rewrite reverse_cons. apply StronglySorted_app_2.
  - intros y z Hy ->%list_elem_of_singleton.
    rewrite elem_of_reverse in Hy. rewrite Forall_forall in Hx. by apply Hx.
  - exact IH.
  - repeat constructor.
Qed.

Lemma StronglySorted_take (n : nat) (l : list A) :
  StronglySorted R l -> StronglySorted R (take n l).
Proof.
  intros Hl. rewrite <- (take_drop n l) in Hl.
  by apply StronglySorted_app_1_l in Hl.
Qed.

Lemma StronglySorted_weaken (R' : relation A) (l : list A) :
  (forall x y, x ∈ l -> y ∈ l -> R x y -> R' x y) ->
  StronglySorted R l -> StronglySorted R' l.
Proof.
  intros HR Hl. induction Hl as [|x l _ IH Hx]; constructor.
  - apply IH. intros y z Hy Hz. apply HR; by constructor.
  - rewrite Forall_forall in *. intros y Hy.
    apply HR; [by constructor|by constructor|by apply Hx].
Qed.

Lemma StronglySorted_all (l : list A) :
  (forall x y, x ∈ l -> y ∈ l -> R x y) -> StronglySorted R l.
Proof.
  induction l as [|x l IH]; intros HR; constructor.
  - apply IH. intros y z Hy Hz. apply HR; by constructor.
  - apply Forall_forall. intros y Hy. apply HR; by constructor.
Qed.
End SortedFacts.

Lemma filter_zip_snd {A B} (P : B -> Prop) `{!forall y, Decision (P y)}
    (l1 : list A) (l2 : list B) :
  length l1 = length l2 ->
  (filter (fun p => P p.2) (zip l1 l2)).*2 = filter P l2.
Proof.
  revert l2. induction l1 as [|x l1 IH]; intros [|y l2] Hlen; try done.
  injection Hlen as Hlen. cbn [zip zip_with].
  rewrite !filter_cons. cbn [snd].
  destruct (decide (P y)); csimpl; by rewrite IH.
Qed.

Lemma zip_seq_lookup {B} (l : list B) :
  Forall (fun p : nat * B => l !! p.1 = Some p.2) (zip (seq 0 (length l)) l).
Proof.
  apply Forall_forall. intros [i x] Hin.
  apply list_elem_of_lookup in Hin as [j Hj].
  apply lookup_zip_with_Some in Hj as (i' & x' & [= <- <-] & Hi & Hx).
  apply lookup_seq in Hi as [-> _]. done.
Qed.

Section RankingFacts.
Context `{Arith F} {A : Type}.
Variable argsort : list F -> outcome (list nat).
Variable key : A -> F.

Lemma notnan_complement (x : F) : ~ notnan x = true <-> fisnan x = true.
Proof. unfold notnan. destruct (fisnan x); simpl; split; congruence. Qed.

(** [take] of rows at positions, read off a keyed list whose entries carry
    the key found at their position. *)
Lemma keys_of_taken (df ranked : list A) (final : list (nat * F)) :
  Forall (fun p => (key <$> df) !! p.1 = Some p.2) final ->
  take_rows final.*1 df = Ret ranked ->
  key <$> ranked = final.*2.
Proof.
  intros Hfinal Hranked%take_rows_Forall2. apply Forall2_fmap_l in Hranked.
  induction Hranked as [|p r final ranked Hp _ IH]; [done|].
  apply Forall_cons in Hfinal as [Hkey Hfinal]. csimpl.
  rewrite IH by done. f_equal.
  cbn in Hp. rewrite list_lookup_fmap, Hp in Hkey. by injection Hkey.
Qed.

(** With an [argsort] that meets its contract on the keys it receives,
    [sort_values] rearranges the rows into descending order of the key,
    rows with a missing key last. *)
Lemma sort_values_desc_sorted (df : list A) (order : list nat) :
  let keys := reverse (filter (fun x => notnan x = true) (key <$> df)) in
  argsort keys = Ret order ->
  sorting_order keys order ->
  exists ranked,
    sort_values_desc argsort key df = Ret ranked /\
    ranked ≡ₚ df /\
    StronglySorted by_mad_desc (key <$> ranked).
Proof.
  intros keys Hargsort (Hperm & ks & Hks & Hsorted).
  set (items := key <$> df) in *.
  set (keyed := zip (seq 0 (length items)) items).
  set (present := reverse (filter (fun p : nat * F => notnan p.2 = true) keyed)).
  set (missing := filter (fun p : nat * F => fisnan p.2 = true) keyed).
  assert (present.*2 = keys) as Hkeys.
  { subst present keys. rewrite fmap_reverse. f_equal. unfold keyed.
    pose proof (filter_zip_snd (fun x : F => notnan x = true)
                  (seq 0 (length items)) items) as Hzip.
    apply Hzip. by rewrite length_seq. }
  assert (length keys = length present) as Hlen
    by (by rewrite <- Hkeys, length_fmap).
  rewrite Hlen in Hperm.
  destruct (take_rows_perm _ _ Hperm) as (picks & Hpicks & Hpicks_perm).
  pose proof (take_rows_fmap fst _ _ _ Hpicks) as Hidx.
  pose proof (take_rows_fmap snd _ _ _ Hpicks) as Hval.
  rewrite Hkeys, Hks in Hval. injection Hval as ->.
  set (final := reverse picks ++ missing).
  assert (final ≡ₚ keyed) as Hfinal.
  { subst final. rewrite reverse_Permutation, Hpicks_perm.
    subst present. rewrite reverse_Permutation.
    subst missing.
    pose proof (list_filter_iff (fun p : nat * F => ~ notnan p.2 = true)
                  (fun p : nat * F => fisnan p.2 = true) keyed
                  (fun p => notnan_complement p.2)) as Hcompl.
    rewrite <- Hcompl. apply filter_app_complement. }
  assert (final.*1 ≡ₚ seq 0 (length df)) as Hfinal_idx.
  { rewrite Hfinal. subst keyed. rewrite fst_zip by (by rewrite length_seq).
    subst items. by rewrite length_fmap. }
  destruct (take_rows_perm _ _ Hfinal_idx) as (ranked & Hranked & Hranked_perm).
  exists ranked. split; [|split; [done|]].
  - unfold sort_values_desc, nargsort_desc. fold items. fold keyed.
    fold keys. rewrite Hargsort. run_outcome.
    rewrite <- fmap_reverse. fold present.
    rewrite Hidx. run_outcome.
    rewrite <- fmap_reverse. fold missing. rewrite <- fmap_app. exact Hranked.
  - rewrite (keys_of_taken df ranked final); [|  |done].
    + subst final. rewrite fmap_app, fmap_reverse.
      apply StronglySorted_app_2.
      * intros x y _ Hy. left.
        apply list_elem_of_fmap in Hy as (p & -> & Hp).
        by apply list_elem_of_filter in Hp as [Hp _].
      * apply (StronglySorted_weaken (flip (fun x y => flt y x = false))).
        -- intros x y Hx _ Hxy. right. split; [|exact Hxy].
           rewrite elem_of_reverse in Hx.
           assert (x ∈ keys) as Hin.
           { rewrite <- Hkeys, <- Hpicks_perm. exact Hx. }
           subst keys. rewrite elem_of_reverse in Hin.
           apply list_elem_of_filter in Hin as [Hin _].
           unfold notnan in Hin. by destruct (fisnan x).
        -- by apply StronglySorted_reverse.
      * apply StronglySorted_all. intros x y _ Hy. left.
        apply list_elem_of_fmap in Hy as (p & -> & Hp).
        by apply list_elem_of_filter in Hp as [Hp _].
    + rewrite Hfinal. apply zip_seq_lookup.
Qed.
End RankingFacts.

(** ** NumPy's arg-quicksort sorts *)

(** *** The array of positions *)

Lemma at_lookup (tosort : list nat) (p : Z) :
  0 <= p < Z.of_nat (length tosort) ->
  tosort !! Z.to_nat p = Some (numpy.at_ tosort p).
Proof.
  intros Hp. unfold numpy.at_.
  destruct (lookup_lt_is_Some_2 tosort (Z.to_nat p)) as [i Hi]; [lia|].
  by rewrite Hi.
Qed.

Lemma length_store (tosort : list nat) (p : Z) (i : nat) :
  length (numpy.store tosort p i) = length tosort.
Proof. unfold numpy.store. apply length_insert. Qed.

Lemma at_store_eq (tosort : list nat) (p : Z) (i : nat) :
  0 <= p < Z.of_nat (length tosort) ->
  numpy.at_ (numpy.store tosort p i) p = i.
Proof.
  intros Hp. unfold numpy.at_, numpy.store.
  rewrite list_lookup_insert_eq by lia. done.
Qed.

Lemma at_store_ne (tosort : list nat) (p q : Z) (i : nat) :
  0 <= p -> 0 <= q -> p <> q ->
  numpy.at_ (numpy.store tosort p i) q = numpy.at_ tosort q.
Proof.
  intros Hp Hq Hpq. unfold numpy.at_, numpy.store.
  rewrite list_lookup_insert_ne by lia. done.
Qed.

Lemma store_at (tosort : list nat) (p : Z) :
  0 <= p < Z.of_nat (length tosort) ->
  numpy.store tosort p (numpy.at_ tosort p) = tosort.
Proof.
  intros Hp. unfold numpy.store. apply list_insert_id. by apply at_lookup.
Qed.

Lemma store_store (tosort : list nat) (p : Z) (i j : nat) :
  numpy.store (numpy.store tosort p i) p j = numpy.store tosort p j.
Proof. unfold numpy.store. apply list_insert_insert_eq. Qed.

Lemma store_commute (tosort : list nat) (p q : Z) (i j : nat) :
  0 <= p -> 0 <= q -> p <> q ->
  numpy.store (numpy.store tosort p i) q j
  = numpy.store (numpy.store tosort q j) p i.
Proof.
  intros Hp Hq Hpq. unfold numpy.store. apply list_insert_insert_ne. lia.
Qed.

Lemma length_swap (tosort : list nat) (p q : Z) :
  length (numpy.swap tosort p q) = length tosort.
Proof. unfold numpy.swap. by rewrite !length_store. Qed.

Lemma at_swap_l (tosort : list nat) (p q : Z) :
  0 <= p < Z.of_nat (length tosort) -> 0 <= q < Z.of_nat (length tosort) ->
  numpy.at_ (numpy.swap tosort p q) p = numpy.at_ tosort q.
Proof.
  intros Hp Hq. unfold numpy.swap.
  destruct (decide (p = q)) as [->|Hne].
  - by rewrite at_store_eq by (rewrite length_store; lia).
  - rewrite at_store_ne by lia. by rewrite at_store_eq.
Qed.

Lemma at_swap_r (tosort : list nat) (p q : Z) :
  0 <= p < Z.of_nat (length tosort) -> 0 <= q < Z.of_nat (length tosort) ->
  numpy.at_ (numpy.swap tosort p q) q = numpy.at_ tosort p.
Proof.
  intros Hp Hq. unfold numpy.swap.
  by rewrite at_store_eq by (rewrite length_store; lia).
Qed.

Lemma at_swap_other (tosort : list nat) (p q r : Z) :
  0 <= p -> 0 <= q -> 0 <= r -> r <> p -> r <> q ->
  numpy.at_ (numpy.swap tosort p q) r = numpy.at_ tosort r.
Proof.
  intros Hp Hq Hr Hrp Hrq. unfold numpy.swap.
  by rewrite !at_store_ne by lia.
Qed.

Lemma swap_Permutation (tosort : list nat) (p q : Z) :
  0 <= p < Z.of_nat (length tosort) -> 0 <= q < Z.of_nat (length tosort) ->
  numpy.swap tosort p q ≡ₚ tosort.
Proof.
  intros Hp Hq. unfold numpy.swap, numpy.store.
  pose proof (at_lookup tosort p Hp) as Hlp.
  pose proof (at_lookup tosort q Hq) as Hlq.
  destruct (decide (p = q)) as [->|Hne].
  - rewrite list_insert_insert_eq, list_insert_id; done.
  - symmetry. apply Permutation_inj. split; [by rewrite !length_insert|].
    exists (fun k => if decide (k = Z.to_nat p) then Z.to_nat q
                     else if decide (k = Z.to_nat q) then Z.to_nat p else k).
    split.
    + intros a b Hab. repeat case_decide; lia.
    + intros k. repeat case_decide; subst.
      * rewrite list_lookup_insert_eq by (rewrite length_insert; lia). done.
      * rewrite list_lookup_insert_ne by lia.
        rewrite list_lookup_insert_eq by lia. done.
      * by rewrite !list_lookup_insert_ne by lia.
Qed.

(** *** Rearrangements *)

Lemma rearranged_length (pl pr : Z) (t t' : list nat) :
  rearranged pl pr t t' -> length t' = length t.
Proof.
  induction 1 as [|t t' p q _ _ _ _ _ IH]; [done|].
  by rewrite IH, length_swap.
Qed.

Lemma rearranged_Permutation (pl pr : Z) (t t' : list nat) :
  rearranged pl pr t t' -> t' ≡ₚ t.
Proof.
  induction 1 as [|t t' p q _ _ Hp Hq _ IH]; [done|].
  rewrite IH. by apply swap_Permutation.
Qed.

Lemma rearranged_outside (pl pr : Z) (t t' : list nat) (r : Z) :
  rearranged pl pr t t' -> 0 <= r -> r < pl \/ pr < r ->
  numpy.at_ t' r = numpy.at_ t r.
Proof.
  intros Hre Hr Hout.
  induction Hre as [|t t' p q Hp Hq Hp' Hq' _ IH]; [done|].
  rewrite IH. apply at_swap_other; lia.
Qed.

Lemma rearranged_trans (pl pr : Z) (t1 t2 t3 : list nat) :
  rearranged pl pr t1 t2 -> rearranged pl pr t2 t3 -> rearranged pl pr t1 t3.
Proof.
  induction 1 as [|t t' p q Hp Hq Hp' Hq' _ IH]; [done|].
  intros H23. apply (rearranged_swap pl pr t t3 p q); auto.
Qed.

Lemma rearranged_one (pl pr : Z) (t : list nat) (p q : Z) :
  pl <= p <= pr -> pl <= q <= pr ->
  0 <= p < Z.of_nat (length t) -> 0 <= q < Z.of_nat (length t) ->
  rearranged pl pr t (numpy.swap t p q).
Proof.
  intros. apply (rearranged_swap pl pr t _ p q); auto. apply rearranged_refl.
Qed.

Lemma rearranged_widen (pl pr pl' pr' : Z) (t t' : list nat) :
  pl' <= pl -> pr <= pr' -> rearranged pl pr t t' -> rearranged pl' pr' t t'.
Proof.
  intros Hl Hr. induction 1 as [|t t' p q Hp Hq Hp' Hq' _ IH].
  - apply rearranged_refl.
  - apply (rearranged_swap pl' pr' t t' p q); [lia..|exact IH].
Qed.

(** What stands between [pl] and [pr] afterwards stood there before. *)
Lemma rearranged_inside (pl pr : Z) (t t' : list nat) (P : nat -> Prop) :
  rearranged pl pr t t' ->
  (forall q, pl <= q <= pr -> 0 <= q < Z.of_nat (length t) ->
             P (numpy.at_ t q)) ->
  forall q, pl <= q <= pr -> 0 <= q < Z.of_nat (length t) ->
            P (numpy.at_ t' q).
Proof.
  induction 1 as [|t t' p q' Hp Hq Hp' Hq' _ IH]; [done|].
  intros HP q Hq1 Hq2. apply IH; [|done|by rewrite length_swap].
  clear q Hq1 Hq2. intros q Hq1 Hq2. rewrite length_swap in Hq2.
  destruct (decide (q = p)) as [->|Hnp]; [rewrite at_swap_l by done; auto|].
  destruct (decide (q = q')) as [->|Hnq]; [rewrite at_swap_r by done; auto|].
  rewrite at_swap_other by lia. auto.
Qed.

(** Every entry is a position of a key. *)
Lemma rearranged_valid (pl pr : Z) (t t' : list nat) (n : nat) :
  rearranged pl pr t t' ->
  Forall (fun i => (i < n)%nat) t -> Forall (fun i => (i < n)%nat) t'.
Proof. intros Hre%rearranged_Permutation Hvalid. by rewrite Hre. Qed.

Lemma valid_at (t : list nat) (n : nat) (p : Z) :
  Forall (fun i => (i < n)%nat) t -> 0 <= p < Z.of_nat (length t) ->
  (numpy.at_ t p < n)%nat.
Proof.
  intros Hvalid Hp. rewrite Forall_forall in Hvalid. apply Hvalid.
  apply list_elem_of_lookup. eexists. by apply at_lookup.
Qed.

Section ArgsortSorts.
Context `{Arith F}.
Variable v : list F.

(** The keys are compared by a strict weak order: [less] is asymmetric,
    and "not less" is transitive. *)
Hypothesis less_asym : forall i j,
  numpy.less_idx v i j = true -> numpy.less_idx v j i = false.
Hypothesis less_negtrans : forall i j k,
  (j < length v)%nat ->
  numpy.less_idx v j i = false -> numpy.less_idx v k j = false ->
  numpy.less_idx v k i = false.

Local Notation "i ⪯ j" := (numpy.less_idx v j i = false) (at level 70).
Local Abbreviation valid := (Forall (fun i => (i < length v)%nat)).

Lemma le_refl (i : nat) : i ⪯ i.
Proof.
  destruct (numpy.less_idx v i i) eqn:Hi; [|done].
  pose proof (less_asym _ _ Hi). congruence.
Qed.

Lemma le_trans (i j k : nat) : (j < length v)%nat -> i ⪯ j -> j ⪯ k -> i ⪯ k.
Proof. intros Hj Hij Hjk. by apply (less_negtrans i j k). Qed.

(** *** The partition *)

Lemma scan_up_spec (fuel : nat) (t : list nat) (ip : nat) (pi s : Z) :
  pi < s -> s - pi <= Z.of_nat fuel ->
  numpy.less_idx v (numpy.at_ t s) ip = false ->
  pi < numpy.scan_up v fuel t ip pi <= s /\
  numpy.less_idx v (numpy.at_ t (numpy.scan_up v fuel t ip pi)) ip = false /\
  forall q, pi < q < numpy.scan_up v fuel t ip pi ->
            numpy.less_idx v (numpy.at_ t q) ip = true.
Proof.
  revert pi. induction fuel as [|fuel IH]; intros pi Hlt Hfuel Hs; [lia|].
  cbn [numpy.scan_up].
  destruct (numpy.less_idx v (numpy.at_ t (pi + 1)) ip) eqn:Hless.
  - assert (pi + 1 <> s) as Hne by (intros <-; congruence).
    destruct (IH (pi + 1)) as (Hrange & Hstop & Hbelow); [lia..|done|].
    split; [lia|]. split; [done|].
    intros q Hq. destruct (decide (q = pi + 1)) as [->|]; [done|].
    apply Hbelow. lia.
  - split; [lia|]. split; [done|]. intros q Hq. lia.
Qed.

Lemma scan_down_spec (fuel : nat) (t : list nat) (ip : nat) (pj s : Z) :
  s < pj -> pj - s <= Z.of_nat fuel ->
  numpy.less_idx v ip (numpy.at_ t s) = false ->
  s <= numpy.scan_down v fuel t ip pj < pj /\
  numpy.less_idx v ip (numpy.at_ t (numpy.scan_down v fuel t ip pj)) = false /\
  forall q, numpy.scan_down v fuel t ip pj < q < pj ->
            numpy.less_idx v ip (numpy.at_ t q) = true.
Proof.
  revert pj. induction fuel as [|fuel IH]; intros pj Hlt Hfuel Hs; [lia|].
  cbn [numpy.scan_down].
  destruct (numpy.less_idx v ip (numpy.at_ t (pj - 1))) eqn:Hless.
  - assert (pj - 1 <> s) as Hne by (intros <-; congruence).
    destruct (IH (pj - 1)) as (Hrange & Hstop & Habove); [lia..|done|].
    split; [lia|]. split; [done|].
    intros q Hq. destruct (decide (q = pj - 1)) as [->|]; [done|].
    apply Habove. lia.
  - split; [lia|]. split; [done|]. intros q Hq. lia.
Qed.

Lemma partition_loop_eq (fuel : nat) (t : list nat) (ip : nat) (pi pj : Z) :
  numpy.partition_loop v fuel t ip pi pj
  = let pi' := numpy.scan_up v (length t) t ip pi in
    let pj' := numpy.scan_down v (length t) t ip pj in
    match fuel with
    | O => (t, pi')
    | S fuel =>
        if pj' <=? pi' then (t, pi')
        else numpy.partition_loop v fuel (numpy.swap t pi' pj') ip pi' pj'
    end.
Proof. by destruct fuel. Qed.

Lemma partition_loop_spec (fuel : nat) (t : list nat) (ip : nat)
    (pl pr pi pj : Z) :
  valid t -> (ip < length v)%nat ->
  0 <= pl <= pi -> pi < pj -> pj <= pr -> pr < Z.of_nat (length t) ->
  pj - pi <= Z.of_nat fuel ->
  (forall q, pl <= q <= pi -> numpy.at_ t q ⪯ ip) ->
  (forall q, pj <= q <= pr -> ip ⪯ numpy.at_ t q) ->
  exists t' pi',
    numpy.partition_loop v fuel t ip pi pj = (t', pi') /\
    rearranged (pi + 1) (pj - 1) t t' /\
    pi < pi' <= pj /\
    (forall q, pl <= q < pi' -> numpy.at_ t' q ⪯ ip) /\
    (forall q, pi' <= q <= pr -> ip ⪯ numpy.at_ t' q).
Proof.
  revert t pi pj.
  induction fuel as [|fuel IH];
    intros t pi pj Hvalid Hip Hpl Hlt Hpj Hpr Hfuel Hleft Hright; [lia|].
  rewrite partition_loop_eq. cbv zeta.
  destruct (scan_up_spec (length t) t ip pi pj) as (Hi & Hi_stop & Hi_below);
    [lia|lia|apply Hright; lia|].
  destruct (scan_down_spec (length t) t ip pj pi) as (Hj & Hj_stop & Hj_above);
    [lia|lia|apply Hleft; lia|].
  set (pi' := numpy.scan_up v (length t) t ip pi) in *.
  set (pj' := numpy.scan_down v (length t) t ip pj) in *.
  assert (forall q, pl <= q < pi' -> numpy.at_ t q ⪯ ip) as Hleft'.
  { intros q Hq. destruct (decide (q <= pi)); [apply Hleft; lia|].
    apply less_asym, Hi_below. lia. }
  assert (forall q, pj' < q <= pr -> ip ⪯ numpy.at_ t q) as Hright'.
  { intros q Hq. destruct (decide (pj <= q)); [apply Hright; lia|].
    apply less_asym, Hj_above. lia. }
  destruct (pj' <=? pi') eqn:Hcmp.
  - apply Z.leb_le in Hcmp. exists t, pi'. split; [done|].
    split; [apply rearranged_refl|]. split; [lia|]. split; [done|].
    intros q Hq. destruct (decide (q = pi')) as [->|]; [done|].
    apply Hright'. lia.
  - apply Z.leb_gt in Hcmp.
    destruct (IH (numpy.swap t pi' pj') pi' pj') as (t' & pi'' & Heq & Hre & Hpi'' & HL & HR).
    + by rewrite swap_Permutation by lia.
    + done.
    + lia.
    + lia.
    + lia.
    + rewrite length_swap. lia.
    + lia.
    + intros q Hq. destruct (decide (q = pi')) as [->|].
      * rewrite at_swap_l by lia. done.
      * rewrite at_swap_other by lia. apply Hleft'. lia.
    + intros q Hq. destruct (decide (q = pj')) as [->|].
      * rewrite at_swap_r by lia. done.
      * rewrite at_swap_other by lia. apply Hright'. lia.
    + exists t', pi''. split; [done|]. split; [|split; [lia|done]].
      apply (rearranged_swap _ _ t t' pi' pj'); [lia..|].
      apply (rearranged_widen (pi' + 1) (pj' - 1)); [lia..|done].
Qed.

(** Exchanging two entries that stand in the wrong order. *)
Lemma order_pair (t : list nat) (pl pr p q : Z) :
  pl <= p <= pr -> pl <= q <= pr -> p <> q ->
  0 <= p < Z.of_nat (length t) -> 0 <= q < Z.of_nat (length t) ->
  let t' := if numpy.less_idx v (numpy.at_ t p) (numpy.at_ t q)
            then numpy.swap t p q else t in
  rearranged pl pr t t' /\
  numpy.less_idx v (numpy.at_ t' p) (numpy.at_ t' q) = false /\
  (forall r, 0 <= r -> r <> p -> r <> q -> numpy.at_ t' r = numpy.at_ t r) /\
  ((numpy.at_ t' p = numpy.at_ t p /\ numpy.at_ t' q = numpy.at_ t q) \/
   (numpy.at_ t' p = numpy.at_ t q /\ numpy.at_ t' q = numpy.at_ t p)).
Proof.
  intros Hp Hq Hne Hp' Hq'. cbv zeta.
  destruct (numpy.less_idx v (numpy.at_ t p) (numpy.at_ t q)) eqn:Hless.
  - split; [by apply rearranged_one|].
    rewrite at_swap_l, at_swap_r by done.
    split; [by apply less_asym|].
    split; [intros r Hr Hrp Hrq; by rewrite at_swap_other by lia|].
    by right.
  - split; [apply rearranged_refl|]. split; [done|]. split; [done|]. by left.
Qed.

Lemma partition_spec (t : list nat) (pl pr : Z) :
  valid t -> 0 <= pl -> 16 < pr - pl -> pr < Z.of_nat (length t) ->
  exists t' pi,
    numpy.partition v t pl pr = (t', pi) /\
    rearranged pl pr t t' /\
    pl <= pi <= pr /\
    (forall q, pl <= q < pi -> numpy.at_ t' q ⪯ numpy.at_ t' pi) /\
    (forall q, pi < q <= pr -> numpy.at_ t' pi ⪯ numpy.at_ t' q).
Proof.
  intros Hvalid Hpl Hsize Hpr. unfold numpy.partition.
  set (pm := pl + Z.shiftr (pr - pl) 1).
  assert (pl + 8 <= pm <= pr - 8) as Hpm.
  { subst pm. rewrite Z.shiftr_div_pow2 by lia. change (2 ^ 1) with 2.
    pose proof (Z.div_mod (pr - pl) 2 ltac:(lia)).
    pose proof (Z.mod_pos_bound (pr - pl) 2 ltac:(lia)). lia. }
  (* median of three *)
  destruct (order_pair t pl pr pm pl) as (Hre1 & Hord1 & Hoth1 & Hval1);
    [lia..|].
  set (t1 := if numpy.less_idx v (numpy.at_ t pm) (numpy.at_ t pl)
             then numpy.swap t pm pl else t) in *.
  pose proof (rearranged_length _ _ _ _ Hre1) as Hlen1.
  destruct (order_pair t1 pl pr pr pm) as (Hre2 & Hord2 & Hoth2 & Hval2);
    [lia..|].
  set (t2 := if numpy.less_idx v (numpy.at_ t1 pr) (numpy.at_ t1 pm)
             then numpy.swap t1 pr pm else t1) in *.
  pose proof (rearranged_length _ _ _ _ Hre2) as Hlen2.
  destruct (order_pair t2 pl pr pm pl) as (Hre3 & Hord3 & Hoth3 & Hval3);
    [lia..|].
  set (t3 := if numpy.less_idx v (numpy.at_ t2 pm) (numpy.at_ t2 pl)
             then numpy.swap t2 pm pl else t2) in *.
  pose proof (rearranged_length _ _ _ _ Hre3) as Hlen3.
  assert (rearranged pl pr t t3) as Hre
    by (eapply rearranged_trans; [|exact Hre3];
        eapply rearranged_trans; [exact Hre1|exact Hre2]).
  assert (valid t1) as Hvalid1 by (by eapply rearranged_valid).
  assert (valid t2) as Hvalid2 by (by eapply rearranged_valid).
  assert (valid t3) as Hvalid3 by (by eapply rearranged_valid).
  assert (numpy.at_ t3 pm ⪯ numpy.at_ t3 pr) as Hord_r.
  { rewrite (Hoth3 pr) by lia.
    destruct Hval3 as [[-> _]|[-> _]]; [exact Hord2|].
    rewrite (Hoth2 pl) by lia.
    destruct Hval2 as [[Hpr2 Hpm2]|[Hpr2 Hpm2]].
    - rewrite Hpr2, Hpm2 in Hord2. rewrite Hpr2.
      apply (le_trans _ (numpy.at_ t1 pm)); [|exact Hord1|exact Hord2].
      apply valid_at; [done|lia].
    - rewrite Hpr2. exact Hord1. }
  clearbody t1 t2 t3. clear Hval1 Hval2 Hval3 Hoth1 Hoth2 Hoth3 Hord1 Hord2.
  clear Hre1 Hre2 Hre3.
  set (ip := numpy.at_ t3 pm) in *.
  assert (ip < length v)%nat as Hip by (apply valid_at; [done|lia]).
  set (t4 := numpy.swap t3 pm (pr - 1)).
  assert (length t4 = length t) as Hlen4 by (subst t4; rewrite length_swap; lia).
  assert (numpy.at_ t4 (pr - 1) = ip) as Hpivot
    by (subst t4; rewrite at_swap_r by lia; done).
  assert (numpy.at_ t4 pl = numpy.at_ t3 pl) as H4l
    by (subst t4; rewrite at_swap_other by lia; done).
  assert (numpy.at_ t4 pr = numpy.at_ t3 pr) as H4r
    by (subst t4; rewrite at_swap_other by lia; done).
  destruct (partition_loop_spec (length t4) t4 ip pl pr pl (pr - 1))
    as (t5 & pi & Heq & Hre5 & Hpi & HL & HR).
  { subst t4. by rewrite swap_Permutation by lia. }
  { done. }
  { lia. }
  { lia. }
  { lia. }
  { lia. }
  { lia. }
  { intros q Hq. replace q with pl by lia. by rewrite H4l. }
  { intros q Hq. destruct (decide (q = pr - 1)) as [->|].
    - rewrite Hpivot. apply le_refl.
    - replace q with pr by lia. by rewrite H4r. }
  rewrite Heq.
  pose proof (rearranged_length _ _ _ _ Hre5) as Hlen5.
  assert (numpy.at_ t5 (pr - 1) = ip) as Hpivot5.
  { rewrite <- Hpivot. apply (rearranged_outside _ _ _ _ _ Hre5); lia. }
  exists (numpy.swap t5 pi (pr - 1)), pi. split; [done|].
  split; [|split; [lia|split]].
  - eapply rearranged_trans; [exact Hre|].
    apply (rearranged_swap _ _ t3 _ pm (pr - 1)); [lia..|]. fold t4.
    eapply rearranged_trans.
    + apply (rearranged_widen (pl + 1) (pr - 1 - 1)); [lia..|exact Hre5].
    + apply rearranged_one; lia.
  - intros q Hq. rewrite at_swap_l, Hpivot5 by lia.
    rewrite at_swap_other by lia. apply HL. lia.
  - intros q Hq. rewrite at_swap_l, Hpivot5 by lia.
    destruct (decide (q = pr - 1)) as [->|].
    + rewrite at_swap_r by lia. apply HR. lia.
    + rewrite at_swap_other by lia. apply HR. lia.
Qed.

(** *** Insertion sort

    The entry being inserted travels down through a hole; with the entry
    written into the hole, each step of the loop exchanges two
    neighbours. *)

Lemma hole_moves (t : list nat) (h j : Z) (x : nat) :
  0 <= h < Z.of_nat (length t) -> 0 <= j < Z.of_nat (length t) -> h <> j ->
  numpy.store (numpy.store t h (numpy.at_ t j)) j x
  = numpy.swap (numpy.store t h x) j h.
Proof.
  intros Hh Hj Hne. unfold numpy.swap.
  rewrite at_store_eq by lia. rewrite at_store_ne by lia.
  rewrite (store_commute (numpy.store t h x) j h) by lia.
  rewrite store_store. done.
Qed.

Lemma insert_down_spec (fuel : nat) (t : list nat) (pl pj pi : Z) (vi : nat) :
  0 <= pl <= pj -> pj <= pi -> pi < Z.of_nat (length t) ->
  pj - pl <= Z.of_nat fuel ->
  valid (numpy.store t pj vi) ->
  (forall a b, pl <= a -> a < b -> b <= pi -> b <> pj ->
     numpy.at_ (numpy.store t pj vi) a ⪯ numpy.at_ (numpy.store t pj vi) b) ->
  rearranged pl pi (numpy.store t pj vi) (numpy.insert_down v fuel t pl vi pj) /\
  ordered v pl pi (numpy.insert_down v fuel t pl vi pj).
Proof.
  revert t pj.
  induction fuel as [|fuel IH]; intros t pj Hpl Hpj Hpi Hfuel Hvalid Hinv.
  { cbn [numpy.insert_down]. split; [apply rearranged_refl|].
    intros a b Ha Hab Hb. apply Hinv; lia. }
  cbn [numpy.insert_down].
  set (u := numpy.store t pj vi) in *.
  assert (length u = length t) as Hlen by apply length_store.
  assert (numpy.at_ u pj = vi) as Hhole by (apply at_store_eq; lia).
  destruct (pl <? pj) eqn:Hlt; cbn [andb].
  - apply Z.ltb_lt in Hlt.
    assert (numpy.at_ u (pj - 1) = numpy.at_ t (pj - 1)) as Hprev
      by (apply at_store_ne; lia).
    destruct (numpy.less_idx v vi (numpy.at_ t (pj - 1))) eqn:Hless.
    + pose proof (hole_moves t pj (pj - 1) vi ltac:(lia) ltac:(lia) ltac:(lia))
        as Hmove. fold u in Hmove.
      destruct (IH (numpy.store t pj (numpy.at_ t (pj - 1))) (pj - 1))
        as [Hre Hord].
      * lia.
      * lia.
      * rewrite length_store. lia.
      * lia.
      * rewrite Hmove. by rewrite swap_Permutation by lia.
      * rewrite Hmove. intros a b Ha Hab Hb Hne.
        destruct (decide (b = pj)) as [->|Hbj].
        -- rewrite at_swap_r by lia.
           destruct (decide (a = pj - 1)) as [->|Haj].
           ++ rewrite at_swap_l by lia. rewrite Hhole, Hprev.
              by apply less_asym.
           ++ rewrite at_swap_other by lia. apply Hinv; lia.
        -- rewrite (at_swap_other u _ _ b) by lia.
           destruct (decide (a = pj)) as [->|Haj].
           ++ rewrite at_swap_r by lia. apply Hinv; lia.
           ++ destruct (decide (a = pj - 1)) as [->|Haj'].
              ** rewrite at_swap_l by lia. apply Hinv; lia.
              ** rewrite at_swap_other by lia. apply Hinv; lia.
      * rewrite Hmove in Hre. split; [|done].
        apply (rearranged_swap _ _ u _ (pj - 1) pj); [lia..|done].
    + split; [apply rearranged_refl|].
      intros a b Ha Hab Hb.
      destruct (decide (b = pj)) as [->|Hbj]; [|apply Hinv; lia].
      assert (numpy.at_ u (pj - 1) ⪯ numpy.at_ u pj) as Hstop
        by (by rewrite Hhole, Hprev).
      destruct (decide (a = pj - 1)) as [->|Haj]; [done|].
      apply (le_trans _ (numpy.at_ u (pj - 1))); [|apply Hinv; lia|done].
      apply valid_at; [done|lia].
  - apply Z.ltb_ge in Hlt. split; [apply rearranged_refl|].
    intros a b Ha Hab Hb. apply Hinv; lia.
Qed.

Lemma insertion_loop_spec (k : nat) (t : list nat) (pl start : Z) :
  0 <= pl < start -> start + Z.of_nat k <= Z.of_nat (length t) ->
  valid t -> ordered v pl (start - 1) t ->
  let t' :=
    foldl (fun tosort pi =>
             numpy.insert_down v (length tosort) tosort pl
               (numpy.at_ tosort pi) pi)
          t (seqZ start (Z.of_nat k)) in
  rearranged pl (start + Z.of_nat k - 1) t t' /\
  ordered v pl (start + Z.of_nat k - 1) t'.
Proof.
  revert t start. induction k as [|k IH]; intros t start Hpl Hlen Hvalid Hord.
  { cbv zeta. cbn [seqZ foldl Z.of_nat]. split; [apply rearranged_refl|].
    intros a b Ha Hab Hb. apply Hord; lia. }
  cbv zeta. rewrite seqZ_cons by lia. cbn [foldl].
  replace (Z.pred (Z.of_nat (S k))) with (Z.of_nat k) by lia.
  replace (Z.succ start) with (start + 1) by lia.
  pose proof (store_at t start ltac:(lia)) as Hu.
  destruct (insert_down_spec (length t) t pl start start (numpy.at_ t start))
    as [Hre1 Hord1]; [lia..| | |].
  { by rewrite Hu. }
  { rewrite Hu. intros a b Ha Hab Hb Hne. apply Hord; lia. }
  rewrite Hu in Hre1.
  set (t1 := numpy.insert_down v (length t) t pl (numpy.at_ t start) start) in *.
  destruct (IH t1 (start + 1)) as [Hre2 Hord2].
  - lia.
  - rewrite (rearranged_length _ _ _ _ Hre1). lia.
  - by eapply rearranged_valid.
  - by replace (start + 1 - 1) with start by lia.
  - cbv zeta in Hre2, Hord2.
    replace (start + 1 + Z.of_nat k - 1) with (start + Z.of_nat (S k) - 1)
      in Hre2, Hord2 by lia.
    split; [|done].
    eapply rearranged_trans; [|exact Hre2].
    apply (rearranged_widen pl start); [lia..|done].
Qed.

Lemma insertion_sort_spec (t : list nat) (pl pr : Z) :
  0 <= pl -> pl - 1 <= pr -> pr < Z.of_nat (length t) -> valid t ->
  rearranged pl pr t (numpy.insertion_sort v t pl pr) /\
  ordered v pl pr (numpy.insertion_sort v t pl pr).
Proof.
  intros Hpl Hsize Hpr Hvalid. unfold numpy.insertion_sort.
  destruct (decide (pr = pl - 1)) as [->|Hne].
  { rewrite seqZ_nil by lia. cbn [foldl]. split; [apply rearranged_refl|].
    intros a b Ha Hab Hb. lia. }
  destruct (insertion_loop_spec (Z.to_nat (pr - pl)) t pl (pl + 1))
    as [Hre Hord]; [lia..|done| |].
  { intros a b Ha Hab Hb. lia. }
  cbv zeta in Hre, Hord. rewrite Z2Nat.id in Hre, Hord by lia.
  replace (pl + 1 + (pr - pl) - 1) with pr in Hre, Hord by lia.
  done.
Qed.

(** *** Heapsort *)

Lemma sift_spec (fuel : nat) (t : list nat) (pl l n i : Z) (tmp : nat) :
  0 <= pl -> pl + n <= Z.of_nat (length t) -> 1 <= l <= i -> i <= n ->
  n - i < Z.of_nat fuel ->
  valid (numpy.store t (pl + i - 1) tmp) ->
  (forall k c, l <= k -> k <> i -> 2 * k <= c <= 2 * k + 1 -> c <= n ->
     numpy.at_ (numpy.store t (pl + i - 1) tmp) (pl + c - 1)
     ⪯ numpy.at_ (numpy.store t (pl + i - 1) tmp) (pl + k - 1)) ->
  (forall p c, l <= p -> 2 * p <= i <= 2 * p + 1 ->
     2 * i <= c <= 2 * i + 1 -> c <= n ->
     numpy.at_ (numpy.store t (pl + i - 1) tmp) (pl + c - 1)
     ⪯ numpy.at_ (numpy.store t (pl + i - 1) tmp) (pl + p - 1)) ->
  rearranged pl (pl + n - 1) (numpy.store t (pl + i - 1) tmp)
    (numpy.sift v fuel t pl n tmp i (i + i)) /\
  heap_from v pl l n (numpy.sift v fuel t pl n tmp i (i + i)).
Proof.
  revert t i.
  induction fuel as [|fuel IH];
    intros t i Hpl Hn Hl Hi Hfuel Hvalid Hheap Hparent; [lia|].
  cbn [numpy.sift].
  set (u := numpy.store t (pl + i - 1) tmp) in *.
  assert (length u = length t) as Hlen by apply length_store.
  assert (numpy.at_ u (pl + i - 1) = tmp) as Hhole by (apply at_store_eq; lia).
  assert (forall c, c <> i -> 1 <= c ->
            numpy.at_ u (pl + c - 1) = numpy.at_ t (pl + c - 1)) as Hother
    by (intros c Hc Hc'; apply at_store_ne; lia).
  destruct (i + i <=? n) eqn:Hchild.
  2:{ apply Z.leb_gt in Hchild. split; [apply rearranged_refl|].
      intros k c Hk Hc Hcn. destruct (decide (k = i)) as [->|]; [lia|].
      by apply Hheap. }
  apply Z.leb_le in Hchild.
  set (j := if (i + i <? n) &&
               numpy.less_idx v (numpy.at_ t (pl + (i + i) - 1))
                                (numpy.at_ t (pl + (i + i)))
            then i + i + 1 else i + i).
  assert (2 * i <= j <= 2 * i + 1 /\ j <= n /\
          forall c, 2 * i <= c <= 2 * i + 1 -> c <= n ->
                    numpy.at_ u (pl + c - 1) ⪯ numpy.at_ u (pl + j - 1))
    as (Hj & Hjn & Hmax).
  { subst j. destruct (i + i <? n) eqn:Hlt; cbn [andb].
    - apply Z.ltb_lt in Hlt.
      destruct (numpy.less_idx v _ _) eqn:Hless.
      + split; [lia|]. split; [lia|]. intros c Hc Hcn.
        destruct (decide (c = 2 * i + 1)) as [->|].
        * replace (pl + (i + i + 1) - 1) with (pl + (2 * i + 1) - 1) by lia.
          apply le_refl.
        * replace c with (i + i) by lia. rewrite !Hother by lia.
          replace (pl + (i + i + 1) - 1) with (pl + (i + i)) by lia.
          by apply less_asym.
      + split; [lia|]. split; [lia|]. intros c Hc Hcn.
        destruct (decide (c = 2 * i + 1)) as [->|].
        * rewrite !Hother by lia.
          replace (pl + (2 * i + 1) - 1) with (pl + (i + i)) by lia. done.
        * replace c with (i + i) by lia. apply le_refl.
    - apply Z.ltb_ge in Hlt. split; [lia|]. split; [lia|]. intros c Hc Hcn.
      replace c with (i + i) by lia. apply le_refl. }
  clearbody j.
  assert (numpy.at_ u (pl + j - 1) = numpy.at_ t (pl + j - 1)) as Hj_t
    by (apply Hother; lia).
  destruct (numpy.less_idx v tmp (numpy.at_ t (pl + j - 1))) eqn:Hless.
  - pose proof (hole_moves t (pl + i - 1) (pl + j - 1) tmp
                  ltac:(lia) ltac:(lia) ltac:(lia)) as Hmove.
    fold u in Hmove.
    destruct (IH (numpy.store t (pl + i - 1) (numpy.at_ t (pl + j - 1))) j)
      as [Hre Hheap'].
    + done.
    + rewrite length_store. lia.
    + lia.
    + lia.
    + lia.
    + rewrite Hmove. by rewrite swap_Permutation by lia.
    + rewrite Hmove. intros k c Hk Hkj Hc Hcn.
      destruct (decide (k = i)) as [->|Hki].
      * rewrite (at_swap_r u) by lia.
        destruct (decide (c = j)) as [->|Hcj].
        -- rewrite at_swap_l by lia. rewrite Hhole, Hj_t. by apply less_asym.
        -- rewrite at_swap_other by lia. by apply Hmax.
      * rewrite (at_swap_other u _ _ (pl + k - 1)) by lia.
        destruct (decide (c = i)) as [->|Hci].
        -- rewrite at_swap_r by lia. apply (Hparent k j); lia.
        -- rewrite at_swap_other by lia. by apply Hheap.
    + rewrite Hmove. intros p c Hp Hpj Hc Hcn.
      replace p with i by lia.
      rewrite at_swap_r by lia. rewrite at_swap_other by lia.
      apply Hheap; lia.
    + rewrite Hmove in Hre. split; [|done].
      apply (rearranged_swap _ _ u _ (pl + j - 1) (pl + i - 1)); [lia..|done].
  - split; [apply rearranged_refl|].
    intros k c Hk Hc Hcn. destruct (decide (k = i)) as [->|]; [|by apply Hheap].
    apply (le_trans _ (numpy.at_ u (pl + j - 1))).
    + apply valid_at; [done|lia].
    + by apply Hmax.
    + by rewrite Hhole, Hj_t.
Qed.

Lemma reverse_seqZ_S (a : Z) (m : nat) :
  reverse (seqZ a (Z.of_nat (S m)))
  = (a + Z.of_nat m) :: reverse (seqZ a (Z.of_nat m)).
Proof.
  replace (Z.of_nat (S m)) with (Z.of_nat m + 1) by lia.
  rewrite seqZ_app by lia. rewrite reverse_app.
  rewrite (seqZ_cons _ 1) by lia. rewrite seqZ_nil by lia. done.
Qed.

(** The root of a heap is not less than any of its entries. *)
Lemma heap_root_max (t : list nat) (pl m : Z) :
  0 <= pl -> pl + m <= Z.of_nat (length t) -> valid t ->
  heap_from v pl 1 m t ->
  forall k, 1 <= k <= m ->
    numpy.at_ t (pl + k - 1) ⪯ numpy.at_ t (pl + 1 - 1).
Proof.
  intros Hpl Hm Hvalid Hheap.
  assert (forall (d : nat) k, 1 <= k <= Z.of_nat d -> k <= m ->
            numpy.at_ t (pl + k - 1) ⪯ numpy.at_ t (pl + 1 - 1)) as Hind.
  { induction d as [|d IH]; intros k Hk Hkm; [lia|].
    destruct (decide (k = 1)) as [->|Hne]; [apply le_refl|].
    assert (exists p, 2 * p <= k <= 2 * p + 1) as [p Hp].
    { exists (k / 2). Z.div_mod_to_equations. lia. }
    apply (le_trans _ (numpy.at_ t (pl + p - 1))).
    - apply valid_at; [done|lia].
    - apply (Hheap p k); lia.
    - apply IH; lia. }
  intros k Hk. apply (Hind (Z.to_nat k)); lia.
Qed.

Lemma heap_build_spec (m fuel : nat) (t : list nat) (pl n : Z) :
  0 <= pl -> pl + n <= Z.of_nat (length t) -> valid t ->
  2 * Z.of_nat m <= n -> n <= Z.of_nat fuel ->
  heap_from v pl (Z.of_nat m + 1) n t ->
  let t' :=
    foldl (fun tosort l =>
             numpy.sift v fuel tosort pl n (numpy.at_ tosort (pl + l - 1))
               l (l + l))
          t (reverse (seqZ 1 (Z.of_nat m))) in
  rearranged pl (pl + n - 1) t t' /\ heap_from v pl 1 n t'.
Proof.
  revert t. induction m as [|m IH]; intros t Hpl Hn Hvalid Hm Hfuel Hheap.
  { cbv zeta. cbn [seqZ foldl Z.of_nat]. by split; [apply rearranged_refl|]. }
  cbv zeta. rewrite reverse_seqZ_S. cbn [foldl].
  set (l := 1 + Z.of_nat m).
  pose proof (store_at t (pl + l - 1) ltac:(lia)) as Hu.
  destruct (sift_spec fuel t pl l n l (numpy.at_ t (pl + l - 1)))
    as [Hre1 Hheap1]; [lia..| | | |].
  { by rewrite Hu. }
  { rewrite Hu. intros k c Hk Hkl Hc Hcn. apply (Hheap k c); lia. }
  { intros p c Hp Hpl' Hc Hcn. lia. }
  rewrite Hu in Hre1.
  set (t1 := numpy.sift v fuel t pl n (numpy.at_ t (pl + l - 1)) l (l + l)) in *.
  destruct (IH t1) as [Hre2 Hheap2].
  - done.
  - rewrite (rearranged_length _ _ _ _ Hre1). lia.
  - by eapply rearranged_valid.
  - lia.
  - done.
  - by replace (Z.of_nat m + 1) with l by lia.
  - split; [|done]. by eapply rearranged_trans.
Qed.

Lemma heap_extract_spec (m fuel : nat) (t : list nat) (pl n : Z) :
  0 <= pl -> pl + n <= Z.of_nat (length t) -> valid t ->
  Z.of_nat m + 1 <= n -> n <= Z.of_nat fuel ->
  heap_from v pl 1 (Z.of_nat m + 1) t ->
  (forall a b, 1 <= a -> a < b -> b <= n -> Z.of_nat m + 1 < b ->
     numpy.at_ t (pl + a - 1) ⪯ numpy.at_ t (pl + b - 1)) ->
  let t' :=
    foldl (fun tosort n =>
             let tmp := numpy.at_ tosort (pl + n - 1) in
             let tosort := numpy.store tosort (pl + n - 1) (numpy.at_ tosort pl) in
             numpy.sift v fuel tosort pl (n - 1) tmp 1 2)
          t (reverse (seqZ 2 (Z.of_nat m))) in
  rearranged pl (pl + n - 1) t t' /\ ordered v pl (pl + n - 1) t'.
Proof.
  revert t.
  induction m as [|m IH]; intros t Hpl Hn Hvalid Hm Hfuel Hheap Htail.
  { cbv zeta. cbn [seqZ foldl Z.of_nat]. split; [apply rearranged_refl|].
    intros p q Hp Hpq Hq.
    replace p with (pl + (p - pl + 1) - 1) by lia.
    replace q with (pl + (q - pl + 1) - 1) by lia.
    apply Htail; lia. }
  cbv zeta. rewrite reverse_seqZ_S. cbn [foldl].
  set (top := 2 + Z.of_nat m).
  set (tmp := numpy.at_ t (pl + top - 1)).
  set (t0 := numpy.store t (pl + top - 1) (numpy.at_ t pl)).
  assert (numpy.store t0 (pl + 1 - 1) tmp = numpy.swap t (pl + top - 1) pl)
    as Hu by (by replace (pl + 1 - 1) with pl by lia).
  set (u := numpy.swap t (pl + top - 1) pl) in *.
  assert (length u = length t) as Hlen by apply length_swap.
  assert (numpy.at_ u (pl + top - 1) = numpy.at_ t (pl + 1 - 1)) as Hu_top.
  { subst u. rewrite at_swap_l by lia. f_equal. lia. }
  assert (numpy.at_ u (pl + 1 - 1) = numpy.at_ t (pl + top - 1)) as Hu_root.
  { subst u. replace (pl + 1 - 1) with pl by lia. by rewrite at_swap_r by lia. }
  assert (forall c, 1 < c -> c <> top ->
            numpy.at_ u (pl + c - 1) = numpy.at_ t (pl + c - 1)) as Hu_other.
  { intros c Hc Hc'. subst u. apply at_swap_other; lia. }
  assert (valid u) as Hvalid_u by (subst u; by rewrite swap_Permutation by lia).
  destruct (sift_spec fuel t0 pl 1 (top - 1) 1 tmp) as [Hre1 Hheap1].
  - done.
  - subst t0. rewrite length_store. lia.
  - lia.
  - lia.
  - lia.
  - by rewrite Hu.
  - rewrite Hu. intros k c Hk Hk1 Hc Hcn.
    rewrite !Hu_other by lia. apply (Hheap k c); lia.
  - intros p c Hp Hp1 Hc Hcn. lia.
  - rewrite Hu in Hre1. change (1 + 1) with 2 in Hre1, Hheap1.
    set (t1 := numpy.sift v fuel t0 pl (top - 1) tmp 1 2) in *.
    pose proof (rearranged_length _ _ _ _ Hre1) as Hlen1.
    pose proof (heap_root_max t pl (Z.of_nat (S m) + 1) Hpl ltac:(lia)
                  Hvalid Hheap) as Hroot.
    assert (forall a, 1 <= a < top -> forall y : nat,
              (forall x, 1 <= x <= top ->
                 numpy.at_ t (pl + x - 1) ⪯ y) ->
              numpy.at_ t1 (pl + a - 1) ⪯ y) as Hinside.
    { intros a Ha y Hy.
      apply (rearranged_inside _ _ _ _ (fun x => x ⪯ y) Hre1); [|lia..].
      intros q Hq Hq'. replace q with (pl + (q - pl + 1) - 1) by lia.
      destruct (decide (q - pl + 1 = 1)) as [->|Hne].
      - rewrite Hu_root. apply Hy. lia.
      - rewrite Hu_other by lia. apply Hy. lia. }
    assert (forall b, top <= b <= n ->
              numpy.at_ t1 (pl + b - 1) = numpy.at_ u (pl + b - 1)) as Hout.
    { intros b Hb. apply (rearranged_outside _ _ _ _ _ Hre1); lia. }
    destruct (IH t1) as [Hre2 Hord2].
    + done.
    + lia.
    + by eapply rearranged_valid.
    + lia.
    + done.
    + by replace (Z.of_nat m + 1) with (top - 1) by lia.
    + intros a b Ha Hab Hb Hmb. rewrite (Hout b) by lia.
      destruct (decide (b = top)) as [->|Hbt].
      * rewrite Hu_top. apply Hinside; [lia|].
        intros x Hx. apply Hroot. lia.
      * rewrite (Hu_other b) by lia.
        destruct (decide (a < top)) as [Hat|Hat].
        -- apply Hinside; [lia|]. intros x Hx. apply Htail; lia.
        -- rewrite (Hout a) by lia.
           destruct (decide (a = top)) as [->|Hat'].
           ++ rewrite Hu_top. apply Htail; lia.
           ++ rewrite (Hu_other a) by lia. apply Htail; lia.
    + split; [|done].
      apply (rearranged_swap _ _ t _ (pl + top - 1) pl); [lia..|]. fold u.
      eapply rearranged_trans; [|exact Hre2].
      apply (rearranged_widen pl (pl + (top - 1) - 1)); [lia..|done].
Qed.

Lemma heapsort_spec (t : list nat) (pl n : Z) :
  0 <= pl -> 0 <= n -> pl + n <= Z.of_nat (length t) -> valid t ->
  rearranged pl (pl + n - 1) t (numpy.heapsort v t pl n) /\
  ordered v pl (pl + n - 1) (numpy.heapsort v t pl n).
Proof.
  intros Hpl Hn Hlen Hvalid. unfold numpy.heapsort.
  assert (0 <= Z.shiftr n 1 /\ 2 * Z.shiftr n 1 <= n < 2 * Z.shiftr n 1 + 2)
    as Hhalf.
  { rewrite Z.shiftr_div_pow2 by lia. change (2 ^ 1) with 2.
    Z.div_mod_to_equations. lia. }
  destruct (heap_build_spec (Z.to_nat (Z.shiftr n 1)) (length t) t pl n)
    as [Hre1 Hheap1]; [lia|lia|done|lia|lia| |].
  { intros k c Hk Hc Hcn. lia. }
  cbv zeta in Hre1, Hheap1. rewrite Z2Nat.id in Hre1, Hheap1 by lia.
  set (t1 := foldl _ t (reverse (seqZ 1 (Z.shiftr n 1)))) in *.
  destruct (decide (n = 0)) as [->|Hn0].
  { rewrite seqZ_nil by lia. cbn [reverse foldl]. split; [done|].
    intros p q Hp Hpq Hq. lia. }
  destruct (heap_extract_spec (Z.to_nat (n - 1)) (length t) t1 pl n)
    as [Hre2 Hord2].
  - done.
  - rewrite (rearranged_length _ _ _ _ Hre1). lia.
  - by eapply rearranged_valid.
  - lia.
  - lia.
  - by replace (Z.of_nat (Z.to_nat (n - 1)) + 1) with n by lia.
  - intros a b Ha Hab Hb Hnb. lia.
  - cbv zeta in Hre2, Hord2. rewrite Z2Nat.id in Hre2, Hord2 by lia.
    split; [|done]. by eapply rearranged_trans.
Qed.

(** *** The driver *)

Lemma run_eq (fuel : nat) (t : list nat) (pl pr : Z)
    (stack : list (Z * Z * Z)) (cdepth : Z) (partitioning : bool) :
  numpy.run v (S fuel) t pl pr stack cdepth partitioning
  = let pop (t : list nat) :=
      match stack with
      | [] => Ret t
      | (pl, pr, cdepth) :: stack =>
          match fuel with
          | O => OutOfFuel
          | S fuel => numpy.run v fuel t pl pr stack cdepth false
          end
      end in
    if negb partitioning && (cdepth <? 0) then
      pop (numpy.heapsort v t pl (pr - pl + 1))
    else if 16 <? pr - pl then
      let '(t, pi) := numpy.partition v t pl pr in
      if pi - pl <? pr - pi
      then numpy.run v fuel t pl (pi - 1)
             ((pi + 1, pr, cdepth - 1) :: stack) (cdepth - 1) true
      else numpy.run v fuel t (pi + 1) pr
             ((pl, pi - 1, cdepth - 1) :: stack) (cdepth - 1) true
    else pop (numpy.insertion_sort v t pl pr).
Proof. reflexivity. Qed.

Lemma rounds_needed_nonneg (t : list nat) (pending : list (Z * Z)) :
  Forall (fun r => 0 <= r.1 /\ r.1 - 1 <= r.2 /\
                   r.2 < Z.of_nat (length t)) pending ->
  0 <= rounds_needed pending.
Proof.
  induction 1 as [|r rest Hr _ IH]; [done|]. cbn [rounds_needed foldr].
  fold (rounds_needed rest). lia.
Qed.

(** Once a pending range is sorted it is no longer pending. *)
Lemma pending_ranges_sorted (t t' : list nat) (pl pr : Z)
    (rest : list (Z * Z)) :
  valid t ->
  pending_ranges v t ((pl, pr) :: rest) ->
  rearranged pl pr t t' -> ordered v pl pr t' ->
  pending_ranges v t' rest.
Proof.
  intros Hvalid (Hwf & [Hdisj Hdisj'] & Hpairs) Hre Hord.
  pose proof (rearranged_length _ _ _ _ Hre) as Hlen.
  apply Forall_cons in Hwf as [Hwf0 Hwf]. cbn [fst snd] in Hwf0, Hdisj.
  assert (forall p q, 0 <= p -> p < q -> q < Z.of_nat (length t) ->
            pl <= p <= pr -> ~ pl <= q <= pr ->
            numpy.at_ t p ⪯ numpy.at_ t q) as Hinner_l.
  { intros p q Hp Hpq Hq Hin Hout.
    destruct (Hpairs p q Hp Hpq Hq) as [Hle|Hex]; [done|].
    apply Exists_cons in Hex as [Hex|Hex]; [cbn in Hex; lia|].
    rewrite Exists_exists in Hex. destruct Hex as (r & Hr & Hrp).
    rewrite Forall_forall in Hdisj. specialize (Hdisj r Hr). lia. }
  assert (forall p q, 0 <= p -> p < q -> q < Z.of_nat (length t) ->
            ~ pl <= p <= pr -> pl <= q <= pr ->
            numpy.at_ t p ⪯ numpy.at_ t q) as Hinner_r.
  { intros p q Hp Hpq Hq Hout Hin.
    destruct (Hpairs p q Hp Hpq Hq) as [Hle|Hex]; [done|].
    apply Exists_cons in Hex as [Hex|Hex]; [cbn in Hex; lia|].
    rewrite Exists_exists in Hex. destruct Hex as (r & Hr & Hrp).
    rewrite Forall_forall in Hdisj. specialize (Hdisj r Hr). lia. }
  split; [by rewrite Hlen|]. split; [done|].
  intros p q Hp Hpq Hq. rewrite Hlen in Hq.
  destruct (decide (pl <= p <= pr)) as [Hpin|Hpout];
    destruct (decide (pl <= q <= pr)) as [Hqin|Hqout].
  - left. apply Hord; lia.
  - left. rewrite (rearranged_outside _ _ _ _ q Hre) by lia.
    apply (rearranged_inside _ _ _ _ (fun x => x ⪯ numpy.at_ t q) Hre);
      [|lia..].
    intros p' Hp' Hp''. apply Hinner_l; lia.
  - left. rewrite (rearranged_outside _ _ _ _ p Hre) by lia.
    apply (rearranged_inside _ _ _ _ (fun x => numpy.at_ t p ⪯ x) Hre);
      [|lia..].
    intros q' Hq' Hq''. apply Hinner_r; lia.
  - rewrite (rearranged_outside _ _ _ _ p Hre) by lia.
    rewrite (rearranged_outside _ _ _ _ q Hre) by lia.
    destruct (Hpairs p q Hp Hpq Hq) as [Hle|Hex]; [by left|].
    apply Exists_cons in Hex as [Hex|Hex]; [cbn in Hex; lia|]. by right.
Qed.

(** A partitioned range is replaced by its two sides. *)
Lemma pending_ranges_partitioned (t t' : list nat) (pl pr pi : Z)
    (rest : list (Z * Z)) :
  valid t ->
  pending_ranges v t ((pl, pr) :: rest) ->
  rearranged pl pr t t' -> pl <= pi <= pr ->
  (forall q, pl <= q < pi -> numpy.at_ t' q ⪯ numpy.at_ t' pi) ->
  (forall q, pi < q <= pr -> numpy.at_ t' pi ⪯ numpy.at_ t' q) ->
  pending_ranges v t' ((pl, pi - 1) :: (pi + 1, pr) :: rest) /\
  pending_ranges v t' ((pi + 1, pr) :: (pl, pi - 1) :: rest).
Proof.
  intros Hvalid Hpending Hre Hpi Hleft Hright.
  pose proof (rearranged_length _ _ _ _ Hre) as Hlen.
  assert (valid t') as Hvalid' by (by eapply rearranged_valid).
  pose proof Hpending as (Hwf & [Hdisj Hdisj'] & Hpairs).
  apply Forall_cons in Hwf as [Hwf0 Hwf]. cbn [fst snd] in Hwf0, Hdisj.
  assert (pending_ranges v t' ((pl, pr) :: rest)) as (_ & _ & Hpairs').
  { (* the pairs of which one is outside the range are as before *)
    split; [by rewrite Hlen; apply Forall_cons|]. split; [done|].
    intros p q Hp Hpq Hq. rewrite Hlen in Hq.
    destruct (decide (pl <= p <= pr)) as [Hpin|Hpout];
      destruct (decide (pl <= q <= pr)) as [Hqin|Hqout].
    - right. apply Exists_cons. left. cbn. lia.
    - left. rewrite (rearranged_outside _ _ _ _ q Hre) by lia.
      apply (rearranged_inside _ _ _ _ (fun x => x ⪯ numpy.at_ t q) Hre);
        [|lia..].
      intros p' Hp' Hp''.
      destruct (Hpairs p' q ltac:(lia) ltac:(lia) Hq) as [Hle|Hex]; [done|].
      apply Exists_cons in Hex as [Hex|Hex]; [cbn in Hex; lia|].
      rewrite Exists_exists in Hex. destruct Hex as (r & Hr & Hrp).
      rewrite Forall_forall in Hdisj. specialize (Hdisj r Hr). lia.
    - left. rewrite (rearranged_outside _ _ _ _ p Hre) by lia.
      apply (rearranged_inside _ _ _ _ (fun x => numpy.at_ t p ⪯ x) Hre);
        [|lia..].
      intros q' Hq' Hq''.
      destruct (Hpairs p q' Hp ltac:(lia) ltac:(lia)) as [Hle|Hex]; [done|].
      apply Exists_cons in Hex as [Hex|Hex]; [cbn in Hex; lia|].
      rewrite Exists_exists in Hex. destruct Hex as (r & Hr & Hrp).
      rewrite Forall_forall in Hdisj. specialize (Hdisj r Hr). lia.
    - rewrite (rearranged_outside _ _ _ _ p Hre) by lia.
      rewrite (rearranged_outside _ _ _ _ q Hre) by lia.
      destruct (Hpairs p q Hp Hpq Hq) as [Hle|Hex]; [by left|].
      apply Exists_cons in Hex as [Hex|Hex]; [cbn in Hex; lia|].
      right. apply Exists_cons. by right. }
  assert (forall p q, 0 <= p -> p < q -> q < Z.of_nat (length t') ->
            numpy.at_ t' p ⪯ numpy.at_ t' q \/
            (pl <= p /\ q <= pi - 1) \/ (pi + 1 <= p /\ q <= pr) \/
            Exists (fun r => r.1 <= p /\ q <= r.2) rest) as Hnew.
  { intros p q Hp Hpq Hq.
    destruct (Hpairs' p q Hp Hpq Hq) as [Hle|Hex]; [by left|].
    apply Exists_cons in Hex as [Hex|Hex]; [|by right; right; right].
    cbn in Hex.
    destruct (decide (q < pi)); [right; left; lia|].
    destruct (decide (pi < p)); [right; right; left; lia|].
    left.
    destruct (decide (p = pi)) as [->|]; [apply Hright; lia|].
    destruct (decide (q = pi)) as [->|]; [apply Hleft; lia|].
    apply (le_trans _ (numpy.at_ t' pi)).
    - apply valid_at; [done|lia].
    - apply Hleft. lia.
    - apply Hright. lia. }
  assert (Forall (fun r' : Z * Z => pi - 1 < r'.1 \/ r'.2 < pl) rest) as Hd1.
  { eapply Forall_impl; [exact Hdisj|]. intros r Hr. cbn in Hr. lia. }
  assert (Forall (fun r' : Z * Z => pr < r'.1 \/ r'.2 < pi + 1) rest) as Hd2.
  { eapply Forall_impl; [exact Hdisj|]. intros r Hr. cbn in Hr. lia. }
  unfold pending_ranges. rewrite Hlen.
  split.
  - split; [|split].
    + repeat apply Forall_cons_2; [cbn; lia..|done].
    + cbn [disjoint_ranges fst snd]. split; [|by split].
      apply Forall_cons_2; [cbn; lia|done].
    + intros p q Hp Hpq Hq. rewrite <- Hlen in Hq.
      destruct (Hnew p q Hp Hpq Hq) as [Hle|[Hin|[Hin|Hex]]]; [by left|..].
      * right. apply Exists_cons. by left.
      * right. apply Exists_cons. right. apply Exists_cons. by left.
      * right. apply Exists_cons. right. apply Exists_cons. by right.
  - split; [|split].
    + repeat apply Forall_cons_2; [cbn; lia..|done].
    + cbn [disjoint_ranges fst snd]. split; [|by split].
      apply Forall_cons_2; [cbn; lia|done].
    + intros p q Hp Hpq Hq. rewrite <- Hlen in Hq.
      destruct (Hnew p q Hp Hpq Hq) as [Hle|[Hin|[Hin|Hex]]]; [by left|..].
      * right. apply Exists_cons. right. apply Exists_cons. by left.
      * right. apply Exists_cons. by left.
      * right. apply Exists_cons. right. apply Exists_cons. by right.
Qed.

Lemma run_spec (fuel : nat) (t : list nat) (pl pr : Z)
    (stack : list (Z * Z * Z)) (cdepth : Z) (partitioning : bool) :
  let pending :=
    (pl, pr) :: ((fun s : Z * Z * Z => (s.1.1, s.1.2)) <$> stack) in
  valid t -> pending_ranges v t pending ->
  rounds_needed pending <= Z.of_nat fuel ->
  exists t',
    numpy.run v fuel t pl pr stack cdepth partitioning = Ret t' /\
    t' ≡ₚ t /\ ordered v 0 (Z.of_nat (length t) - 1) t'.
Proof.
  cbv zeta. revert t pl pr stack cdepth partitioning.
  induction fuel as [fuel IH] using lt_wf_ind.
  intros t pl pr stack cdepth partitioning Hvalid Hpending Hfuel.
  pose proof Hpending as (Hwf & _ & _).
  apply Forall_cons in Hwf as [Hwf0 Hwf]. cbn [fst snd] in Hwf0.
  pose proof (rounds_needed_nonneg t _ Hwf) as Hrest.
  cbn [rounds_needed foldr fst snd] in Hfuel.
  fold (rounds_needed ((fun s : Z * Z * Z => (s.1.1, s.1.2)) <$> stack))
    in Hfuel.
  destruct fuel as [|fuel]; [lia|].
  (* a range that is sorted in one go, then the next one from the stack *)
  assert (forall t1,
            rearranged pl pr t t1 -> ordered v pl pr t1 ->
            exists t',
              match stack with
              | [] => Ret t1
              | (pl, pr, cdepth) :: stack =>
                  match fuel with
                  | O => OutOfFuel
                  | S fuel => numpy.run v fuel t1 pl pr stack cdepth false
                  end
              end = Ret t' /\
              t' ≡ₚ t /\ ordered v 0 (Z.of_nat (length t) - 1) t') as Hpop.
  { intros t1 Hre Hord.
    pose proof (pending_ranges_sorted t t1 pl pr _ Hvalid Hpending Hre Hord)
      as Hpending1.
    pose proof (rearranged_length _ _ _ _ Hre) as Hlen1.
    pose proof (rearranged_Permutation _ _ _ _ Hre) as Hperm1.
    destruct stack as [|[[pl' pr'] cdepth'] stack].
    - exists t1. split; [done|]. split; [done|].
      destruct Hpending1 as (_ & _ & Hpairs).
      intros p q Hp Hpq Hq. rewrite <- Hlen1 in Hq.
      destruct (Hpairs p q ltac:(lia) Hpq ltac:(lia)) as [Hle|Hex]; [done|].
      by apply Exists_nil in Hex.
    - rewrite fmap_cons in Hpending1, Hfuel, Hrest, Hwf.
      cbn [fst snd] in Hpending1, Hfuel, Hrest, Hwf.
      apply Forall_cons in Hwf as [Hwf1 Hwf]. cbn [fst snd] in Hwf1.
      pose proof (rounds_needed_nonneg t _ Hwf) as Hrest'.
      cbn [rounds_needed foldr fst snd] in Hfuel.
      fold (rounds_needed ((fun s : Z * Z * Z => (s.1.1, s.1.2)) <$> stack))
        in Hfuel.
      destruct fuel as [|fuel]; [lia|].
      destruct (IH fuel ltac:(lia) t1 pl' pr' stack cdepth' false)
        as (t' & Hrun & Hperm & Hsorted).
      + by eapply rearranged_valid.
      + done.
      + cbn [rounds_needed foldr fst snd].
        fold (rounds_needed ((fun s : Z * Z * Z => (s.1.1, s.1.2)) <$> stack)).
        lia.
      + exists t'. split; [done|]. split; [by rewrite Hperm|].
        by rewrite <- Hlen1. }
  rewrite run_eq. cbv zeta.
  destruct (negb partitioning && (cdepth <? 0)).
  { destruct (heapsort_spec t pl (pr - pl + 1)) as [Hre Hord]; [lia..|done|].
    replace (pl + (pr - pl + 1) - 1) with pr in Hre, Hord by lia.
    by apply Hpop. }
  destruct (16 <? pr - pl) eqn:Hsize.
  2:{ destruct (insertion_sort_spec t pl pr) as [Hre Hord]; [lia..|done|].
      by apply Hpop. }
  apply Z.ltb_lt in Hsize.
  destruct (partition_spec t pl pr) as (t1 & pi & Heq & Hre & Hpi & Hleft & Hright);
    [done|lia..|].
  rewrite Heq.
  destruct (pending_ranges_partitioned t t1 pl pr pi _ Hvalid Hpending Hre Hpi
              Hleft Hright) as [Hpending1 Hpending2].
  pose proof (rearranged_length _ _ _ _ Hre) as Hlen1.
  pose proof (rearranged_Permutation _ _ _ _ Hre) as Hperm1.
  assert (valid t1) as Hvalid1 by (by eapply rearranged_valid).
  destruct (pi - pl <? pr - pi).
  - destruct (IH fuel ltac:(lia) t1 pl (pi - 1)
                ((pi + 1, pr, cdepth - 1) :: stack) (cdepth - 1) true)
      as (t' & Hrun & Hperm & Hsorted).
    + done.
    + by rewrite fmap_cons.
    + rewrite fmap_cons. cbn [rounds_needed foldr fst snd].
      fold (rounds_needed ((fun s : Z * Z * Z => (s.1.1, s.1.2)) <$> stack)).
      lia.
    + exists t'. split; [done|]. split; [by rewrite Hperm|].
      by rewrite <- Hlen1.
  - destruct (IH fuel ltac:(lia) t1 (pi + 1) pr
                ((pl, pi - 1, cdepth - 1) :: stack) (cdepth - 1) true)
      as (t' & Hrun & Hperm & Hsorted).
    + done.
    + by rewrite fmap_cons.
    + rewrite fmap_cons. cbn [rounds_needed foldr fst snd].
      fold (rounds_needed ((fun s : Z * Z * Z => (s.1.1, s.1.2)) <$> stack)).
      lia.
    + exists t'. split; [done|]. split; [by rewrite Hperm|].
      by rewrite <- Hlen1.
Qed.

(** The arg-quicksort returns, and what it returns lists every position
    once, in ascending order of key. *)
Lemma aquicksort_spec :
  exists order,
    numpy.aquicksort v = Ret order /\
    order ≡ₚ seq 0 (length v) /\
    ordered v 0 (Z.of_nat (length v) - 1) order.
Proof.
  unfold numpy.aquicksort. cbv zeta.
  destruct (run_spec (4 * length v + 4) (seq 0 (length v)) 0
              (Z.of_nat (length v) - 1) []
              (numpy.get_msb (Z.of_nat (length v)) * 2) false)
    as (order & Hrun & Hperm & Hord).
  - apply Forall_forall. intros i Hi%elem_of_seq. lia.
  - rewrite fmap_nil. split; [|split].
    + apply Forall_singleton. rewrite length_seq. cbn. lia.
    + done.
    + intros p q Hp Hpq Hq. rewrite length_seq in Hq. right.
      apply Exists_cons. left. cbn. lia.
  - rewrite fmap_nil. cbn [rounds_needed foldr fst snd]. lia.
  - rewrite length_seq in Hord. by exists order.
Qed.
End ArgsortSorts.

(** *** The order of binary64 keys *)

Lemma SFltb_order_key (x y : spec_float) :
  x <> S754_nan -> y <> S754_nan ->
  SFltb x y = true <-> key_lt (order_key x) (order_key y).
Proof.
  intros Hx Hy. unfold SFltb, key_lt.
  destruct x as [sx|sx| |sx mx ex], y as [sy|sy| |sy my ey]; try done;
    try (destruct sx); try (destruct sy); cbn;
    try (destruct (Z.compare_spec ex ey) as [Heq|Hlt|Hgt]; cbn;
         try (change (PosDef.Pos.compare_cont Eq mx my) with (Pos.compare mx my);
              destruct (Pos.compare_spec mx my) as [Hmeq|Hmlt|Hmgt]; cbn));
    (split;
     [intros Hc; first [discriminate Hc|lia]
     |intros Hk; first [reflexivity|exfalso; lia]]).
Qed.

Lemma is_nan_false (x : float) :
  is_nan x = false -> Prim2SF x <> S754_nan.
Proof.
  unfold is_nan. rewrite FloatAxioms.eqb_spec. intros Hx Hnan.
  by rewrite Hnan in Hx.
Qed.

Lemma float_ltb_asym (x y : float) :
  is_nan x = false -> is_nan y = false ->
  (x <? y)%float = true -> (y <? x)%float = false.
Proof.
  intros Hx%is_nan_false Hy%is_nan_false.
  rewrite !FloatAxioms.ltb_spec. intros Hlt%SFltb_order_key; [|done..].
  apply not_true_is_false. intros Hgt%SFltb_order_key; [|done..].
  unfold key_lt in *. lia.
Qed.

Lemma float_ltb_negtrans (x y z : float) :
  is_nan x = false -> is_nan y = false -> is_nan z = false ->
  (y <? x)%float = false -> (z <? y)%float = false -> (z <? x)%float = false.
Proof.
  intros Hx%is_nan_false Hy%is_nan_false Hz%is_nan_false.
  rewrite !FloatAxioms.ltb_spec. intros Hyx Hzy.
  apply not_true_is_false. intros Hzx%SFltb_order_key; [|done..].
  apply not_true_iff_false in Hyx, Hzy.
  rewrite SFltb_order_key in Hyx, Hzy by done.
  unfold key_lt in *. lia.
Qed.

(** *** [argsort] meets its contract *)

Lemma StronglySorted_lookup_2 {A} (R : A -> A -> Prop) (l : list A) :
  (forall i j x y, (i < j)%nat -> l !! i = Some x -> l !! j = Some y -> R x y) ->
  StronglySorted R l.
Proof.
  induction l as [|x l IH]; intros Hl; [constructor|].
  constructor.
  - apply IH. intros i j a b Hij Ha Hb. by apply (Hl (S i) (S j)); [lia|..].
  - apply Forall_forall. intros y Hy.
    apply list_elem_of_lookup in Hy as [j Hj].
    by apply (Hl 0%nat (S j)); [lia|..].
Qed.

(** On keys without NaN that [flt] orders as a strict weak order, NumPy's
    arg-quicksort returns, and returns positions that put the keys in
    ascending order. *)
Lemma argsort_sorts `{Arith F} (keys : list F) :
  Forall (fun x => fisnan x = false) keys ->
  (forall x y, x ∈ keys -> y ∈ keys -> flt x y = true -> flt y x = false) ->
  (forall x y z, x ∈ keys -> y ∈ keys -> z ∈ keys ->
     flt y x = false -> flt z y = false -> flt z x = false) ->
  exists order, numpy.argsort keys = Ret order /\ sorting_order keys order.
Proof.
  intros Hnan Hasym Hnegtrans. rewrite Forall_forall in Hnan.
  assert (forall i j a b, keys !! i = Some a -> keys !! j = Some b ->
            numpy.less_idx keys i j = flt a b) as Hless.
  { intros i j a b Ha Hb. unfold numpy.less_idx, numpy.less.
    rewrite Ha, Hb. rewrite (Hnan b) by (by eapply list_elem_of_lookup_2).
    cbn. by rewrite orb_false_r. }
  destruct (aquicksort_spec keys) as (order & Hrun & Hperm & Hord).
  - intros i j Hij.
    destruct (keys !! i) as [a|] eqn:Ha;
      [|by unfold numpy.less_idx in Hij; rewrite Ha in Hij].
    destruct (keys !! j) as [b|] eqn:Hb;
      [|by unfold numpy.less_idx in Hij; rewrite Ha, Hb in Hij].
    rewrite (Hless i j a b) in Hij by done. rewrite (Hless j i b a) by done.
    apply Hasym; [by eapply list_elem_of_lookup_2..|done].
  - intros i j k Hj Hji Hkj.
    apply lookup_lt_is_Some in Hj as [b Hb].
    destruct (keys !! i) as [a|] eqn:Ha;
      [|by unfold numpy.less_idx; rewrite Ha; destruct (keys !! k)].
    destruct (keys !! k) as [c|] eqn:Hc;
      [|by unfold numpy.less_idx; rewrite Hc].
    rewrite (Hless j i b a) in Hji by done.
    rewrite (Hless k j c b) in Hkj by done.
    rewrite (Hless k i c a) by done.
    apply (Hnegtrans a b c); [by eapply list_elem_of_lookup_2..|done|done].
  - exists order. split; [done|]. split; [done|].
    destruct (take_rows_perm order keys Hperm) as (sorted_keys & Htake & _).
    exists sorted_keys. split; [done|].
    apply take_rows_Forall2 in Htake.
    apply StronglySorted_lookup_2. intros i j x y Hij Hx Hy.
    destruct (Forall2_lookup_r _ _ _ _ _ Htake Hx) as (oi & Hoi & Hkx).
    destruct (Forall2_lookup_r _ _ _ _ _ Htake Hy) as (oj & Hoj & Hky).
    pose proof (Forall2_length _ _ _ Htake) as Hlen.
    pose proof (Permutation_length Hperm) as Hlen'. rewrite length_seq in Hlen'.
    apply lookup_lt_Some in Hy as Hj.
    specialize (Hord (Z.of_nat i) (Z.of_nat j) ltac:(lia) ltac:(lia) ltac:(lia)).
    unfold numpy.at_ in Hord. rewrite !Nat2Z.id, Hoi, Hoj in Hord. cbn in Hord.
    by rewrite (Hless oj oi y x) in Hord.
Qed.

(** C2 (as amended).  For every sequence of column summaries with binary64
    scores, the ranking step of both emitters returns: pandas hands the
    keys that are not NaN to NumPy's arg-quicksort, which sorts them, and
    the result is the first ten rows of a rearrangement of the summaries
    that is in non-increasing order of [mad] (rows with a missing [mad]
    last): [min 10 n] rows, ranked by [mad].  Nothing is promised about the
    relative order of rows with equal [mad]. *)
Theorem top_deviations_ranked (libm_log10 : float -> float)
    (summary_df : list (summary float)) :
  exists ranked top,
    sort_values_desc (H := float_arith libm_log10)
      (numpy.argsort (H := float_arith libm_log10)) mad summary_df
    = Ret ranked /\
    ranked ≡ₚ summary_df /\
    StronglySorted (by_mad_desc (H := float_arith libm_log10)) (mad <$> ranked) /\
    benford_analysis.top_deviations (H := float_arith libm_log10)
      (numpy.argsort (H := float_arith libm_log10)) summary_df = Ret top /\
    benford_excel_report.top_deviations (H := float_arith libm_log10)
      (numpy.argsort (H := float_arith libm_log10)) summary_df = Ret top /\
    top = take 10 ranked /\
    length top = (10 `min` length summary_df)%nat /\
    StronglySorted (by_mad_desc (H := float_arith libm_log10)) (mad <$> top).
Proof.
  set (A := float_arith libm_log10).
  set (keys := reverse (filter (fun x => notnan (H := A) x = true)
                          (mad <$> summary_df))).
  assert (forall x, x ∈ keys -> is_nan x = false) as Hnan.
  { intros x Hx. subst keys. rewrite elem_of_reverse in Hx.
    apply list_elem_of_filter in Hx as [Hx _].
    unfold notnan in Hx. cbn in Hx. by destruct (is_nan x). }
  destruct (argsort_sorts (H := A) keys) as (order & Hargsort & Hcontract).
  { apply Forall_forall. exact Hnan. }
  { intros x y Hx Hy. apply float_ltb_asym; auto. }
  { intros x y z Hx Hy Hz. apply float_ltb_negtrans; auto. }
  destruct (sort_values_desc_sorted (H := A) numpy.argsort mad summary_df order
              Hargsort Hcontract)
    as (ranked & Hranked & Hperm & Hsorted).
  exists ranked, (take 10 ranked).
  split; [done|]. split; [done|]. split; [done|].
  split; [|split].
  - unfold benford_analysis.top_deviations. by rewrite Hranked.
  - unfold benford_excel_report.top_deviations. by rewrite Hranked.
  - split; [done|]. split.
    + by rewrite length_take, (Permutation_length Hperm), Nat.min_comm.
    + rewrite fmap_take. by apply StronglySorted_take.
Qed.

(** C2 (as stated, refuted).  Eighteen summaries with the same [mad], as
    eighteen columns without a valid value produce: NumPy's quicksort
    partitions a range of more than seventeen keys and swaps equal keys
    across the pivot, so the ranking returns the rows 0, 1, 16, 15, ..., 9
    of its input, and the rows 16 and 15 (among others) come out in the
    opposite of their input order. *)
Lemma top_deviations_reorders_ties :
  let top := (fun column_name =>
                summary_of (H := float_order) "Sheet1" column_name [])
               <$> ["c00"; "c01"; "c16"; "c15"; "c14"; "c13"; "c12"; "c11";
                    "c10"; "c09"] in
  Forall (fun r => mad r = 0%float) blank_summaries /\
  benford_analysis.top_deviations (H := float_order) (numpy.argsort (H := float_order)) blank_summaries
  = Ret top /\
  benford_excel_report.top_deviations (H := float_order) (numpy.argsort (H := float_order))
    blank_summaries = Ret top /\
  ~ keeps_input_order (H := float_order) blank_summaries top.
Proof.
  cbv zeta. split; [|split; [|split]].
  - repeat constructor.
  - vm_compute. reflexivity.
  - vm_compute. reflexivity.
  - intros Hkeep.
    destruct (Hkeep 2%nat 3%nat
                (summary_of (H := float_order) "Sheet1" "c16" [])
                (summary_of (H := float_order) "Sheet1" "c15" []))
      as (a & b & Hab & Ha & Hb); [lia|reflexivity..|].
    assert (NoDup blank_columns) as Hnodup.
    { apply (bool_decide_unpack _). vm_compute. reflexivity. }
    assert (forall i c, blank_summaries !! i
                        = Some (summary_of (H := float_order) "Sheet1" c []) ->
                        blank_columns !! i = Some c) as Hname.
    { intros i c Hi. unfold blank_summaries in Hi.
      rewrite list_lookup_fmap in Hi.
      destruct (blank_columns !! i) as [c'|]; [|done].
      injection Hi as Hc. by subst c'. }
    apply Hname in Ha. apply Hname in Hb.
    assert (a = 16%nat) as ->
      by (eapply (NoDup_lookup blank_columns); [done|exact Ha|reflexivity]).
    assert (b = 15%nat) as ->
      by (eapply (NoDup_lookup blank_columns); [done|exact Hb|reflexivity]).
    lia.
Qed.

(** * Further properties of the code *)

(** ** Failures and bounds of [analyze_numeric_column] *)

Lemma mapM_cons_outcome {A B} (f : A -> outcome B) (x : A) (l : list A) :
  mapM f (x :: l) = y ← f x; k ← mapM f l; Ret (y :: k).
Proof. reflexivity. Qed.

Lemma mapM_app_outcome {A B} (f : A -> outcome B) (l1 l2 : list A) :
  mapM f (l1 ++ l2) = k1 ← mapM f l1; k2 ← mapM f l2; Ret (k1 ++ k2).
Proof.
  induction l1 as [|x l1 IH].
  - rewrite app_nil_l. change (mapM f []) with (Ret (@nil B)).
    run_outcome. by destruct (mapM f l2).
  - rewrite <- app_comm_cons, !mapM_cons_outcome, IH.
    destruct (f x) as [y| |]; run_outcome; [|done..].
    destruct (mapM f l1) as [k1| |]; run_outcome; [|done..].
    by destruct (mapM f l2).
Qed.

(** [mapM] raises the exception of the first element on which the function
    raises, all earlier elements having returned. *)
Lemma mapM_Raise {A B} (f : A -> outcome B) (l : list A) (e : exn) :
  mapM f l = Raise e <->
  exists l1 x l2 k1,
    l = l1 ++ x :: l2 /\ mapM f l1 = Ret k1 /\ f x = Raise e.
Proof.
  split.
  - induction l as [|x l IH]; [done|].
    rewrite mapM_cons_outcome.
    destruct (f x) as [y| |] eqn:Hx; run_outcome.
    + destruct (mapM f l) as [k| |] eqn:Hl; run_outcome; [done| |done].
      intros [= ->]. destruct IH as (l1 & x' & l2 & k1 & -> & Hl1 & Hx'); [done|].
      exists (x :: l1), x', l2, (y :: k1). split; [done|]. split; [|done].
      rewrite mapM_cons_outcome, Hx, Hl1. done.
    + intros [= ->]. by exists [], x, l, [].
    + done.
  - intros (l1 & x & l2 & k1 & -> & Hl1 & Hx).
    rewrite mapM_app_outcome, Hl1. run_outcome.
    rewrite mapM_cons_outcome, Hx. done.
Qed.

Section AnalysisBehaviour.
Variable float_of_str : string -> option float.
Context `{Arith F}.
Abbreviation leading_digit := (benford_analysis.leading_digit float_of_str).
Abbreviation extract_digits := (benford_analysis.extract_digits float_of_str).
Abbreviation analyze_numeric_column :=
  (benford_analysis.analyze_numeric_column float_of_str).

Lemma analyze_numeric_column_Raise (series : list pyvalue)
    (sheet_name column_name : string) (e : exn) :
  analyze_numeric_column series sheet_name column_name = Raise e <->
  mapM leading_digit series = Raise e.
Proof.
  destruct (mapM leading_digit series) as [results| |] eqn:Hres.
  - rewrite (analyze_numeric_column_unfold float_of_str series _ _ _
               (extract_digits_results float_of_str _ _ Hres)).
    split; discriminate.
  - unfold benford_analysis.analyze_numeric_column,
      benford_analysis.extract_digits. rewrite Hres. run_outcome.
    split; intros Heq; by inversion Heq.
  - unfold benford_analysis.analyze_numeric_column,
      benford_analysis.extract_digits. rewrite Hres. run_outcome.
    split; intros Heq; by inversion Heq.
Qed.

(** The analysis fails only through [leading_digit]: it raises [e] exactly
    when some value of the column makes [leading_digit] raise [e] while
    [leading_digit] returns on every value before it.  No lookup by label
    inside the analysis can fail. *)
Theorem analysis_raises_with_first_failing_value (series : list pyvalue)
    (sheet_name column_name : string) (e : exn) :
  analyze_numeric_column series sheet_name column_name = Raise e <->
  exists before value after,
    series = before ++ value :: after /\
    Forall (fun v => exists r, leading_digit v = Ret r) before /\
    leading_digit value = Raise e.
Proof.
  rewrite analyze_numeric_column_Raise, mapM_Raise. split.
  - intros (l1 & x & l2 & k1 & -> & Hl1 & Hx). exists l1, x, l2.
    split; [done|]. split; [|done].
    apply mapM_Ret_Forall2 in Hl1. clear -Hl1.
    induction Hl1; constructor; eauto.
  - intros (l1 & x & l2 & -> & Hl1 & Hx).
    assert (exists k1, mapM leading_digit l1 = Ret k1) as [k1 Hk1].
    { clear -Hl1. induction Hl1 as [|v l1 [r Hr] _ [k1 Hk1]]; [by exists []|].
      exists (r :: k1). by rewrite mapM_cons_outcome, Hr, Hk1. }
    by exists l1, x, l2, k1.
Qed.

Lemma count_digit_le_length (d : Z) (digits : list Z) :
  count_digit d digits <= Z.of_nat (length digits).
Proof. unfold count_digit. pose proof (length_filter (fun x => x = d) digits). lia. Qed.

Lemma extract_digits_length (series : list pyvalue) (digits : list Z) :
  extract_digits series = Ret digits -> (length digits <= length series)%nat.
Proof.
  unfold benford_analysis.extract_digits.
  destruct (mapM _ series) as [results| |] eqn:Hres; [|done..].
  intros [= <-]. apply mapM_Ret_length in Hres. rewrite <- Hres.
  clear. induction results as [|[d|] results IH]; csimpl; lia.
Qed.

(** Whatever the analysis returns, the total lies between 0 and the number
    of cells of the column, and every digit's count between 0 and the
    total. *)
Theorem counts_within_total (series : list pyvalue)
    (sheet_name column_name : string) (rows : list (detail_row F)) (s : summary F) :
  analyze_numeric_column series sheet_name column_name = Ret (rows, s) ->
  0 <= total_values s <= Z.of_nat (length series) /\
  Forall (fun r => 0 <= count r <= total_values s) rows /\
  Forall (fun r => sheet r = s_sheet s /\ column r = s_column s) rows.
Proof.
  intros Hret.
  destruct (analyze_numeric_column_Ret float_of_str _ _ _ _ Hret) as [digits Hdigits].
  rewrite (analyze_numeric_column_unfold float_of_str _ _ _ _ Hdigits) in Hret.
  assert (rows = detail_of sheet_name column_name digits <$> range 1 10) as ->
    by congruence.
  assert (s = summary_of sheet_name column_name digits) as -> by congruence.
  clear Hret. cbn [total_values summary_of s_sheet s_column].
  pose proof (extract_digits_length _ _ Hdigits).
  split; [lia|]. split.
  - apply Forall_fmap, Forall_forall. intros d _. cbn.
    pose proof (count_digit_nonneg d digits).
    pose proof (count_digit_le_length d digits). lia.
  - apply Forall_fmap, Forall_forall. intros d _. by cbn.
Qed.

Lemma extract_digits_app (l1 l2 : list pyvalue) :
  extract_digits (l1 ++ l2)
  = d1 ← extract_digits l1; d2 ← extract_digits l2; Ret (d1 ++ d2).
Proof.
  unfold benford_analysis.extract_digits. rewrite mapM_app_outcome.
  destruct (mapM _ l1) as [k1| |]; run_outcome; [|done..].
  destruct (mapM _ l2) as [k2| |]; run_outcome; [|done..].
  by rewrite omap_app.
Qed.

(** A cell without a leading digit (blank, zero, text) can be dropped from
    a column, wherever it stands, without any change to what the analysis
    yields: the same tables, or the same exception. *)
Theorem absent_cell_is_ignored (before after : list pyvalue) (value : pyvalue)
    (sheet_name column_name : string) :
  leading_digit value = Ret None ->
  analyze_numeric_column (before ++ value :: after) sheet_name column_name
  = analyze_numeric_column (before ++ after) sheet_name column_name.
Proof.
  intros Habsent.
  assert (extract_digits (before ++ value :: after) = extract_digits (before ++ after))
    as Hsame.
  { rewrite !extract_digits_app.
    change (value :: after) with ([value] ++ after).
    rewrite (extract_digits_app [value] after).
    assert (extract_digits [value] = Ret []) as ->.
    { unfold benford_analysis.extract_digits.
      by rewrite mapM_cons_outcome, Habsent. }
    destruct (extract_digits before); run_outcome; [|done..].
    by destruct (extract_digits after). }
  unfold benford_analysis.analyze_numeric_column. by rewrite Hsame.
Qed.

(** Analysing two columns laid end to end adds up the columns: each digit's
    count is the sum of its counts in the two parts, and so is the total. *)
Theorem counts_add_over_concatenation (series1 series2 : list pyvalue)
    (sheet_name column_name : string)
    (rows1 rows2 : list (detail_row F)) (s1 s2 : summary F) :
  analyze_numeric_column series1 sheet_name column_name = Ret (rows1, s1) ->
  analyze_numeric_column series2 sheet_name column_name = Ret (rows2, s2) ->
  exists rows s,
    analyze_numeric_column (series1 ++ series2) sheet_name column_name
    = Ret (rows, s) /\
    total_values s = total_values s1 + total_values s2 /\
    count <$> rows = zip_with Z.add (count <$> rows1) (count <$> rows2).
Proof.
  intros Hret1 Hret2.
  destruct (analyze_numeric_column_Ret float_of_str _ _ _ _ Hret1) as [d1 Hd1].
  destruct (analyze_numeric_column_Ret float_of_str _ _ _ _ Hret2) as [d2 Hd2].
  rewrite (analyze_numeric_column_unfold float_of_str _ _ _ _ Hd1) in Hret1.
  rewrite (analyze_numeric_column_unfold float_of_str _ _ _ _ Hd2) in Hret2.
  assert (rows1 = detail_of sheet_name column_name d1 <$> range 1 10) as ->
    by congruence.
  assert (rows2 = detail_of sheet_name column_name d2 <$> range 1 10) as ->
    by congruence.
  assert (s1 = summary_of sheet_name column_name d1) as -> by congruence.
  assert (s2 = summary_of sheet_name column_name d2) as -> by congruence.
  clear Hret1 Hret2.
  assert (extract_digits (series1 ++ series2) = Ret (d1 ++ d2)) as Hd.
  { by rewrite extract_digits_app, Hd1, Hd2. }
  eexists _, _. split; [by apply analyze_numeric_column_unfold|].
  split.
  - cbn. rewrite length_app. lia.
  - rewrite <- !list_fmap_compose.
    change (range 1 10) with [1; 2; 3; 4; 5; 6; 7; 8; 9].
    cbn. by rewrite !count_digit_app.
Qed.
End AnalysisBehaviour.

Lemma counts_within_total_witness :
  let series := [PyInt 12; PyNone; PyFloat 0.25] in
  let r := (detail_of (H := real_arith) "S1" "C1" [1; 2] <$> range 1 10,
            summary_of (H := real_arith) "S1" "C1" [1; 2]) in
  benford_analysis.analyze_numeric_column (H := real_arith) (fun _ => None)
    series "S1" "C1" = Ret r /\
  0 <= total_values r.2 <= 3 /\
  Forall (fun row => 0 <= count row <= total_values r.2) r.1 /\
  Forall (fun row => sheet row = s_sheet r.2 /\ column row = s_column r.2) r.1.
Proof.
  assert (benford_analysis.analyze_numeric_column (H := real_arith) (fun _ => None)
            [PyInt 12; PyNone; PyFloat 0.25] "S1" "C1"
          = Ret (detail_of (H := real_arith) "S1" "C1" [1; 2] <$> range 1 10,
                 summary_of (H := real_arith) "S1" "C1" [1; 2])) as Hret.
  { apply analyze_numeric_column_unfold. vm_compute. reflexivity. }
  split; [exact Hret|].
  exact (counts_within_total (H := real_arith) (fun _ => None) _ _ _ _ _ Hret).
Defined.

Lemma absent_cell_is_ignored_witness :
  benford_analysis.leading_digit (fun _ => None) (PyInt 0) = Ret None /\
  benford_analysis.analyze_numeric_column (H := real_arith) (fun _ => None)
    ([PyInt 12] ++ PyInt 0 :: [PyFloat 0.25]) "S1" "C1"
  = benford_analysis.analyze_numeric_column (H := real_arith) (fun _ => None)
      ([PyInt 12] ++ [PyFloat 0.25]) "S1" "C1".
Proof.
  assert (benford_analysis.leading_digit (fun _ => None) (PyInt 0) = Ret None)
    as Habsent by (vm_compute; reflexivity).
  split; [exact Habsent|].
  exact (absent_cell_is_ignored (H := real_arith) (fun _ => None)
           [PyInt 12] [PyFloat 0.25] (PyInt 0) "S1" "C1" Habsent).
Defined.

Lemma counts_add_over_concatenation_witness :
  let r1 := (detail_of (H := real_arith) "S1" "C1" [1] <$> range 1 10,
             summary_of (H := real_arith) "S1" "C1" [1]) in
  let r2 := (detail_of (H := real_arith) "S1" "C1" [2; 1] <$> range 1 10,
             summary_of (H := real_arith) "S1" "C1" [2; 1]) in
  benford_analysis.analyze_numeric_column (H := real_arith) (fun _ => None)
    [PyInt 12] "S1" "C1" = Ret r1 /\
  benford_analysis.analyze_numeric_column (H := real_arith) (fun _ => None)
    [PyFloat 0.25; PyInt 1] "S1" "C1" = Ret r2 /\
  exists rows s,
    benford_analysis.analyze_numeric_column (H := real_arith) (fun _ => None)
      ([PyInt 12] ++ [PyFloat 0.25; PyInt 1]) "S1" "C1" = Ret (rows, s) /\
    total_values s = total_values r1.2 + total_values r2.2 /\
    count <$> rows = zip_with Z.add (count <$> r1.1) (count <$> r2.1).
Proof.
  assert (benford_analysis.analyze_numeric_column (H := real_arith) (fun _ => None)
            [PyInt 12] "S1" "C1"
          = Ret (detail_of (H := real_arith) "S1" "C1" [1] <$> range 1 10,
                 summary_of (H := real_arith) "S1" "C1" [1])) as Hret1.
  { apply analyze_numeric_column_unfold. vm_compute. reflexivity. }
  assert (benford_analysis.analyze_numeric_column (H := real_arith) (fun _ => None)
            [PyFloat 0.25; PyInt 1] "S1" "C1"
          = Ret (detail_of (H := real_arith) "S1" "C1" [2; 1] <$> range 1 10,
                 summary_of (H := real_arith) "S1" "C1" [2; 1])) as Hret2.
  { apply analyze_numeric_column_unfold. vm_compute. reflexivity. }
  split; [exact Hret1|]. split; [exact Hret2|].
  exact (counts_add_over_concatenation (H := real_arith) (fun _ => None)
           _ _ _ _ _ _ _ _ Hret1 Hret2).
Defined.

(** ** The tables of the two emitters *)

Section EmitterTables.
Variable float_of_str : string -> option float.
Context `{Arith F}.
Variable argsort : list F -> outcome (list nat).
Abbreviation column_digits :=
  (fun c : string * string * list pyvalue =>
     benford_excel_report.extract_digits float_of_str c.2).
Abbreviation detail_frame_of :=
  (fun (c : string * string * list pyvalue) (ds : list Z) =>
     detail_of c.1.1 c.1.2 ds <$> range 1 10).
Abbreviation summary_row_of :=
  (fun (c : string * string * list pyvalue) (ds : list Z) =>
     summary_of c.1.1 c.1.2 ds).

Lemma analyze_column_step (series : list pyvalue) (sheet_name column_name : string)
    {B} (k : list Z -> list (detail_row F) * summary F -> outcome B) :
  (digits ← benford_excel_report.extract_digits float_of_str series;
   r ← benford_excel_report.analyze_numeric_column float_of_str series
         sheet_name column_name;
   k digits r)
  = (digits ← benford_excel_report.extract_digits float_of_str series;
     k digits (detail_of sheet_name column_name digits <$> range 1 10,
               summary_of sheet_name column_name digits)).
Proof.
  destruct (benford_excel_report.extract_digits float_of_str series)
    as [digits| |] eqn:Hdigits; run_outcome; [|done..].
  change (benford_excel_report.analyze_numeric_column float_of_str series
            sheet_name column_name)
    with (benford_analysis.analyze_numeric_column float_of_str series
            sheet_name column_name).
  by rewrite (analyze_numeric_column_unfold float_of_str _ _ _ _ Hdigits).
Qed.

(** The spreadsheet emitter's loop over the columns of a sheet, as one
    step on the extracted digits of the columns. *)
Lemma excel_analyze_columns_tables (sheet_name : string)
    (numeric_cols : numeric_frame) (acc : benford_excel_report.tables) :
  benford_excel_report.analyze_columns float_of_str sheet_name numeric_cols acc
  = dss ← mapM column_digits
            ((fun col => (sheet_name, col.1, col.2)) <$> numeric_cols);
    Ret {| benford_excel_report.detail_frames :=
             benford_excel_report.detail_frames acc
             ++ zip_with detail_frame_of
                  ((fun col => (sheet_name, col.1, col.2)) <$> numeric_cols) dss;
           benford_excel_report.summary_rows :=
             benford_excel_report.summary_rows acc
             ++ zip_with summary_row_of
                  ((fun col => (sheet_name, col.1, col.2)) <$> numeric_cols) dss;
           benford_excel_report.all_digits :=
             benford_excel_report.all_digits acc ++ concat dss |}.
Proof.
  revert acc.
  induction numeric_cols as [|[column_name series] numeric_cols IH]; intros acc.
  - cbn [fmap list_fmap]. change (mapM _ []) with (Ret (@nil (list Z))).
    run_outcome. cbn [zip_with concat benford_excel_report.analyze_columns].
    rewrite !app_nil_r. by destruct acc.
  - cbn [benford_excel_report.analyze_columns].
    rewrite (analyze_column_step series sheet_name column_name
               (fun digits r =>
                  benford_excel_report.analyze_columns float_of_str sheet_name
                    numeric_cols
                    {| benford_excel_report.detail_frames :=
                         benford_excel_report.detail_frames acc ++ [r.1];
                       benford_excel_report.summary_rows :=
                         benford_excel_report.summary_rows acc ++ [r.2];
                       benford_excel_report.all_digits :=
                         if bool_decide (digits = [])
                         then benford_excel_report.all_digits acc
                         else benford_excel_report.all_digits acc ++ digits |})).
    rewrite fmap_cons, mapM_cons_outcome. cbn [fst snd].
    destruct (benford_excel_report.extract_digits float_of_str series)
      as [digits| |]; run_outcome; [|done..].
    rewrite IH.
    destruct (mapM _ _) as [dss| |]; run_outcome; [|done..].
    cbn [benford_excel_report.detail_frames benford_excel_report.summary_rows
         benford_excel_report.all_digits zip_with concat fst snd].
    f_equal. f_equal.
    + by rewrite <- app_assoc.
    + by rewrite <- app_assoc.
    + case_bool_decide as Hnil; [by rewrite Hnil|by rewrite <- app_assoc].
Qed.

Lemma analysed_columns_cons (sheet_name : string) (numeric_cols : numeric_frame)
    (excel : workbook) :
  analysed_columns ((sheet_name, numeric_cols) :: excel)
  = (if frame_empty numeric_cols then []
     else (fun col => (sheet_name, col.1, col.2)) <$> numeric_cols)
    ++ analysed_columns excel.
Proof. reflexivity. Qed.

Lemma excel_analyze_sheets_tables (excel : workbook)
    (acc : benford_excel_report.tables) :
  benford_excel_report.analyze_sheets float_of_str excel acc
  = dss ← mapM column_digits (analysed_columns excel);
    Ret {| benford_excel_report.detail_frames :=
             benford_excel_report.detail_frames acc
             ++ zip_with detail_frame_of (analysed_columns excel) dss;
           benford_excel_report.summary_rows :=
             benford_excel_report.summary_rows acc
             ++ zip_with summary_row_of (analysed_columns excel) dss;
           benford_excel_report.all_digits :=
             benford_excel_report.all_digits acc ++ concat dss |}.
Proof.
  revert acc.
  induction excel as [|[sheet_name numeric_cols] excel IH]; intros acc.
  - change (analysed_columns []) with (@nil (string * string * list pyvalue)).
    change (mapM _ []) with (Ret (@nil (list Z))). run_outcome.
    cbn [zip_with concat benford_excel_report.analyze_sheets].
    rewrite !app_nil_r. by destruct acc.
  - cbn [benford_excel_report.analyze_sheets].
    rewrite analysed_columns_cons, mapM_app_outcome.
    destruct (frame_empty numeric_cols).
    + change (mapM _ []) with (Ret (@nil (list Z))). run_outcome.
      rewrite IH, !app_nil_l.
      by destruct (mapM column_digits (analysed_columns excel)).
    + rewrite excel_analyze_columns_tables.
      destruct (mapM column_digits
                  ((fun col => (sheet_name, col.1, col.2)) <$> numeric_cols))
        as [dss1| |] eqn:Hdss1; run_outcome; [|done..].
      rewrite IH.
      destruct (mapM column_digits (analysed_columns excel)) as [dss2| |];
        run_outcome; [|done..].
      cbn [benford_excel_report.detail_frames benford_excel_report.summary_rows
           benford_excel_report.all_digits].
      apply mapM_Ret_length in Hdss1.
      rewrite !zip_with_app, concat_app by done.
      by rewrite <- !app_assoc.
Qed.

Lemma analysis_analyze_step (series : list pyvalue) (sheet_name column_name : string) :
  benford_analysis.analyze_numeric_column float_of_str series sheet_name column_name
  = digits ← benford_excel_report.extract_digits float_of_str series;
    Ret (detail_of sheet_name column_name digits <$> range 1 10,
         summary_of sheet_name column_name digits).
Proof.
  change (benford_excel_report.extract_digits float_of_str series)
    with (benford_analysis.extract_digits float_of_str series).
  destruct (benford_analysis.extract_digits float_of_str series)
    as [digits| |] eqn:Hdigits; run_outcome.
  - by apply analyze_numeric_column_unfold.
  - unfold benford_analysis.analyze_numeric_column. by rewrite Hdigits.
  - unfold benford_analysis.analyze_numeric_column. by rewrite Hdigits.
Qed.

Lemma analysis_analyze_columns_tables (sheet_name : string)
    (numeric_cols : numeric_frame) (acc : benford_analysis.tables) :
  benford_analysis.analyze_columns float_of_str sheet_name numeric_cols acc
  = dss ← mapM column_digits
            ((fun col => (sheet_name, col.1, col.2)) <$> numeric_cols);
    Ret (acc.1 ++ zip_with detail_frame_of
                    ((fun col => (sheet_name, col.1, col.2)) <$> numeric_cols) dss,
         acc.2 ++ zip_with summary_row_of
                    ((fun col => (sheet_name, col.1, col.2)) <$> numeric_cols) dss).
Proof.
  revert acc.
  induction numeric_cols as [|[column_name series] numeric_cols IH]; intros acc.
  - cbn [fmap list_fmap]. change (mapM _ []) with (Ret (@nil (list Z))).
    run_outcome. cbn [zip_with benford_analysis.analyze_columns].
    rewrite !app_nil_r. by destruct acc.
  - cbn [benford_analysis.analyze_columns].
    rewrite analysis_analyze_step, fmap_cons, mapM_cons_outcome. cbn [fst snd].
    destruct (benford_excel_report.extract_digits float_of_str series)
      as [digits| |]; run_outcome; [|done..].
    rewrite IH.
    destruct (mapM _ _) as [dss| |]; run_outcome; [|done..].
    cbn [zip_with fst snd]. by rewrite <- !app_assoc.
Qed.

Lemma analysis_analyze_sheets_tables (excel : workbook) (acc : benford_analysis.tables) :
  benford_analysis.analyze_sheets float_of_str excel acc
  = dss ← mapM column_digits (analysed_columns excel);
    Ret (acc.1 ++ zip_with detail_frame_of (analysed_columns excel) dss,
         acc.2 ++ zip_with summary_row_of (analysed_columns excel) dss).
Proof.
  revert acc.
  induction excel as [|[sheet_name numeric_cols] excel IH]; intros acc.
  - change (analysed_columns []) with (@nil (string * string * list pyvalue)).
    change (mapM _ []) with (Ret (@nil (list Z))). run_outcome.
    cbn [zip_with benford_analysis.analyze_sheets].
    rewrite !app_nil_r. by destruct acc.
  - cbn [benford_analysis.analyze_sheets].
    rewrite analysed_columns_cons, mapM_app_outcome.
    destruct (frame_empty numeric_cols).
    + change (mapM _ []) with (Ret (@nil (list Z))). run_outcome.
      rewrite IH, !app_nil_l.
      by destruct (mapM column_digits (analysed_columns excel)).
    + rewrite analysis_analyze_columns_tables.
      destruct (mapM column_digits
                  ((fun col => (sheet_name, col.1, col.2)) <$> numeric_cols))
        as [dss1| |] eqn:Hdss1; run_outcome; [|done..].
      rewrite IH.
      destruct (mapM column_digits (analysed_columns excel)) as [dss2| |];
        run_outcome; [|done..].
      cbn [fst snd]. apply mapM_Ret_length in Hdss1.
      rewrite !zip_with_app by done.
      by rewrite <- !app_assoc.
Qed.

(** [main] of the spreadsheet emitter in one step: extract the digits of
    every analysed column, rank the summaries, return the tables. *)
Lemma excel_main_tables (excel : workbook) :
  benford_excel_report.main float_of_str argsort excel
  = dss ← mapM column_digits (analysed_columns excel);
    top ← benford_excel_report.top_deviations argsort
            (zip_with summary_row_of (analysed_columns excel) dss);
    Ret (concat (zip_with detail_frame_of (analysed_columns excel) dss),
         zip_with summary_row_of (analysed_columns excel) dss,
         overall_of (concat dss) <$> range 1 10, top).
Proof.
  unfold benford_excel_report.main. rewrite excel_analyze_sheets_tables.
  destruct (mapM column_digits (analysed_columns excel)) as [dss| |];
    run_outcome; [|done..].
  cbn [benford_excel_report.detail_frames benford_excel_report.summary_rows
       benford_excel_report.all_digits app].
  by rewrite overall_distribution_unfold.
Qed.

Lemma analysis_main_tables (excel : workbook) :
  benford_analysis.main float_of_str argsort excel
  = dss ← mapM column_digits (analysed_columns excel);
    top ← benford_analysis.top_deviations argsort
            (zip_with summary_row_of (analysed_columns excel) dss);
    Ret (concat (zip_with detail_frame_of (analysed_columns excel) dss),
         zip_with summary_row_of (analysed_columns excel) dss, top).
Proof.
  unfold benford_analysis.main. rewrite analysis_analyze_sheets_tables.
  by destruct (mapM column_digits (analysed_columns excel)) as [dss| |].
Qed.
End EmitterTables.

Lemma foldr_add_app (l1 l2 : list Z) :
  foldr Z.add 0 (l1 ++ l2) = foldr Z.add 0 l1 + foldr Z.add 0 l2.
Proof. induction l1 as [|x l1 IH]; simpl; lia. Qed.

Lemma analysed_columns_all_empty (excel : workbook) :
  Forall (fun sheet => frame_empty sheet.2 = true) excel ->
  analysed_columns excel = [].
Proof.
  induction 1 as [|[sheet_name numeric_cols] excel Hempty _ IH]; [done|].
  rewrite analysed_columns_cons, IH. cbn in Hempty. by rewrite Hempty.
Qed.

Section EmitterTheorems.
Variable float_of_str : string -> option float.
Context `{Arith F}.
Variable argsort : list F -> outcome (list nat).

(** The two emitters report the same numbers: on every workbook, the
    markdown emitter returns (or fails) as the spreadsheet emitter does,
    with the same detail table, summary table and top deviations. *)
Theorem emitters_report_the_same_tables (excel : workbook) :
  benford_analysis.main float_of_str argsort excel
  = (fun t => (t.1.1.1, t.1.1.2, t.2))
      <$> benford_excel_report.main float_of_str argsort excel.
Proof.
  rewrite analysis_main_tables, excel_main_tables.
  destruct (mapM _ (analysed_columns excel)) as [dss| |]; run_outcome; [|done..].
  change (benford_excel_report.top_deviations argsort)
    with (benford_analysis.top_deviations argsort).
  by destruct (benford_analysis.top_deviations argsort _).
Qed.

Lemma summary_names (cols : list (string * string * list pyvalue))
    (dss : list (list Z)) :
  length dss = length cols ->
  (fun s : summary F => (s_sheet s, s_column s))
    <$> zip_with (fun c ds => summary_of c.1.1 c.1.2 ds) cols dss
  = (fun c => (c.1.1, c.1.2)) <$> cols.
Proof.
  revert dss. induction cols as [|c cols IH]; intros [|ds dss] Hlen; try done.
  cbn [zip_with fmap list_fmap]. f_equal. apply IH. by injection Hlen.
Qed.

Lemma detail_names (cols : list (string * string * list pyvalue))
    (dss : list (list Z)) :
  length dss = length cols ->
  (fun r : detail_row F => (sheet r, column r, digit r))
    <$> concat (zip_with (fun c ds => detail_of c.1.1 c.1.2 ds <$> range 1 10)
                  cols dss)
  = c ← cols; (fun d => (c.1.1, c.1.2, d)) <$> range 1 10.
Proof.
  revert dss. induction cols as [|c cols IH]; intros [|ds dss] Hlen; try done.
  injection Hlen as Hlen.
  cbn [zip_with concat]. rewrite fmap_app, bind_cons, (IH _ Hlen).
  reflexivity.
Qed.

(** The tables follow the workbook: the summaries are those of the
    analysed columns, sheet by sheet and column by column in the order of
    the workbook (sheets without numeric data left out), and the detail
    table holds, for each of them in the same order, nine rows for the
    digits 1, ..., 9. *)
Theorem tables_follow_workbook_order (excel : workbook)
    (detail_df : list (detail_row F)) (summary_df top : list (summary F))
    (overall_table : list benford_excel_report.overall_row) :
  benford_excel_report.main float_of_str argsort excel
  = Ret (detail_df, summary_df, overall_table, top) ->
  (fun s => (s_sheet s, s_column s)) <$> summary_df
  = (fun c => (c.1.1, c.1.2)) <$> analysed_columns excel /\
  (fun r => (sheet r, column r, digit r)) <$> detail_df
  = (c ← analysed_columns excel; (fun d => (c.1.1, c.1.2, d)) <$> range 1 10) /\
  length detail_df = (9 * length summary_df)%nat.
Proof.
  rewrite excel_main_tables.
  destruct (mapM _ (analysed_columns excel)) as [dss| |] eqn:Hdss;
    run_outcome; [|done..].
  destruct (benford_excel_report.top_deviations argsort _) as [top'| |];
    run_outcome; [|done..].
  intros Heq. apply mapM_Ret_length in Hdss.
  assert (detail_df = concat (zip_with (fun c ds => detail_of c.1.1 c.1.2 ds <$> range 1 10)
                                (analysed_columns excel) dss)) as -> by congruence.
  assert (summary_df = zip_with (fun c ds => summary_of c.1.1 c.1.2 ds)
                         (analysed_columns excel) dss) as -> by congruence.
  clear Heq. split; [by apply summary_names|]. split; [by apply detail_names|].
  rewrite length_zip_with, Hdss, Nat.min_id.
  revert dss Hdss. induction (analysed_columns excel) as [|c cols IH];
    intros [|ds dss] Hlen; try done.
  injection Hlen as Hlen.
  cbn [zip_with concat length]. rewrite length_app, length_fmap.
  rewrite (IH dss Hlen).
  change (length (range 1 10)) with 9%nat. lia.
Qed.

Lemma column_counts_of_digit (cols : list (string * string * list pyvalue))
    (dss : list (list Z)) (d : Z) :
  length dss = length cols -> 1 <= d <= 9 ->
  foldr Z.add 0
    (count <$> filter (fun r : detail_row F => digit r = d)
                 (concat (zip_with (fun c ds => detail_of c.1.1 c.1.2 ds <$> range 1 10)
                            cols dss)))
  = count_digit d (concat dss).
Proof.
  intros Hlen Hd. revert dss Hlen.
  induction cols as [|c cols IH]; intros [|ds dss] Hlen; try done.
  injection Hlen as Hlen.
  cbn [zip_with concat].
  rewrite filter_app, fmap_app, foldr_add_app, count_digit_app.
  rewrite (IH _ Hlen). f_equal.
  change (range 1 10) with [1; 2; 3; 4; 5; 6; 7; 8; 9].
  cbn [fmap list_fmap].
  rewrite !filter_cons, filter_nil. cbn [digit detail_of].
  assert (d = 1 \/ d = 2 \/ d = 3 \/ d = 4 \/ d = 5 \/ d = 6 \/ d = 7 \/ d = 8 \/ d = 9)
    as Hcases by lia.
  repeat (destruct Hcases as [->|Hcases]; [simpl; lia|]).
  subst d. simpl. lia.
Qed.

(** The pooled count of a digit is the sum of that digit's counts over the
    detail rows of all analysed columns. *)
Theorem overall_counts_are_column_sums (excel : workbook)
    (detail_df : list (detail_row F)) (summary_df top : list (summary F))
    (overall_table : list benford_excel_report.overall_row) :
  benford_excel_report.main float_of_str argsort excel
  = Ret (detail_df, summary_df, overall_table, top) ->
  Forall (fun o =>
            benford_excel_report.actual_count o
            = foldr Z.add 0
                (count <$> filter (fun r => digit r = benford_excel_report.o_digit o)
                             detail_df))
         overall_table.
Proof.
  rewrite excel_main_tables.
  destruct (mapM _ (analysed_columns excel)) as [dss| |] eqn:Hdss;
    run_outcome; [|done..].
  destruct (benford_excel_report.top_deviations argsort _) as [top'| |];
    run_outcome; [|done..].
  intros Heq. apply mapM_Ret_length in Hdss.
  assert (detail_df = concat (zip_with (fun c ds => detail_of c.1.1 c.1.2 ds <$> range 1 10)
                                (analysed_columns excel) dss)) as -> by congruence.
  assert (overall_table = overall_of (concat dss) <$> range 1 10) as -> by congruence.
  clear Heq. apply Forall_fmap, Forall_forall. intros d Hd%elem_of_range.
  cbn [benford_excel_report.actual_count benford_excel_report.o_digit
       overall_of compose].
  symmetry. apply column_counts_of_digit; [done|lia].
Qed.
End EmitterTheorems.

(** A workbook without numeric data (no sheet, or only sheets without
    numeric columns or without rows) is no error: both emitters return
    empty detail, summary and top tables, and the pooled distribution has
    count 0 and percentage 0.0 for every digit. *)
Theorem workbook_without_numeric_data (float_of_str : string -> option float)
    `{Arith F} (excel : workbook) :
  Forall (fun sheet => frame_empty sheet.2 = true) excel ->
  benford_analysis.main float_of_str numpy.argsort excel = Ret ([], [], []) /\
  benford_excel_report.main float_of_str numpy.argsort excel
  = Ret ([], [],
         (fun d => {| benford_excel_report.o_digit := d;
                      benford_excel_report.actual_count := 0;
                      benford_excel_report.actual_percent := of_int 0;
                      benford_excel_report.expected_percent :=
                        log10 (fadd (of_int 1) (fdiv (of_int 1) (of_int d))) |})
           <$> [1; 2; 3; 4; 5; 6; 7; 8; 9],
         []).
Proof.
  intros Hempty%analysed_columns_all_empty.
  rewrite analysis_main_tables, excel_main_tables, Hempty. split; reflexivity.
Qed.

Lemma workbook_without_numeric_data_witness :
  let excel : workbook := [("Notes", []); ("Empty", [("amount", [])])] in
  Forall (fun sheet => frame_empty sheet.2 = true) excel /\
  benford_analysis.main (H := real_arith) (fun _ => None)
    (numpy.argsort (H := real_arith)) excel
  = Ret ([], [], []).
Proof.
  assert (Forall (fun sheet : string * numeric_frame => frame_empty sheet.2 = true)
            [("Notes", []); ("Empty", [("amount", [])])]) as Hempty
    by (repeat constructor).
  split; [exact Hempty|].
  exact (proj1 (workbook_without_numeric_data (H := real_arith) (fun _ => None)
                  _ Hempty)).
Defined.

Lemma tables_follow_workbook_order_witness :
  let excel : workbook :=
    [("S1", [("a", [PyInt 12; PyNone]); ("b", [PyFloat 0.5; PyInt 7])]);
     ("Notes", []);
     ("S2", [("c", [PyInt 30; PyInt 31])])] in
  exists detail_df summary_df overall_table top,
    benford_excel_report.main (H := float_order) (fun _ => None)
      (numpy.argsort (H := float_order)) excel
    = Ret (detail_df, summary_df, overall_table, top) /\
    (fun s => (s_sheet s, s_column s)) <$> summary_df
    = [("S1", "a"); ("S1", "b"); ("S2", "c")] /\
    length detail_df = 27%nat.
Proof.
  cbv zeta.
  destruct (benford_excel_report.main (H := float_order) (fun _ => None)
              (numpy.argsort (H := float_order))
              [("S1", [("a", [PyInt 12; PyNone]); ("b", [PyFloat 0.5; PyInt 7])]);
               ("Notes", []);
               ("S2", [("c", [PyInt 30; PyInt 31])])])
    as [[[[detail_df summary_df] overall_table] top]| |] eqn:Hmain.
  - exists detail_df, summary_df, overall_table, top. split; [done|].
    destruct (tables_follow_workbook_order (H := float_order) _ _ _ _ _ _ _ Hmain)
      as (Hnames & _ & Hlen).
    split; [exact Hnames|].
    rewrite Hlen. apply (f_equal length) in Hnames.
    rewrite length_fmap in Hnames. by rewrite Hnames.
  - vm_compute in Hmain. discriminate.
  - vm_compute in Hmain. discriminate.
Defined.

Lemma overall_counts_are_column_sums_witness :
  let excel : workbook :=
    [("S1", [("a", [PyInt 12; PyNone]); ("b", [PyFloat 0.5; PyInt 17])])] in
  exists detail_df summary_df overall_table top,
    benford_excel_report.main (H := float_order) (fun _ => None)
      (numpy.argsort (H := float_order)) excel
    = Ret (detail_df, summary_df, overall_table, top) /\
    Forall (fun o =>
              benford_excel_report.actual_count o
              = foldr Z.add 0
                  (count <$> filter (fun r => digit r = benford_excel_report.o_digit o)
                               detail_df))
           overall_table.
Proof.
  cbv zeta.
  destruct (benford_excel_report.main (H := float_order) (fun _ => None)
              (numpy.argsort (H := float_order))
              [("S1", [("a", [PyInt 12; PyNone]); ("b", [PyFloat 0.5; PyInt 17])])])
    as [[[[detail_df summary_df] overall_table] top]| |] eqn:Hmain.
  - exists detail_df, summary_df, overall_table, top. split; [done|].
    exact (overall_counts_are_column_sums (H := float_order) _ _ _ _ _ _ _ Hmain).
  - vm_compute in Hmain. discriminate.
  - vm_compute in Hmain. discriminate.
Defined.

(** ** More on [leading_digit] *)

Lemma float_abs_opp (x : float) : abs (- x) = abs x.
Proof.
  apply Prim2SF_inj. rewrite !FloatAxioms.abs_spec, FloatAxioms.opp_spec.
  by destruct (Prim2SF x).
Qed.

Lemma float_eqb_opp_0 (x : float) : (- x =? 0)%float = (x =? 0)%float.
Proof.
  rewrite !FloatAxioms.eqb_spec, FloatAxioms.opp_spec.
  change (Prim2SF 0) with (S754_zero false).
  by destruct (Prim2SF x) as [[]|[]| |[] ? ?].
Qed.

Lemma float_is_nan_opp (x : float) : is_nan (- x) = is_nan x.
Proof.
  unfold is_nan. rewrite !FloatAxioms.eqb_spec, FloatAxioms.opp_spec.
  destruct (Prim2SF x) as [[]|[]| |[] m e]; try reflexivity;
    unfold SFeqb, SFcompare, SFopp; cbn [negb];
    change (PosDef.Pos.compare_cont Eq m m) with (Pos.compare m m);
    by rewrite Z.compare_refl, Pos.compare_refl.
Qed.

(** The sign of a float plays no role: [leading_digit] yields on [-x] what
    it yields on [x]. *)
Theorem leading_digit_ignores_sign (float_of_str : string -> option float)
    (x : float) :
  benford_analysis.leading_digit float_of_str (PyFloat (- x))
  = benford_analysis.leading_digit float_of_str (PyFloat x).
Proof.
  unfold benford_analysis.leading_digit. cbn [pd_isna py_float].
  by rewrite float_is_nan_opp, float_eqb_opp_0, float_abs_opp.
Qed.

Lemma string_length_app (s1 s2 : string) :
  String.length (s1 +:+ s2) = (String.length s1 + String.length s2)%nat.
Proof. induction s1 as [|c s1 IH]; simpl; [done|]. by rewrite IH. Qed.

(** [str] of a float is never the empty string. *)
Lemma float_str_nonempty (x : float) :
  (0 < String.length (FloatRepr.float_str x))%nat.
Proof.
  unfold FloatRepr.float_str.
  destruct (Prim2SF x) as [[]|[]| |s m e]; simpl; try lia.
  rewrite string_length_app.
  assert (0 < String.length (FloatRepr.format_positive (Z.pos m) e))%nat; [|lia].
  unfold FloatRepr.format_positive, FloatRepr.exponent_suffix.
  destruct (FloatRepr.digits_decpt (Z.pos m) e) as [ds decpt].
  repeat match goal with
         | |- context [if ?b then _ else _] => destruct b
         end;
    rewrite !string_length_app; simpl; lia.
Qed.

Lemma str_first_float_str (x : float) :
  exists c, str_first (FloatRepr.float_str x) = Ret c.
Proof.
  pose proof (float_str_nonempty x) as Hlen.
  destruct (FloatRepr.float_str x) as [|c s]; [simpl in Hlen; lia|].
  by exists c.
Qed.

Lemma int_of_char_outcome (c : ascii) :
  (exists d, int_of_char c = Ret d) \/ int_of_char c = Raise ValueError.
Proof. unfold int_of_char. destruct (_ && _); eauto. Qed.

(** What [leading_digit] can raise: a ValueError (from [int] applied to
    the first character of the printed number), or the OverflowError of
    [float] applied to an int too large for a float.  It never lets a
    TypeError, a KeyError or an IndexError escape, and on a float or a
    string it never raises OverflowError. *)
Theorem leading_digit_exceptions (float_of_str : string -> option float)
    (value : pyvalue) (e : exn) :
  benford_analysis.leading_digit float_of_str value = Raise e ->
  e = ValueError \/
  (e = OverflowError /\ exists n, value = PyInt n /\ float_of_int n = Raise OverflowError).
Proof.
  unfold benford_analysis.leading_digit.
  destruct (pd_isna value); [done|].
  destruct (py_float float_of_str value) as [number|e'|] eqn:Hfloat.
  - destruct (number =? 0)%float; [done|].
    destruct (benford_analysis.scale_up _ _) as [scaled| |] eqn:Hscale;
      run_outcome.
    + destruct (str_first_float_str scaled) as [c ->]. run_outcome.
      destruct (int_of_char_outcome c) as [[d ->]| ->]; run_outcome.
      * by destruct (d =? 0).
      * intros [= <-]. by left.
    + exfalso. clear -Hscale.
      revert Hscale. generalize (abs number). generalize 400%nat.
      induction n as [|fuel IH]; intros y; simpl; destruct (y <? 1)%float;
        try done. apply IH.
    + done.
  - destruct value as [|x|n|s|]; simpl in Hfloat.
    + by injection Hfloat as <-.
    + done.
    + assert (float_of_int n = Raise e') as Hint by done.
      unfold float_of_int in Hfloat.
      destruct (is_infinity _); [|done]. injection Hfloat as <-.
      intros [= <-]. right. split; [done|]. by exists n.
    + destruct (float_of_str s); [done|]. by injection Hfloat as <-.
    + by injection Hfloat as <-.
  - done.
Qed.

Lemma leading_digit_exceptions_witness :
  benford_analysis.leading_digit (fun _ => None) (PyInt (10 ^ 400))
  = Raise OverflowError /\
  (OverflowError = ValueError \/
   (OverflowError = OverflowError /\
    exists n, PyInt (10 ^ 400) = PyInt n /\ float_of_int n = Raise OverflowError)).
Proof.
  assert (benford_analysis.leading_digit (fun _ => None) (PyInt (10 ^ 400))
          = Raise OverflowError) as Hraise by (vm_compute; reflexivity).
  split; [exact Hraise|].
  exact (leading_digit_exceptions (fun _ => None) _ _ Hraise).
Defined.

(** ** The scores in exact arithmetic *)

Section RealSums.
Variables (f g : Z -> R) (l : list Z).

Lemma sum_fmap_nonneg :
  (forall d, d ∈ l -> (0 <= f d)%R) -> (0 <= foldr Rplus 0%R (f <$> l))%R.
Proof.
  induction l as [|d l' IH]; intros Hf; [simpl; lra|].
  rewrite fmap_cons; cbn [foldr].
  assert (0 <= f d)%R by (apply Hf; by left).
  assert (0 <= foldr Rplus 0%R (f <$> l'))%R by (apply IH; intros; apply Hf; by right).
  lra.
Qed.

Lemma sum_fmap_le :
  (forall d, d ∈ l -> (f d <= g d)%R) ->
  (foldr Rplus 0%R (f <$> l) <= foldr Rplus 0%R (g <$> l))%R.
Proof.
  induction l as [|d l' IH]; intros Hfg; [simpl; lra|].
  rewrite !fmap_cons; cbn [foldr].
  assert (f d <= g d)%R by (apply Hfg; by left).
  assert (foldr Rplus 0%R (f <$> l') <= foldr Rplus 0%R (g <$> l'))%R
    by (apply IH; intros; apply Hfg; by right).
  lra.
Qed.

Lemma sum_fmap_plus :
  foldr Rplus 0%R ((fun d => f d + g d)%R <$> l)
  = (foldr Rplus 0%R (f <$> l) + foldr Rplus 0%R (g <$> l))%R.
Proof.
  induction l as [|d l' IH]; [simpl; lra|].
  rewrite !fmap_cons; cbn [foldr]. rewrite IH. lra.
Qed.

Lemma sum_fmap_minus :
  foldr Rplus 0%R ((fun d => f d - g d)%R <$> l)
  = (foldr Rplus 0%R (f <$> l) - foldr Rplus 0%R (g <$> l))%R.
Proof.
  induction l as [|d l' IH]; [simpl; lra|].
  rewrite !fmap_cons; cbn [foldr]. rewrite IH. lra.
Qed.

Lemma sum_fmap_div (t : R) :
  foldr Rplus 0%R ((fun d => f d / t)%R <$> l) = (foldr Rplus 0%R (f <$> l) / t)%R.
Proof.
  induction l as [|d l' IH]; [simpl; unfold Rdiv; lra|].
  rewrite !fmap_cons; cbn [foldr]. rewrite IH. unfold Rdiv. lra.
Qed.
End RealSums.

Lemma sum_fmap_IZR (h : Z -> Z) (l : list Z) :
  foldr Rplus 0%R ((fun d => IZR (h d)) <$> l) = IZR (foldr Z.add 0 (h <$> l)).
Proof.
  induction l as [|d l IH]; [done|].
  rewrite !fmap_cons; cbn [foldr]. by rewrite IH, plus_IZR.
Qed.

Lemma real_series_sum (f : Z -> R) (l : list Z) :
  series_sum (H := real_arith) ((fun d => (d, f d)) <$> l) = foldr Rplus 0%R (f <$> l).
Proof. apply (series_sum_no_nan (H := real_arith)), Forall_forall. by intros. Qed.

Lemma real_series_mean (f : Z -> R) (l : list Z) :
  series_mean (H := real_arith) ((fun d => (d, f d)) <$> l)
  = (foldr Rplus 0%R (f <$> l) / IZR (Z.of_nat (length l)))%R.
Proof. apply (series_mean_no_nan (H := real_arith)), Forall_forall. by intros. Qed.

Section ExactScores.
Variable float_of_str : string -> option float.
Variables (series : list pyvalue) (sheet_name column_name : string).
Variable digits : list Z.
Hypothesis Hdigits : benford_analysis.extract_digits float_of_str series = Ret digits.
Hypothesis Hsome : digits <> [].

Lemma total_positive : (0 < IZR (Z.of_nat (length digits)))%R.
Proof. apply IZR_lt. destruct digits; [done|]. simpl. lia. Qed.

Lemma total_positive_b : (0 <? Z.of_nat (length digits)) = true.
Proof. apply Z.ltb_lt. destruct digits; [done|]. simpl. lia. Qed.

Lemma real_observed_bounds (d : Z) :
  (0 <= observed (H := real_arith) digits d <= 1)%R.
Proof.
  pose proof total_positive as Ht.
  change (observed (H := real_arith) digits d)
    with (IZR (count_digit d digits) / IZR (Z.of_nat (length digits)))%R.
  pose proof (IZR_le _ _ (count_digit_nonneg d digits)) as Hlo.
  pose proof (IZR_le _ _ (count_digit_le_length d digits)) as Hhi.
  split.
  - unfold Rdiv. apply Rmult_le_pos; [lra|].
    left. by apply Rinv_0_lt_compat.
  - apply (Rmult_le_reg_r (IZR (Z.of_nat (length digits)))); [lra|].
    unfold Rdiv. rewrite Rmult_assoc, Rinv_l by lra. lra.
Qed.

Lemma real_observed_sum :
  foldr Rplus 0%R (observed (H := real_arith) digits <$> range 1 10) = 1%R.
Proof.
  pose proof total_positive as Ht.
  change (observed (H := real_arith) digits)
    with (fun d => (IZR (count_digit d digits) / IZR (Z.of_nat (length digits)))%R).
  rewrite (sum_fmap_div (fun d => IZR (count_digit d digits))), sum_fmap_IZR.
  rewrite sum_count_digit
    by exact (extract_digits_range float_of_str _ _ Hdigits).
  field. lra.
Qed.

Lemma real_chi_term_nonneg (d : Z) :
  1 <= d -> (0 <= chi_term (H := real_arith) digits d)%R.
Proof.
  intros Hd. pose proof total_positive as Ht.
  pose proof (real_benford_pos d Hd) as He.
  unfold chi_term. cbn [fdiv fmul fsub of_int real_arith].
  set (e := benford d) in *. set (t := IZR (Z.of_nat (length digits))) in *.
  set (c := IZR (count_digit d digits)).
  assert (0 < e * t)%R by (by apply Rmult_lt_0_compat).
  unfold Rdiv. apply Rmult_le_pos.
  - apply Rle_0_sqr.
  - left. by apply Rinv_0_lt_compat.
Qed.

Lemma real_mad_term_bounds (d : Z) :
  1 <= d ->
  (0 <= mad_term (H := real_arith) digits d
     <= observed (H := real_arith) digits d + benford (H := real_arith) d)%R.
Proof.
  intros Hd. pose proof (real_benford_pos d Hd) as He.
  pose proof (real_observed_bounds d) as Hp.
  unfold mad_term. cbn [fabs fsub real_arith].
  split; [apply Rabs_pos|].
  apply Rabs_le. lra.
Qed.

(** In exact arithmetic the proportions of a column with at least one
    extracted digit form a probability distribution over the digits 1..9:
    each lies between 0 and 1, they add up to 1, and the nine differences
    from the Benford expectations add up to 0. *)
Theorem proportions_form_a_distribution :
  exists rows s,
    benford_analysis.analyze_numeric_column (H := real_arith) float_of_str
      series sheet_name column_name = Ret (rows, s) /\
    Forall (fun r => (0 <= proportion r <= 1)%R) rows /\
    foldr Rplus 0%R (proportion <$> rows) = 1%R /\
    foldr Rplus 0%R (difference <$> rows) = 0%R.
Proof.
  eexists _, _. split; [by apply analyze_numeric_column_unfold|].
  pose proof total_positive_b as Hb.
  split; [|split].
  - apply Forall_fmap, Forall_forall. intros d _. cbn. rewrite Hb.
    apply real_observed_bounds.
  - rewrite <- list_fmap_compose.
    rewrite (list_fmap_ext _ (observed (H := real_arith) digits) (range 1 10));
      [apply real_observed_sum|].
    intros i d _. cbn. by rewrite Hb.
  - rewrite <- list_fmap_compose.
    rewrite (list_fmap_ext _
               (fun d => (observed (H := real_arith) digits d
                          - benford (H := real_arith) d)%R)
               (range 1 10)).
    + rewrite sum_fmap_minus, real_observed_sum, real_benford_sum. lra.
    + intros i d _. cbn. by rewrite Hb.
Qed.

(** In exact arithmetic the two scores of a column with at least one
    extracted digit are bounded: chi-square is not negative, and MAD lies
    between 0 and 2/9. *)
Theorem exact_scores_are_bounded :
  exists rows s,
    benford_analysis.analyze_numeric_column (H := real_arith) float_of_str
      series sheet_name column_name = Ret (rows, s) /\
    (0 <= chi_square s)%R /\ (0 <= mad s <= 2 / 9)%R.
Proof.
  eexists _, _. split; [by apply analyze_numeric_column_unfold|].
  pose proof total_positive_b as Hb.
  unfold summary_of. cbn [chi_square mad]. rewrite Hb.
  rewrite real_series_sum, real_series_mean.
  change (IZR (Z.of_nat (length (range 1 10)))) with 9%R.
  split.
  - apply sum_fmap_nonneg. intros d Hd%elem_of_range.
    apply real_chi_term_nonneg. lia.
  - assert (0 <= foldr Rplus 0%R (mad_term (H := real_arith) digits <$> range 1 10)
              <= 2)%R as Hsum.
    { split.
      - apply sum_fmap_nonneg. intros d Hd%elem_of_range.
        apply real_mad_term_bounds. lia.
      - replace 2%R
          with (foldr Rplus 0%R (observed (H := real_arith) digits <$> range 1 10)
                + foldr Rplus 0%R (benford (H := real_arith) <$> range 1 10))%R
          by (rewrite real_observed_sum, real_benford_sum; lra).
        rewrite <- sum_fmap_plus. apply sum_fmap_le.
        intros d Hd%elem_of_range. apply real_mad_term_bounds. lia. }
    lra.
Qed.
End ExactScores.

Lemma proportions_form_a_distribution_witness :
  let series := [PyInt 1; PyInt 1; PyInt 1; PyInt 2; PyInt 2; PyInt 3] in
  benford_analysis.extract_digits (fun _ => None) series = Ret [1; 1; 1; 2; 2; 3] /\
  exists rows s,
    benford_analysis.analyze_numeric_column (H := real_arith) (fun _ => None)
      series "S1" "C1" = Ret (rows, s) /\
    Forall (fun r => (0 <= proportion r <= 1)%R) rows /\
    foldr Rplus 0%R (proportion <$> rows) = 1%R /\
    foldr Rplus 0%R (difference <$> rows) = 0%R.
Proof.
  assert (benford_analysis.extract_digits (fun _ => None)
            [PyInt 1; PyInt 1; PyInt 1; PyInt 2; PyInt 2; PyInt 3]
          = Ret [1; 1; 1; 2; 2; 3]) as Hdigits by (vm_compute; reflexivity).
  split; [exact Hdigits|].
  apply (proportions_form_a_distribution (fun _ => None) _ "S1" "C1"
           [1; 1; 1; 2; 2; 3]).
  - exact Hdigits.
  - discriminate.
Defined.

Lemma exact_scores_are_bounded_witness :
  let series := [PyFloat 0.25; PyNone; PyInt 30; PyInt 0; PyInt (-2)] in
  benford_analysis.extract_digits (fun _ => None) series = Ret [2; 3; 2] /\
  exists rows s,
    benford_analysis.analyze_numeric_column (H := real_arith) (fun _ => None)
      series "S1" "C1" = Ret (rows, s) /\
    (0 <= chi_square s)%R /\ (0 <= mad s <= 2 / 9)%R.
Proof.
  assert (benford_analysis.extract_digits (fun _ => None)
            [PyFloat 0.25; PyNone; PyInt 30; PyInt 0; PyInt (-2)]
          = Ret [2; 3; 2]) as Hdigits by (vm_compute; reflexivity).
  split; [exact Hdigits|].
  apply (exact_scores_are_bounded (fun _ => None) _ "S1" "C1" [2; 3; 2]).
  - exact Hdigits.
  - discriminate.
Defined.

(** ** The Markdown table *)

Lemma str_count_app (c : ascii) (s t : string) :
  str_count c (s +:+ t) = (str_count c s + str_count c t)%nat.
Proof. induction s as [|c' s IH]; [done|]. simpl. rewrite IH. lia. Qed.

Lemma str_count_join (c : ascii) (sep : string) (cells : list string) :
  Forall (fun cell => str_count c cell = 0%nat) cells ->
  str_count c (String.concat sep cells)
  = (pred (length cells) * str_count c sep)%nat.
Proof.
  induction 1 as [|cell cells Hcell Hcells IH]; [done|].
  destruct cells as [|cell' cells]; [simpl; lia|].
  change (String.concat sep (cell :: cell' :: cells))
    with (cell +:+ sep +:+ String.concat sep (cell' :: cells)).
  rewrite !str_count_app, IH, Hcell. simpl. lia.
Qed.

Lemma split_lines_one (s : string) :
  str_count "010" s = 0%nat -> split_lines s = [s].
Proof.
  induction s as [|c s IH]; [done|]. simpl.
  destruct (Ascii.eqb c "010"); [done|]. intros Hs. by rewrite IH.
Qed.

Lemma split_lines_app (s t : string) :
  str_count "010" s = 0%nat ->
  split_lines (s +:+ String "010" t) = s :: split_lines t.
Proof.
  induction s as [|c s IH]; [done|]. simpl.
  destruct (Ascii.eqb c "010"); [done|]. intros Hs. by rewrite IH.
Qed.

Lemma split_lines_join (lines : list string) :
  lines <> [] ->
  Forall (fun line => str_count "010" line = 0%nat) lines ->
  split_lines (String.concat (String "010" "") lines) = lines.
Proof.
  intros Hne Hlines. induction Hlines as [|line lines Hline Hlines IH]; [done|].
  destruct lines as [|line' lines]; [by apply split_lines_one|].
  change (String.concat (String "010" "") (line :: line' :: lines))
    with (line +:+ String "010" (String.concat (String "010" "") (line' :: lines))).
  rewrite split_lines_app by done. by rewrite IH.
Qed.

Lemma str_count_table_line (c : ascii) (cells : list string) :
  Forall (fun cell => str_count c cell = 0%nat) cells ->
  str_count c ("| " +:+ String.concat " | " cells +:+ " |")
  = (str_count c "| " + pred (length cells) * str_count c " | "
     + str_count c " |")%nat.
Proof. intros Hcells. rewrite !str_count_app, str_count_join by done. lia. Qed.

(** A frame with at least one column, whose rows are as wide as its header
    and whose strings hold neither a newline nor a pipe, is rendered as a
    rectangular table: split at the newlines, [markdown_table] gives the
    header line, the separator line and one line per row, and every line
    has one pipe more than the frame has columns.  (The cells are not
    escaped: the hypothesis on the strings is needed.) *)
Theorem markdown_table_is_rectangular (headers : list string)
    (rows : list (list string)) :
  headers <> [] ->
  Forall (fun cell => str_count "010" cell = 0%nat /\ str_count "|" cell = 0%nat)
         headers ->
  Forall (fun row =>
            length row = length headers /\
            Forall (fun cell => str_count "010" cell = 0%nat /\
                                str_count "|" cell = 0%nat) row) rows ->
  exists lines,
    split_lines (benford_analysis.markdown_table headers rows) = lines /\
    length lines = (2 + length rows)%nat /\
    Forall (fun line => str_count "|" line = S (length headers)) lines.
Proof.
  intros Hne Hheaders Hrows.
  assert (forall c : ascii, str_count c "---" = 0%nat ->
            Forall (fun cell => str_count c cell = 0%nat)
                   (replicate (length headers) "---"%string)) as Hsep.
  { intros c Hc. apply Forall_forall.
    by intros cell [-> _]%elem_of_replicate. }
  rewrite Forall_forall in Hrows.
  assert (0 < length headers)%nat as Hlen by (destruct headers; [done|simpl; lia]).
  eexists. split; [|split].
  - unfold benford_analysis.markdown_table. apply split_lines_join; [done|].
    repeat apply Forall_cons_2.
    + rewrite str_count_table_line; [simpl; lia|].
      eapply Forall_impl; [exact Hheaders|]. by intros cell [? _].
    + rewrite str_count_table_line; [simpl; lia|]. by apply Hsep.
    + apply Forall_fmap, Forall_forall. intros row [_ Hrow]%Hrows. cbv [compose].
      rewrite str_count_table_line; [simpl; lia|].
      eapply Forall_impl; [exact Hrow|]. by intros cell [? _].
  - simpl. by rewrite length_fmap.
  - repeat apply Forall_cons_2.
    + rewrite str_count_table_line.
      * simpl. lia.
      * eapply Forall_impl; [exact Hheaders|]. by intros cell [_ ?].
    + rewrite str_count_table_line by (by apply Hsep).
      rewrite length_replicate. simpl. lia.
    + apply Forall_fmap, Forall_forall. intros row [Hwidth Hrow]%Hrows. cbv [compose].
      rewrite str_count_table_line.
      * rewrite Hwidth. simpl. lia.
      * eapply Forall_impl; [exact Hrow|]. by intros cell [_ ?].
Qed.

Lemma markdown_table_is_rectangular_witness :
  let headers := ["sheet"; "column"; "mad"]%string in
  let rows := [["S1"; "amount"; "0.02"]; ["S1"; "tax"; "0.0"]]%string in
  exists lines,
    split_lines (benford_analysis.markdown_table headers rows) = lines /\
    length lines = 4%nat /\
    Forall (fun line => str_count "|" line = 4%nat) lines.
Proof.
  apply (markdown_table_is_rectangular ["sheet"; "column"; "mad"]%string
           [["S1"; "amount"; "0.02"]; ["S1"; "tax"; "0.0"]]%string).
  - discriminate.
  - repeat constructor.
  - repeat constructor.
Defined.
